(** * Anomaly detection dashboard (App.js)

    A model of [src/App.js]: the severity classifier [getSeverityClass], the
    radial projector of [HyperSphereVisualization], and the state of [App] with
    [fetchData] and [handleSort], the cells of the table and the hover
    handlers of the circles. JavaScript numbers are IEEE 754 binary64
    numbers: they are the primitive floats of Rocq, whose operations are
    specified by [SpecFloat]. A string holds one character per code unit, and
    code units below 256 only, as the hashes, addresses and numbers of the
    service do. *)

From Stdlib Require Import ZArith Reals Lra Lia Psatz Floats Bool.
From Stdlib Require Import List String Ascii Permutation Sorted.
From Stdlib Require DecimalString DecimalPos DecimalN.
Import ListNotations.
Local Open Scope Z_scope.

(** * Part I: the program *)

(** ** The JavaScript built-ins that App.js calls *)

Module JS.

(** *** [parseFloat] (ECMAScript 19.2.4): skip leading white space, read the
    longest prefix that is a [StrDecimalLiteral], and round its decimal value
    to the nearest binary64 number; [NaN] when there is no such prefix. *)

(** [StrWhiteSpaceChar]: the white space and line terminators among the code
    units below 256, TAB, LF, VT, FF, CR, SP and NBSP (U+00A0). *)
Definition isWhiteSpace (c : ascii) : bool :=
  match nat_of_ascii c with
  | 9%nat | 10%nat | 11%nat | 12%nat | 13%nat | 32%nat | 160%nat => true
  | _ => false
  end.

Fixpoint trimStart (s : string) : string :=
  match s with
  | String c r => if isWhiteSpace c then trimStart r else s
  | EmptyString => s
  end.

Definition digitValue (c : ascii) : option Z :=
  let n := Z.of_nat (nat_of_ascii c) in
  if (48 <=? n) && (n <=? 57) then Some (n - 48) else None.

(** [DecimalDigits]: the digits read so far as an integer, how many were read,
    and the rest of the input. *)
Fixpoint decimalDigits (acc cnt : Z) (s : string) : Z * Z * string :=
  match s with
  | String c r =>
      match digitValue c with
      | Some d => decimalDigits (10 * acc + d) (cnt + 1) r
      | None => (acc, cnt, s)
      end
  | EmptyString => (acc, cnt, s)
  end.

(** [ExponentPart]: [e] or [E], an optional sign and at least one digit;
    otherwise the literal ends before the [e] and the exponent is 0. *)
Definition exponentPart (s : string) : Z :=
  match s with
  | String c r =>
      if (Ascii.eqb c "e" || Ascii.eqb c "E")%bool then
        match r with
        | String "-" r' =>
            let '(e, cnt, _) := decimalDigits 0 0 r' in if 0 <? cnt then - e else 0
        | String "+" r' =>
            let '(e, cnt, _) := decimalDigits 0 0 r' in if 0 <? cnt then e else 0
        | _ =>
            let '(e, cnt, _) := decimalDigits 0 0 r in if 0 <? cnt then e else 0
        end
      else 0
  | EmptyString => 0
  end.

(** The binary64 number nearest to [(-1)^neg * n * 10^k] (ties to even): the
    correctly rounded quotient of two integers, as [SFdiv] computes it. *)
Definition roundDecimal (neg : bool) (n k : Z) : float :=
  match n with
  | Z.pos p =>
      SF2Prim (SFdiv prec emax
                 (S754_finite neg (p * Z.to_pos (10 ^ Z.max k 0)) 0)
                 (S754_finite false (Z.to_pos (10 ^ Z.max (- k) 0)) 0))
  | _ => if neg then PrimFloat.neg_zero else PrimFloat.zero
  end.

Definition strUnsignedDecimalLiteral (neg : bool) (s : string) : float :=
  if prefix "Infinity" s then (if neg then PrimFloat.neg_infinity else PrimFloat.infinity)
  else
    let '(i, icnt, r) := decimalDigits 0 0 s in
    match r with
    | String "." r' =>
        let '(n, fcnt, r'') := decimalDigits i 0 r' in
        if (0 <? icnt) || (0 <? fcnt) then roundDecimal neg n (exponentPart r'' - fcnt)
        else PrimFloat.nan
    | _ => if 0 <? icnt then roundDecimal neg i (exponentPart r) else PrimFloat.nan
    end.

Definition parseFloat (inputString : string) : float :=
  match trimStart inputString with
  | String "-" r => strUnsignedDecimalLiteral true r
  | String "+" r => strUnsignedDecimalLiteral false r
  | s => strUnsignedDecimalLiteral false s
  end.

(** *** [Math.min] on two numbers: [NaN] if either is, and [-0] below [+0]. *)
Definition Math_min (a b : float) : float :=
  if (is_nan a || is_nan b)%bool then PrimFloat.nan
  else if (a <? b)%float then a
  else if (b <? a)%float then b
  else if get_sign a then a else b.

(** *** [Array.prototype.sort] (ECMAScript 23.1.3.30) with a comparator.
    [SortCompare] reads a [NaN] result of the comparator as [+0]. The order of
    the result is fixed by the standard when the comparator is consistent: the
    sort is stable. It is modelled by a stable insertion sort. When the
    comparator is not consistent (for [handleSort], a [NaN] score among
    numeric ones) the standard leaves the order to the engine: the model still
    gives a permutation of the list, in an order that need not be the
    engine's. What is proved of the order is proved for numeric scores. *)
Section Sort.
Context {A : Type}.
Variable comparefn : A -> A -> float.

Definition SortCompare (x y : A) : float :=
  let v := comparefn x y in
  if is_nan v then 0%float else v.

Fixpoint insert (x : A) (l : list A) : list A :=
  match l with
  | [] => [x]
  | y :: r => if (0 <? SortCompare x y)%float then y :: insert x r else x :: l
  end.

Fixpoint sort (l : list A) : list A :=
  match l with
  | [] => []
  | x :: r => insert x (sort r)
  end.

End Sort.

(** *** [String.prototype.substring(start, end)] (ECMAScript 22.1.3.25) on
    integer arguments; [end_] is [None] when the call leaves it out. Both
    positions are clamped to [0, length], and swapped when [start] is the
    larger. *)
Definition substring (S : string) (start : Z) (end_ : option Z) : string :=
  let len := Z.of_nat (String.length S) in
  let intStart := start in
  let intEnd := match end_ with Some e => e | None => len end in
  let finalStart := Z.min (Z.max intStart 0) len in
  let finalEnd := Z.min (Z.max intEnd 0) len in
  let from := Z.min finalStart finalEnd in
  let to := Z.max finalStart finalEnd in
  String.substring (Z.to_nat from) (Z.to_nat (to - from)) S.

(** *** [Number(value)] on a string (ECMAScript 7.1.4.1.1, [StringToNumber]):
    white space is trimmed on both sides, the empty string is [+0], and what
    is left has to be, as a whole, a [StrDecimalLiteral] or a binary, octal or
    hexadecimal integer literal; [NaN] otherwise. *)

Fixpoint trimEnd (s : string) : string :=
  match s with
  | String c r =>
      match trimEnd r with
      | EmptyString => if isWhiteSpace c then EmptyString else String c EmptyString
      | r' => String c r'
      end
  | EmptyString => EmptyString
  end.

(** What follows the [ExponentPart] at the head of [s], which is [s] itself
    when there is none. *)
Definition exponentRest (s : string) : string :=
  match s with
  | String c r =>
      if (Ascii.eqb c "e" || Ascii.eqb c "E")%bool then
        match r with
        | String "-" r' | String "+" r' =>
            let '(_, cnt, r'') := decimalDigits 0 0 r' in if 0 <? cnt then r'' else s
        | _ =>
            let '(_, cnt, r'') := decimalDigits 0 0 r in if 0 <? cnt then r'' else s
        end
      else s
  | EmptyString => s
  end.

(** What follows the longest [StrUnsignedDecimalLiteral] at the head of [s];
    [None] when no prefix of [s] is one. *)
Definition strUnsignedDecimalLiteralRest (s : string) : option string :=
  if prefix "Infinity" s then Some (String.substring 8 (String.length s - 8) s)
  else
    let '(_, icnt, r) := decimalDigits 0 0 s in
    match r with
    | String "." r' =>
        let '(_, fcnt, r'') := decimalDigits 0 0 r' in
        if (0 <? icnt) || (0 <? fcnt) then Some (exponentRest r'') else None
    | _ => if 0 <? icnt then Some (exponentRest r) else None
    end.

Definition radixDigitValue (radix : Z) (c : ascii) : option Z :=
  let n := Z.of_nat (nat_of_ascii c) in
  let d :=
    if (48 <=? n) && (n <=? 57) then n - 48
    else if (97 <=? n) && (n <=? 102) then n - 87
    else if (65 <=? n) && (n <=? 70) then n - 55
    else radix in
  if d <? radix then Some d else None.

Fixpoint radixDigits (radix acc cnt : Z) (s : string) : Z * Z * string :=
  match s with
  | String c r =>
      match radixDigitValue radix c with
      | Some d => radixDigits radix (radix * acc + d) (cnt + 1) r
      | None => (acc, cnt, s)
      end
  | EmptyString => (acc, cnt, s)
  end.

(** [NonDecimalIntegerLiteral]: [0b], [0o] or [0x] in either case, and at
    least one digit of that radix up to the end of the string. *)
Definition nonDecimalIntegerLiteral (s : string) : option float :=
  match s with
  | String "0" (String c r) =>
      let radix :=
        if (Ascii.eqb c "b" || Ascii.eqb c "B")%bool then 2
        else if (Ascii.eqb c "o" || Ascii.eqb c "O")%bool then 8
        else if (Ascii.eqb c "x" || Ascii.eqb c "X")%bool then 16
        else 0 in
      let '(n, cnt, rest) := radixDigits radix 0 0 r in
      match rest with
      | EmptyString => if 0 <? cnt then Some (roundDecimal false n 0) else None
      | _ => None
      end
  | _ => None
  end.

Definition Number (value : string) : float :=
  match trimEnd (trimStart value) with
  | EmptyString => PrimFloat.zero
  | s =>
      match nonDecimalIntegerLiteral s with
      | Some v => v
      | None =>
          let '(neg, body) :=
            match s with
            | String "-" r => (true, r)
            | String "+" r => (false, r)
            | _ => (false, s)
            end in
          match strUnsignedDecimalLiteralRest body with
          | Some EmptyString => strUnsignedDecimalLiteral neg body
          | _ => PrimFloat.nan
          end
      end
  end.

(** *** [Number.prototype.toFixed(fractionDigits)] (ECMAScript 21.1.3.3) *)

(** The digits of the decimal representation of [n], with no leading zero;
    ["0"] for 0. *)
Definition decimalRepresentation (n : Z) : string :=
  DecimalString.NilZero.string_of_uint (N.to_uint (Z.to_N n)).

Fixpoint zeros (k : nat) : string :=
  match k with
  | O => EmptyString
  | S k' => String "0" (zeros k')
  end.

(** The integer [n] for which [n / 10^f - m * 2^e] is as close to zero as
    possible, the larger one when there are two. *)
Definition nearestFixed (m : positive) (e f : Z) : Z :=
  if 0 <=? e then Z.pos m * 2 ^ e * 10 ^ f
  else (2 * (Z.pos m * 10 ^ f) + 2 ^ (- e)) / 2 ^ (1 - e).

(** Steps 11.b and 11.c: the digits of [n] with a point before the last [f]
    of them, after zeros were put in front when there are [f] digits or
    less. *)
Definition fixedNotation (n f : Z) : string :=
  let m := decimalRepresentation n in
  if f =? 0 then m
  else
    let k := Z.of_nat (String.length m) in
    let '(m, k) :=
      if k <=? f then ((zeros (Z.to_nat (f + 1 - k)) ++ m)%string, f + 1) else (m, k) in
    let a := String.substring 0 (Z.to_nat (k - f)) m in
    let b := String.substring (Z.to_nat (k - f)) (Z.to_nat f) m in
    (a ++ "." ++ b)%string.

Section ToFixed.
(** [Number::toString] on the numbers from [10^21] on, which are written in
    exponent notation: the standard leaves the last digit to the host. *)
Variable Number_toString : float -> string.

(** [toFixed] from step 6 on, for [fractionDigits] within 0..100; the call
    throws a [RangeError] for any other. *)
Definition toFixed (x : float) (fractionDigits : Z) : string :=
  match Prim2SF x with
  | S754_nan => "NaN"
  | S754_infinity false => "Infinity"
  | S754_infinity true => "-Infinity"
  | S754_zero _ => fixedNotation 0 fractionDigits
  | S754_finite sign m e =>
      let s := if sign then "-" else "" in
      if (1e21 <=? abs x)%float then (s ++ Number_toString (abs x))%string
      else (s ++ fixedNotation (nearestFixed m e fractionDigits) fractionDigits)%string
  end%string.

End ToFixed.

End JS.

Import JS.
Local Open Scope string_scope.

(** ** The data of App.js *)

(** A JSON value read where the code expects a string ([tx.severity] may be
    missing or of another type). *)
Inductive JsValue :=
  | JsUndefined
  | JsNull
  | JsBoolean (b : bool)
  | JsNumber (n : float)
  | JsString (s : string).

(** One element of [data.transactions], with the fields App.js reads, typed as
    the service sends them: strings, a boolean flag, and a severity that may
    be anything. *)
Record Transaction := {
  timestamp : string;
  transaction_hash : string;
  from_address : string;
  to_address : string;
  value_eth : string;
  anomaly_percentage : string;
  is_anomaly : bool;
  severity : JsValue
}.

(** The body of the response; [transactions] is [None] when the key is missing. *)
Record Response := {
  total_transactions : Z;
  transactions : option (list Transaction)
}.

(** ** [getSeverityClass] *)

Definition getSeverityClass (severity : JsValue) (isDark : bool) : string :=
  match severity with
  | JsString s =>
      if s =? "HIGH" then (if isDark then "text-red-400" else "text-red-600")
      else if s =? "MEDIUM-HIGH" then (if isDark then "text-orange-400" else "text-orange-500")
      else if s =? "MEDIUM" then (if isDark then "text-yellow-400" else "text-yellow-500")
      else if s =? "LOW-MEDIUM" then (if isDark then "text-blue-400" else "text-blue-400")
      else if s =? "LOW" then (if isDark then "text-blue-400" else "text-blue-500")
      else if s =? "VERY-LOW" then (if isDark then "text-green-400" else "text-green-500")
      else (if isDark then "text-gray-400" else "text-gray-500")
  | _ => if isDark then "text-gray-400" else "text-gray-500"
  end.

(** ** [HyperSphereVisualization] *)

Module Point.
Record t := { x : float; y : float; score : float; isAnomaly : bool }.
End Point.

Local Open Scope float_scope.

Definition width : float := 400.
Definition height : float := 400.
Definition radius : float := Math_min width height / 2 - 40.
(** [0.6] in App.js is the binary64 number [0x1.3333333333333p-1]. *)
Definition innerRadius : float := radius * 0x1.3333333333333p-1.

(** The local [distance] of the callback of [data.transactions.map];
    [0.9] is the binary64 number [0x1.ccccccccccccdp-1]. *)
Definition distance (tx : Transaction) : float :=
  let score := parseFloat (anomaly_percentage tx) in
  if is_anomaly tx then
    innerRadius + (score / 100) * (radius - innerRadius)
  else
    (score / 100) * innerRadius * 0x1.ccccccccccccdp-1.

Section Projector.
(** [Math.cos], [Math.sin] and [Math.PI] are left to the host; [Math_random i]
    is the number the [i]-th call of [Math.random()] of a render returns. *)
Variables Math_cos Math_sin : float -> float.
Variable Math_PI : float.
Variable Math_random : nat -> float.

Definition toPoint (draw : nat) (tx : Transaction) : Point.t :=
  let score := parseFloat (anomaly_percentage tx) in
  let angle := Math_random draw * 2 * Math_PI in
  let distance := distance tx in
  {| Point.x := Math_cos angle * distance;
     Point.y := Math_sin angle * distance;
     Point.score := score;
     Point.isAnomaly := is_anomaly tx |}.

(** [data.transactions.map(tx => ...)], the calls of [Math.random] numbered
    from [draw] on. *)
Fixpoint mapPoints (draw : nat) (txs : list Transaction) : list Point.t :=
  match txs with
  | [] => []
  | tx :: rest => toPoint draw tx :: mapPoints (S draw) rest
  end.

Definition points (txs : list Transaction) : list Point.t := mapPoints 0 txs.

(** The effect of the component on the circles drawn in its SVG element:
    nothing changes when [data?.transactions] is falsy (the early return), and
    otherwise the old circles are removed and one is drawn per point. A circle
    is identified with its point: its colour, which [darkMode] and [isAnomaly]
    decide, and the tooltip shown on hover are not part of the model. *)
Definition HyperSphereVisualization
    (data : option Response) (darkMode : bool) (svg : list Point.t) : list Point.t :=
  match data with
  | Some d =>
      match transactions d with
      | Some txs => points txs
      | None => svg
      end
  | None => svg
  end.

End Projector.

Local Close Scope float_scope.

(** ** The state of [App] and its handlers *)

Inductive SortOrder := desc | asc.

Record AppState := {
  data : option Response;
  loading : bool;
  error : option string;
  darkMode : bool;
  sortOrder : SortOrder
}.

(** The [useState] initial values. *)
Definition initialState : AppState :=
  {| data := None; loading := true; error := None; darkMode := false; sortOrder := desc |}.

(** What a call of [fetchData] does besides setting state. *)
Inductive Effect :=
  | HttpGet (url : string)
  | ConsoleError
  | SetInterval (milliseconds : Z)
  | ClearInterval.

(** How the promise of [axios.get] settles: fulfilled with a response whose
    [data] is the body, or rejected (network error, or a status outside 2xx). *)
Inductive FetchOutcome :=
  | Fulfilled (body : option Response)
  | Rejected.

(** [fetchData] up to its [await]: [setLoading(true)] and the request. *)
Definition fetchData_start (s : AppState) : AppState * list Effect :=
  ({| data := data s; loading := true; error := error s;
      darkMode := darkMode s; sortOrder := sortOrder s |},
   [HttpGet "http://8.215.199.5:5000/detect_anomaly"]).

(** [fetchData] after the [await]: the [try] body, or [catch], then [finally]. *)
Definition fetchData_settle (o : FetchOutcome) (s : AppState) : AppState * list Effect :=
  match o with
  | Fulfilled body =>
      ({| data := body; loading := false; error := None;
          darkMode := darkMode s; sortOrder := sortOrder s |}, [])
  | Rejected =>
      ({| data := data s; loading := false;
          error := Some "Error fetching data, please refresh the page";
          darkMode := darkMode s; sortOrder := sortOrder s |}, [ConsoleError])
  end.

(** One whole call of [fetchData], given how its request settles. *)
Definition fetchData (o : FetchOutcome) (s : AppState) : AppState * list Effect :=
  let '(s1, fx1) := fetchData_start s in
  let '(s2, fx2) := fetchData_settle o s1 in
  (s2, (fx1 ++ fx2)%list).

(** The effect of [App] on mount: a first [fetchData], dark mode when the system
    prefers it, and the timer that calls [fetchData] every five minutes; its
    cleanup clears the timer. *)
Definition mount (prefersDark : bool) (s : AppState) : AppState * list Effect :=
  let '(s1, fx) := fetchData_start s in
  ({| data := data s1; loading := loading s1; error := error s1;
      darkMode := if prefersDark then true else darkMode s1;
      sortOrder := sortOrder s1 |},
   (fx ++ [SetInterval 300000])%list).

Definition unmount : list Effect := [ClearInterval].

(** The comparator of [handleSort]. *)
Definition compareScores (order : SortOrder) (a b : Transaction) : float :=
  let scoreA := parseFloat (anomaly_percentage a) in
  let scoreB := parseFloat (anomaly_percentage b) in
  match order with
  | desc => (scoreB - scoreA)%float
  | asc => (scoreA - scoreB)%float
  end.

Definition handleSort (s : AppState) : AppState :=
  match data s with
  | Some d =>
      match transactions d with
      | Some txs =>
          let sortedTransactions := sort (compareScores (sortOrder s)) txs in
          {| data := Some {| total_transactions := total_transactions d;
                             transactions := Some sortedTransactions |};
             loading := loading s; error := error s; darkMode := darkMode s;
             sortOrder := match sortOrder s with desc => asc | asc => desc end |}
      | None => s
      end
  | None => s
  end.

(** ** What [App] renders *)

(** A row of the table: its React key, the record whose fields fill the cells,
    the class of the score cell and the text of the status badge. *)
Record Row := {
  key : nat;
  cells : Transaction;
  scoreClass : string;
  status : string
}.

Fixpoint mapRows (txIndex : nat) (darkMode : bool) (txs : list Transaction) : list Row :=
  match txs with
  | [] => []
  | tx :: rest =>
      {| key := txIndex; cells := tx;
         scoreClass := getSeverityClass (severity tx) darkMode;
         status := if is_anomaly tx then "Anomaly" else "Normal" |}
      :: mapRows (S txIndex) darkMode rest
  end.

(** [data?.transactions?.map(...)]: no row when the list is absent. *)
Definition tableRows (data : option Response) (darkMode : bool) : list Row :=
  match data with
  | Some d =>
      match transactions d with
      | Some txs => mapRows 0 darkMode txs
      | None => []
      end
  | None => []
  end.

(** [data?.total_transactions || 0] *)
Definition totalShown (data : option Response) : Z :=
  match data with
  | Some d => total_transactions d
  | None => 0
  end.

(** [data?.transactions?.filter(tx => tx.is_anomaly).length || 0] *)
Definition anomaliesShown (data : option Response) : nat :=
  match data with
  | Some d =>
      match transactions d with
      | Some txs => List.length (filter is_anomaly txs)
      | None => 0%nat
      end
  | None => 0%nat
  end.

Inductive View :=
  | Spinner
  | ErrorMessage (text : string)
  | Dashboard (total : Z) (anomalies : nat) (circles : list Point.t)
      (rows : list Row) (sortArrow : SortOrder).

(** What happens to a mounted [App]. *)
Inductive Event :=
  | IntervalElapsed
  | RequestSettled (o : FetchOutcome)
  | SortClicked
  | ThemeClicked.

Definition step (e : Event) (s : AppState) : AppState * list Effect :=
  match e with
  | IntervalElapsed => fetchData_start s
  | RequestSettled o => fetchData_settle o s
  | SortClicked => (handleSort s, [])
  | ThemeClicked =>
      ({| data := data s; loading := loading s; error := error s;
          darkMode := negb (darkMode s); sortOrder := sortOrder s |}, [])
  end.

Section Render.
Variables Math_cos Math_sin : float -> float.
Variable Math_PI : float.
Variable Math_random : nat -> float.

(** The main view. The visualization is mounted with an empty SVG element
    whenever the dashboard replaces the spinner or the error message. *)
Definition dashboard (s : AppState) : View :=
  Dashboard (totalShown (data s)) (anomaliesShown (data s))
    (HyperSphereVisualization Math_cos Math_sin Math_PI Math_random
       (data s) (darkMode s) [])
    (tableRows (data s) (darkMode s)) (sortOrder s).

(** The three returns of [App]; a string is truthy when it is not empty. *)
Definition App (s : AppState) : View :=
  if loading s then Spinner
  else
    match error s with
    | Some text =>
        if negb (text =? "") then ErrorMessage text else dashboard s
    | None => dashboard s
    end.

End Render.

(** ** The circles of [HyperSphereVisualization] and their hover handlers *)

Module Circle.
Record t := {
  cx : float; cy : float; r : float; fill : string; opacity : float;
  datum : Point.t
}.
End Circle.

Module Tooltip.
Record t := { x : float; y : float; fill : string; text : string }.
End Tooltip.

(** What the effect leaves in the SVG element: its size, the group [g]
    translated to its centre, the boundary circle (its radius and stroke),
    the circles of class [point], each with the point bound to it, and the
    [text] elements of class [tooltip], in the order they were appended.
    [dark] is the [darkMode] that the handlers of the circles closed over. *)
Record Drawing := {
  dark : bool;
  svgWidth : float;
  svgHeight : float;
  translate : float * float;
  boundary : float * string;
  circles : list Circle.t;
  tooltips : list Tooltip.t
}.

Local Open Scope float_scope.

(** [0.7] in App.js is the binary64 number [0x1.6666666666666p-1]. *)
Definition appendCircle (darkMode : bool) (d : Point.t) : Circle.t :=
  {| Circle.cx := Point.x d;
     Circle.cy := Point.y d;
     Circle.r := 5;
     Circle.fill :=
       if Point.isAnomaly d then (if darkMode then "#EF4444" else "#DC2626")
       else (if darkMode then "#10B981" else "#059669");
     Circle.opacity := 0x1.6666666666666p-1;
     Circle.datum := d |}.

(** The effect past its early return, on the points it computed: the old
    content is removed, and
    [g.selectAll("circle.point").data(points).enter().append("circle")] on the
    new group, which has no such circle yet, appends one circle per point. *)
Definition draw (darkMode : bool) (points : list Point.t) : Drawing :=
  {| dark := darkMode;
     svgWidth := width;
     svgHeight := height;
     translate := (width / 2, height / 2);
     boundary := (innerRadius, if darkMode then "#4B5563" else "#E5E7EB");
     circles := map (appendCircle darkMode) points;
     tooltips := [] |}.

(** [d3.select(this).attr(...)] on the [i]-th circle. *)
Fixpoint selectThis (i : nat) (attr : Circle.t -> Circle.t) (l : list Circle.t)
    {struct l} : list Circle.t :=
  match l with
  | [] => []
  | c :: rest =>
      match i with
      | O => attr c :: rest
      | S i' => c :: selectThis i' attr rest
      end
  end.

Section Hover.
Variable Number_toString : float -> string.

(** The [mouseover] handler of the [i]-th circle. *)
Definition mouseover (i : nat) (g : Drawing) : Drawing :=
  match nth_error (circles g) i with
  | Some this =>
      let d := Circle.datum this in
      {| dark := dark g;
         svgWidth := svgWidth g;
         svgHeight := svgHeight g;
         translate := translate g;
         boundary := boundary g;
         circles :=
           selectThis i
             (fun c => {| Circle.cx := Circle.cx c; Circle.cy := Circle.cy c;
                          Circle.r := 8; Circle.fill := Circle.fill c;
                          Circle.opacity := 1; Circle.datum := Circle.datum c |})
             (circles g);
         tooltips :=
           tooltips g ++
           [{| Tooltip.x := Point.x d + 10;
               Tooltip.y := Point.y d - 10;
               Tooltip.fill := if dark g then "#E5E7EB" else "#1F2937";
               Tooltip.text := "Score: " ++ toFixed Number_toString (Point.score d) 2 |}] |}
  | None => g
  end.

(** The [mouseout] handler of the [i]-th circle: [g.selectAll(".tooltip")]
    removes every tooltip. *)
Definition mouseout (i : nat) (g : Drawing) : Drawing :=
  match nth_error (circles g) i with
  | Some this =>
      {| dark := dark g;
         svgWidth := svgWidth g;
         svgHeight := svgHeight g;
         translate := translate g;
         boundary := boundary g;
         circles :=
           selectThis i
             (fun c => {| Circle.cx := Circle.cx c; Circle.cy := Circle.cy c;
                          Circle.r := 5; Circle.fill := Circle.fill c;
                          Circle.opacity := 0x1.6666666666666p-1;
                          Circle.datum := Circle.datum c |})
             (circles g);
         tooltips := [] |}
  | None => g
  end.

End Hover.

Local Close Scope float_scope.

(** ** The cells of a table row *)

Module Link.
Record t := { href : string; title : string; text : string }.
End Link.

(** [{s.substring(0, head)}...{s.substring(s.length - tail)}]: the text of the
    link of a hash (8 and 6) or of an address (6 and 4). *)
Definition shorten (head tail : Z) (s : string) : string :=
  substring s 0 (Some head) ++ "..." ++
  substring s (Z.of_nat (String.length s) - tail) None.

(** What a row shows, cell by cell; the classes that depend on the theme alone
    are left out. *)
Record Cells := {
  timestampCell : string;
  hashCell : Link.t;
  fromCell : Link.t;
  toCell : Link.t;
  valueCell : string;
  scoreCell : string;
  scoreCellClass : string;
  statusCell : string;
  statusCellClass : string
}.

Section Cells.
Variable Number_toString : float -> string.

Definition rowCells (darkMode : bool) (tx : Transaction) : Cells :=
  {| timestampCell := timestamp tx;
     hashCell :=
       {| Link.href := "https://etherscan.io/tx/" ++ transaction_hash tx;
          Link.title := transaction_hash tx;
          Link.text := shorten 8 6 (transaction_hash tx) |};
     fromCell :=
       {| Link.href := "https://etherscan.io/address/" ++ from_address tx;
          Link.title := from_address tx;
          Link.text := shorten 6 4 (from_address tx) |};
     toCell :=
       {| Link.href := "https://etherscan.io/address/" ++ to_address tx;
          Link.title := to_address tx;
          Link.text := shorten 6 4 (to_address tx) |};
     valueCell := toFixed Number_toString (Number (value_eth tx)) 6;
     scoreCell := anomaly_percentage tx;
     scoreCellClass := "p-2 text-sm text-center " ++ getSeverityClass (severity tx) darkMode;
     statusCell := if is_anomaly tx then "Anomaly" else "Normal";
     statusCellClass :=
       "px-2 py-1 rounded-full text-xs " ++
       (if is_anomaly tx
        then (if darkMode then "bg-red-900/50 text-red-300" else "bg-red-100 text-red-800")
        else (if darkMode then "bg-green-900/50 text-green-300"
              else "bg-green-100 text-green-800")) |}.

End Cells.

(** * Part II: definitions for the properties *)

(** ** Sample records *)

Definition sampleRecord (percentage : string) (anomalous : bool) : Transaction :=
  {| timestamp := "2024-01-01 00:00:00";
     transaction_hash := "0x0123456789abcdef";
     from_address := "0x00000000000000aa";
     to_address := "0x00000000000000bb";
     value_eth := "1.5";
     anomaly_percentage := percentage;
     is_anomaly := anomalous;
     severity := JsString "LOW" |}.

Definition anomaly90 : Transaction := sampleRecord "90" true.
Definition normal10 : Transaction := sampleRecord "10" false.
Definition anomaly10 : Transaction := sampleRecord "10" true.
Definition normal150 : Transaction := sampleRecord "150" false.
Definition normalMinus50 : Transaction := sampleRecord "-50" false.

Definition missingTransactions : Response :=
  {| total_transactions := 0; transactions := None |}.

Definition nonNumericScore : Response :=
  {| total_transactions := 1; transactions := Some [sampleRecord "abc" true] |}.

Definition tableOf (percentages : list string) : AppState :=
  {| data := Some {| total_transactions := Z.of_nat (List.length percentages);
                     transactions := Some (map (fun p => sampleRecord p false) percentages) |};
     loading := false; error := None; darkMode := false; sortOrder := desc |}.

(** ** The severity table of the specification *)

Inductive ColorTag :=
  | red_strong | red_muted
  | orange_strong | orange_muted
  | yellow_strong | yellow_muted
  | blue_weak | blue_strong | blue_muted
  | green_strong | green_muted
  | gray_strong | gray_muted.

(** The class name that stands for each tag of the table. *)
Definition tagClass (t : ColorTag) : string :=
  match t with
  | red_strong => "text-red-600" | red_muted => "text-red-400"
  | orange_strong => "text-orange-500" | orange_muted => "text-orange-400"
  | yellow_strong => "text-yellow-500" | yellow_muted => "text-yellow-400"
  | blue_weak => "text-blue-400" | blue_strong => "text-blue-500"
  | blue_muted => "text-blue-400"
  | green_strong => "text-green-500" | green_muted => "text-green-400"
  | gray_strong => "text-gray-500" | gray_muted => "text-gray-400"
  end.

(** The rows of the table: severity, light-theme tag, dark-theme tag. *)
Definition severityTable : list (string * (ColorTag * ColorTag)) :=
  [ ("HIGH", (red_strong, red_muted));
    ("MEDIUM-HIGH", (orange_strong, orange_muted));
    ("MEDIUM", (yellow_strong, yellow_muted));
    ("LOW-MEDIUM", (blue_weak, blue_muted));
    ("LOW", (blue_strong, blue_muted));
    ("VERY-LOW", (green_strong, green_muted)) ].

(** [classify] as the specification words it: the row of the severity, or the
    gray default for anything else. *)
Definition classify (severity : JsValue) (isDark : bool) : ColorTag :=
  match severity with
  | JsString s =>
      match find (fun row => s =? fst row) severityTable with
      | Some (_, (light, dark)) => if isDark then dark else light
      | None => if isDark then gray_muted else gray_strong
      end
  | _ => if isDark then gray_muted else gray_strong
  end.

(** ** The two branches of [distance], and the order of the table *)

Definition anomalyDistance (score : float) : float :=
  (innerRadius + (score / 100) * (radius - innerRadius))%float.

Definition normalDistance (score : float) : float :=
  ((score / 100) * innerRadius * 0x1.ccccccccccccdp-1)%float.

Definition scoreOf (tx : Transaction) : float := parseFloat (anomaly_percentage tx).

(** The parsed score is a number, not [NaN]. *)
Definition numeric (tx : Transaction) : Prop := is_nan (scoreOf tx) = false.

Definition descending (txs : list Transaction) : Prop :=
  StronglySorted (fun a b => (scoreOf b <=? scoreOf a)%float = true) txs.

Definition ascending (txs : list Transaction) : Prop :=
  StronglySorted (fun a b => (scoreOf a <=? scoreOf b)%float = true) txs.

Definition anyUrl (e : Effect) : bool :=
  match e with
  | HttpGet _ => true
  | _ => false
  end.

(** ** Sorting, runs and records *)

(** [data?.transactions] *)
Definition recordsOf (response : option Response) : option (list Transaction) :=
  match response with
  | Some d => transactions d
  | None => None
  end.

(** The records whose parsed score equals [k]. *)
Definition sameScore (k : float) (tx : Transaction) : bool := (scoreOf tx =? k)%float.

Definition opposite (o : SortOrder) : SortOrder := match o with desc => asc | asc => desc end.

Definition url : string := "http://8.215.199.5:5000/detect_anomaly".

Definition isTick (e : Event) : bool :=
  match e with IntervalElapsed => true | _ => false end.

Definition isRejected (e : Event) : bool :=
  match e with RequestSettled Rejected => true | _ => false end.

Definition isFulfilled (e : Event) : bool :=
  match e with RequestSettled (Fulfilled _) => true | _ => false end.

Definition isClick (e : Event) : bool :=
  match e with SortClicked | ThemeClicked => true | _ => false end.

Definition isSort (e : Event) : bool :=
  match e with SortClicked => true | _ => false end.

Definition isConsoleError (fx : Effect) : bool :=
  match fx with ConsoleError => true | _ => false end.

Definition isTimer (fx : Effect) : bool :=
  match fx with SetInterval _ | ClearInterval => true | _ => false end.

(** The events of a mounted [App], one after the other, and their effects. *)
Fixpoint run (events : list Event) (s : AppState) : AppState * list Effect :=
  match events with
  | [] => (s, [])
  | e :: rest =>
      let '(s1, fx1) := step e s in
      let '(s2, fx2) := run rest s1 in
      (s2, (fx1 ++ fx2)%list)
  end.

(** The effects of a whole life of the component: mount, events, unmount. *)
Definition lifetime (prefersDark : bool) (events : list Event) : list Effect :=
  let '(s, fx) := mount prefersDark initialState in
  (fx ++ snd (run events s) ++ unmount)%list.

(** Two responses show the same records: the same total and the same
    records, in any order. *)
Definition sameRecords (a b : option Response) : Prop :=
  totalShown a = totalShown b /\
  match recordsOf a, recordsOf b with
  | Some l, Some l' => Permutation l l'
  | None, None => True
  | _, _ => False
  end.

(** ** Pointer events on the circles *)

Inductive Hover :=
  | Over (i : nat)
  | Out (i : nat).

Section Pointer.
Variable Number_toString : float -> string.

(** The pointer events on the circles, in the order they fire. *)
Fixpoint hover (events : list Hover) (g : Drawing) : Drawing :=
  match events with
  | [] => g
  | Over i :: rest => hover rest (mouseover Number_toString i g)
  | Out i :: rest => hover rest (mouseout i g)
  end.

(** The tooltip that [mouseover] appends for the point [d]. *)
Definition tooltipOf (darkMode : bool) (d : Point.t) : Tooltip.t :=
  {| Tooltip.x := (Point.x d + 10)%float;
     Tooltip.y := (Point.y d - 10)%float;
     Tooltip.fill := if darkMode then "#E5E7EB" else "#1F2937";
     Tooltip.text := "Score: " ++ toFixed Number_toString (Point.score d) 2 |}.

(** The tooltips of the points of indices [l]. *)
Definition tooltipsOf (darkMode : bool) (points : list Point.t) (l : list nat) :
    list Tooltip.t :=
  flat_map (fun i => match nth_error points i with
                     | Some d => [tooltipOf darkMode d]
                     | None => []
                     end) l.

End Pointer.

(** The points entered since the last [mouseout], oldest first. *)
Fixpoint entered (acc : list nat) (events : list Hover) : list nat :=
  match events with
  | [] => acc
  | Over i :: rest => entered (acc ++ [i]) rest
  | Out _ :: rest => entered [] rest
  end.

Definition inRange (n : nat) (e : Hover) : bool :=
  match e with Over i | Out i => (i <? n)%nat end.

(** A circle as it was drawn, or enlarged by [mouseover]. *)
Definition atRest (c : Circle.t) : Prop :=
  Circle.r c = 5%float /\ Circle.opacity c = 0x1.6666666666666p-1%float.

Definition enlarged (c : Circle.t) : Prop :=
  Circle.r c = 8%float /\ Circle.opacity c = 1%float.

(** What no handler changes. *)
Definition placed (c : Circle.t) : float * float * string * Point.t :=
  (Circle.cx c, Circle.cy c, Circle.fill c, Circle.datum c).

(** ** Digits and literals *)

(** The number that the digits of [s] denote, after the digits that gave
    [acc]. *)
Fixpoint digitsValue (acc : Z) (s : string) : Z :=
  match s with
  | String c r =>
      match digitValue c with
      | Some d => digitsValue (10 * acc + d) r
      | None => acc
      end
  | EmptyString => acc
  end.

Fixpoint allDigits (s : string) : bool :=
  match s with
  | String c r =>
      match digitValue c with
      | Some _ => allDigits r
      | None => false
      end
  | EmptyString => true
  end.

(** [s] does not go on with a digit. *)
Definition noDigitAhead (s : string) : bool :=
  match s with
  | String c _ =>
      match digitValue c with
      | Some _ => false
      | None => true
      end
  | EmptyString => true
  end.

(** The number that the digits of [d] denote, after the digits that gave
    [acc]: the digits that [decimalRepresentation] writes. *)
Fixpoint uintValue (acc : Z) (d : Decimal.uint) : Z :=
  match d with
  | Decimal.Nil => acc
  | Decimal.D0 l => uintValue (10 * acc + 0) l
  | Decimal.D1 l => uintValue (10 * acc + 1) l
  | Decimal.D2 l => uintValue (10 * acc + 2) l
  | Decimal.D3 l => uintValue (10 * acc + 3) l
  | Decimal.D4 l => uintValue (10 * acc + 4) l
  | Decimal.D5 l => uintValue (10 * acc + 5) l
  | Decimal.D6 l => uintValue (10 * acc + 6) l
  | Decimal.D7 l => uintValue (10 * acc + 7) l
  | Decimal.D8 l => uintValue (10 * acc + 8) l
  | Decimal.D9 l => uintValue (10 * acc + 9) l
  end.

Fixpoint noWhiteSpace (s : string) : bool :=
  match s with
  | String c r => negb (isWhiteSpace c) && noWhiteSpace r
  | EmptyString => true
  end.

Fixpoint allWhiteSpace (s : string) : bool :=
  match s with
  | String c r => isWhiteSpace c && allWhiteSpace r
  | EmptyString => true
  end.

(** [w] cannot continue a decimal literal: it does not start with a digit, a
    point or an exponent mark. *)
Definition noLiteralAhead (w : string) : bool :=
  match w with
  | String c _ =>
      match digitValue c with
      | Some _ => false
      | None => negb (Ascii.eqb c "." || Ascii.eqb c "e" || Ascii.eqb c "E")
      end
  | EmptyString => true
  end.

(** What [strUnsignedDecimalLiteral] and [strUnsignedDecimalLiteralRest] do
    after the digits of the integer part. *)
Definition afterInteger (neg : bool) (i icnt : Z) (r : string) : float :=
  match r with
  | String "." r' =>
      let '(n, fcnt, r'') := decimalDigits i 0 r' in
      if ((0 <? icnt) || (0 <? fcnt))%Z then roundDecimal neg n (exponentPart r'' - fcnt)
      else PrimFloat.nan
  | _ => if (0 <? icnt)%Z then roundDecimal neg i (exponentPart r) else PrimFloat.nan
  end.

Definition restAfterInteger (icnt : Z) (r : string) : option string :=
  match r with
  | String "." r' =>
      let '(_, fcnt, r'') := decimalDigits 0 0 r' in
      if ((0 <? icnt) || (0 <? fcnt))%Z then Some (exponentRest r'') else None
  | _ => if (0 <? icnt)%Z then Some (exponentRest r) else None
  end.

(** A record with short identifiers, a value with six decimals and a score
    with two. *)
(** Part II: samples *)
Definition shortRecord : Transaction :=
  {| timestamp := "2024-01-01 00:00:00";
     transaction_hash := "0xabc";
     from_address := "0x1";
     to_address := "";
     value_eth := "1.500000";
     anomaly_percentage := "12.34";
     is_anomaly := true;
     severity := JsString "HIGH" |}.

(** A record whose [value_eth] is blank: a no-break space and a space. *)
Definition blankValue : Transaction :=
  {| timestamp := "2024-01-01 00:00:00";
     transaction_hash := "0xabc";
     from_address := "0x1";
     to_address := "0x2";
     value_eth := String "160" " ";
     anomaly_percentage := "12.34";
     is_anomaly := false;
     severity := JsString "LOW" |}.

Local Close Scope string_scope.

(** ** The real numbers that binary64 numbers stand for *)

(** [2^e] for an integer exponent. *)
Definition bpow (e : Z) : R := powerRZ 2 e.

(** Where the real [x] lies between the integers [m] and [m + 1]: on [m], below
    the middle, on it, or above it. *)
Definition inbetween (m : Z) (l : location) (x : R) : Prop :=
  match l with
  | loc_Exact => x = IZR m
  | loc_Inexact Lt => (IZR m < x < IZR m + / 2)%R
  | loc_Inexact Eq => x = (IZR m + / 2)%R
  | loc_Inexact Gt => (IZR m + / 2 < x < IZR m + 1)%R
  end.

(** [n] is the integer nearest to [x], the even one when [x] is half-way
    between two integers. *)
Definition nearest_even (x : R) (n : Z) : Prop :=
  (IZR n - / 2 <= x <= IZR n + / 2)%R /\
  ((x = IZR n - / 2 \/ x = IZR n + / 2)%R -> Z.even n = true).

(** The sign bit as a factor. *)
Definition sgn (s : bool) : R := if s then (-1)%R else 1%R.

(** Zeros and finite numbers. *)
Definition is_fin (x : spec_float) : bool :=
  match x with
  | S754_zero _ | S754_finite _ _ _ => true
  | _ => false
  end.

(** Everything but [NaN]. *)
Definition is_num (x : spec_float) : bool :=
  match x with
  | S754_nan => false
  | _ => true
  end.

(** The three-way comparison of two reals, as a relation. *)
Inductive Rcmp (a b : R) : comparison -> Prop :=
  | Rcmp_Lt : (a < b)%R -> Rcmp a b Lt
  | Rcmp_Eq : a = b -> Rcmp a b Eq
  | Rcmp_Gt : (b < a)%R -> Rcmp a b Gt.

(** [e] is the exponent of the last place of the positive real [v] in the
    format of precision [prec] whose least exponent is [emin prec emax]. *)
Definition cexp_of (prec emax : Z) (v : R) (e : Z) : Prop :=
  (v < bpow (e + prec))%R /\
  (e = SpecFloat.emin prec emax \/
   (SpecFloat.emin prec emax < e /\ (bpow (e + prec - 1) <= v)%R)).

(** [r] is [v] rounded to nearest, ties to even, exponents unbounded above. *)
Definition rnd_pos (prec emax : Z) (v r : R) : Prop :=
  exists e n,
    cexp_of prec emax v e /\ nearest_even (v / bpow e) n /\ r = (IZR n * bpow e)%R.

(** The real value of a float; an infinity is sent to [2^emax], which is
    above every finite value, so that the order on floats is the order on
    these reals. *)
Definition SF2X (emax : Z) (x : spec_float) : R :=
  match x with
  | S754_zero _ => 0%R
  | S754_nan => 0%R
  | S754_infinity s => (sgn s * bpow emax)%R
  | S754_finite s m e => (sgn s * (IZR (Z.pos m) * bpow e))%R
  end.

(** [r] is the float value the real [v] rounds to: nearest, ties to even, and
    [2^emax] (an infinity) from the overflow threshold on. *)
Definition rounds_to (prec emax : Z) (v r : R) : Prop :=
  (v = 0 /\ r = 0)%R \/
  ((0 < v)%R /\ exists r0, rnd_pos prec emax v r0 /\ r = Rmin r0 (bpow emax)) \/
  ((v < 0)%R /\
   exists r0, rnd_pos prec emax (- v) r0 /\ r = (- Rmin r0 (bpow emax))%R).

(** The real value of a number ([2^1024] for [Infinity], 0 for [NaN]). *)
Definition F2R (x : float) : R := SF2X emax (Prim2SF x).

(** [num x]: [x] is not [NaN]; [fin x]: [x] is neither [NaN] nor infinite. *)
Definition num (x : float) : Prop := is_num (Prim2SF x) = true.
Definition fin (x : float) : Prop := is_fin (Prim2SF x) = true.

(** Rounding to binary64. *)
Definition rounds (v r : R) : Prop := rounds_to prec emax v r.

(** [F] keeps numbers numbers and keeps their order. *)
Definition monotone (F : float -> float) : Prop :=
  forall x y, num x -> num y -> (F2R x <= F2R y)%R ->
    num (F x) /\ num (F y) /\ (F2R (F x) <= F2R (F y))%R.

(** A real that the format can hold: zero, or plus or minus a canonical
    mantissa and exponent. *)
Definition representable (prec emax : Z) (X : R) : Prop :=
  X = 0%R \/
  exists s m e, bounded prec emax m e = true /\ X = (sgn s * (IZR (Z.pos m) * bpow e))%R.

(** * Part III: binary64 arithmetic *)

(** ** Powers of two as real numbers *)

Lemma bpow_gt_0 e : (0 < bpow e)%R.
Proof. apply powerRZ_lt; lra. Qed.

Lemma bpow_add a b : bpow (a + b) = (bpow a * bpow b)%R.
Proof. apply powerRZ_add; lra. Qed.

Lemma bpow_1 : bpow 1 = 2%R.
Proof. unfold bpow; simpl; lra. Qed.

Lemma bpow_opp e : bpow (- e) = (/ bpow e)%R.
Proof. apply powerRZ_neg'. Qed.

Lemma bpow_IZR n : 0 <= n -> bpow n = IZR (2 ^ n).
Proof.
  intros Hn. unfold bpow.
  rewrite <- (Z2Nat.id n Hn) at 1.
  rewrite <- pow_powerRZ, pow_IZR, Z2Nat.id by assumption.
  reflexivity.
Qed.

Lemma bpow_ge_1 n : 0 <= n -> (1 <= bpow n)%R.
Proof.
  intros Hn. rewrite bpow_IZR by assumption.
  apply IZR_le. assert (0 < 2 ^ n) by (apply Z.pow_pos_nonneg; lia). lia.
Qed.

Lemma bpow_le a b : a <= b -> (bpow a <= bpow b)%R.
Proof.
  intros H. replace b with (a + (b - a)) by ring.
  rewrite bpow_add.
  pose proof (bpow_gt_0 a). pose proof (bpow_ge_1 (b - a) ltac:(lia)).
  nra.
Qed.

Lemma bpow_lt_inv a b : (bpow a < bpow b)%R -> a < b.
Proof.
  intros H. destruct (Z_lt_le_dec a b) as [L|L]; [assumption|].
  apply bpow_le in L. lra.
Qed.

(** ** Binary digits *)

Lemma digits2_pos_size p : digits2_pos p = Pos.size p.
Proof. induction p; simpl; congruence. Qed.

Lemma Zdigits2_bounds m :
  0 < m -> 2 ^ (Zdigits2 m - 1) <= m < 2 ^ Zdigits2 m.
Proof.
  destruct m as [|p|p]; try lia. intros _.
  unfold Zdigits2. rewrite digits2_pos_size.
  pose proof (Pos.size_gt p) as Hgt. pose proof (Pos.size_le p) as Hle.
  split.
  - assert (E : 2 ^ Z.pos (Pos.size p) = 2 * 2 ^ (Z.pos (Pos.size p) - 1)).
    { rewrite <- Z.pow_succ_r by lia. f_equal. lia. }
    assert (2 ^ Z.pos (Pos.size p) <= Z.pos p~0).
    { rewrite <- Pos2Z.inj_pow. apply Pos2Z.pos_le_pos. exact Hle. }
    lia.
  - rewrite <- Pos2Z.inj_pow. apply Pos2Z.pos_lt_pos. exact Hgt.
Qed.

Lemma Zdigits2_pos m : 0 < m -> 0 < Zdigits2 m.
Proof. destruct m; simpl; lia. Qed.

Lemma Zdigits2_unique m d :
  0 < m -> 2 ^ (d - 1) <= m < 2 ^ d -> Zdigits2 m = d.
Proof.
  intros Hm [Hl Hu].
  pose proof (Zdigits2_bounds m Hm) as [Bl Bu].
  pose proof (Zdigits2_pos m Hm) as Dp.
  assert (0 < d).
  { destruct (Z_lt_le_dec 0 d); [assumption|].
    rewrite Z.pow_neg_r in Hl by lia. 
    destruct (Z.eq_dec d 0); [subst; simpl in *; lia|].
    rewrite Z.pow_neg_r in Hu by lia. lia. }
  destruct (Z.lt_trichotomy (Zdigits2 m) d) as [L|[E|L]]; [|assumption|].
  - assert (2 ^ Zdigits2 m <= 2 ^ (d - 1)) by (apply Z.pow_le_mono_r; lia). lia.
  - assert (2 ^ d <= 2 ^ (Zdigits2 m - 1)) by (apply Z.pow_le_mono_r; lia). lia.
Qed.

(** ** Locations and right shifts *)

Lemma inbetween_bounds m l x : inbetween m l x -> (IZR m <= x < IZR m + 1)%R.
Proof. destruct l as [|[]]; simpl; lra. Qed.

Lemma IZR_xO p : IZR (Z.pos p~0) = (2 * IZR (Z.pos p))%R.
Proof. rewrite Pos2Z.inj_xO, mult_IZR. reflexivity. Qed.

Lemma IZR_xI p : IZR (Z.pos p~1) = (2 * IZR (Z.pos p) + 1)%R.
Proof. rewrite Pos2Z.inj_xI, plus_IZR, mult_IZR. reflexivity. Qed.

Lemma shr_1_spec mrs x :
  0 <= shr_m mrs ->
  inbetween (shr_m mrs) (loc_of_shr_record mrs) x ->
  shr_m (shr_1 mrs) = shr_m mrs / 2 /\
  inbetween (shr_m (shr_1 mrs)) (loc_of_shr_record (shr_1 mrs)) (x / 2).
Proof.
  destruct mrs as [m r s]. cbn [shr_m]. intros Hm H.
  destruct m as [|p|p]; [| |lia].
  - split; [reflexivity|].
    destruct r, s; cbn [shr_1 orb shr_m loc_of_shr_record inbetween] in *; lra.
  - split.
    + rewrite <- Z.div2_div. destruct p; reflexivity.
    + destruct p as [p|p|]; destruct r, s;
        cbn [shr_1 orb shr_m loc_of_shr_record inbetween] in *;
        try rewrite (IZR_xO p) in H; try rewrite (IZR_xI p) in H; lra.
Qed.

Lemma iter_pos_nat {A} (f : A -> A) p x :
  iter_pos f p x = Nat.iter (Pos.to_nat p) f x.
Proof.
  assert (C : forall n y, Nat.iter n f (f y) = f (Nat.iter n f y)).
  { induction n; intros; simpl; [reflexivity|]. now rewrite IHn. }
  assert (D : forall a b y, Nat.iter (a + b) f y = Nat.iter a f (Nat.iter b f y)).
  { induction a; intros; simpl; [reflexivity|]. now rewrite IHa. }
  revert x. induction p; intros x; cbn [iter_pos].
  - rewrite !IHp, Pos2Nat.inj_xI.
    replace (2 * Pos.to_nat p)%nat with (Pos.to_nat p + Pos.to_nat p)%nat by lia.
    generalize (Pos.to_nat p) as k. intros k.
    change (Nat.iter (S (k + k)) f x) with (f (Nat.iter (k + k) f x)).
    now rewrite D, C.
  - rewrite !IHp, Pos2Nat.inj_xO.
    replace (2 * Pos.to_nat p)%nat with (Pos.to_nat p + Pos.to_nat p)%nat by lia.
    now rewrite D.
  - reflexivity.
Qed.

Lemma iter_shr_1_spec n mrs x :
  0 <= shr_m mrs ->
  inbetween (shr_m mrs) (loc_of_shr_record mrs) x ->
  let mrs' := Nat.iter n shr_1 mrs in
  shr_m mrs' = shr_m mrs / 2 ^ Z.of_nat n /\
  inbetween (shr_m mrs') (loc_of_shr_record mrs') (x * bpow (- Z.of_nat n)).
Proof.
  intros Hm H. induction n as [|n IH].
  - simpl. split; [now rewrite Z.div_1_r|].
    change (bpow (- 0)) with 1%R. now rewrite Rmult_1_r.
  - cbn zeta in *. destruct IH as [E I].
    assert (P : 0 < 2 ^ Z.of_nat n) by (apply Z.pow_pos_nonneg; lia).
    assert (Hm' : 0 <= shr_m (Nat.iter n shr_1 mrs)).
    { rewrite E. apply Z.div_pos; lia. }
    destruct (shr_1_spec _ _ Hm' I) as [E' I'].
    change (Nat.iter (S n) shr_1 mrs) with (shr_1 (Nat.iter n shr_1 mrs)).
    split.
    + rewrite E', E, Z.div_div by lia.
      f_equal. rewrite Nat2Z.inj_succ, Z.pow_succ_r by lia. ring.
    + replace (x * bpow (- Z.of_nat (S n)))%R with (x * bpow (- Z.of_nat n) / 2)%R; [exact I'|].
      rewrite Nat2Z.inj_succ.
      replace (- Z.succ (Z.of_nat n)) with (- Z.of_nat n + - (1)) by lia.
      rewrite bpow_add, (bpow_opp 1), bpow_1. field.
Qed.

Lemma loc_of_shr_record_of_loc m l :
  loc_of_shr_record (shr_record_of_loc m l) = l.
Proof. destruct l as [|[]]; reflexivity. Qed.

Lemma shr_m_shr_record_of_loc m l : shr_m (shr_record_of_loc m l) = m.
Proof. destruct l as [|[]]; reflexivity. Qed.

Lemma shr_spec m l e n x :
  0 <= m -> inbetween m l x ->
  let k := Z.max n 0 in
  let mrs' := fst (shr (shr_record_of_loc m l) e n) in
  snd (shr (shr_record_of_loc m l) e n) = e + k /\
  shr_m mrs' = m / 2 ^ k /\
  inbetween (shr_m mrs') (loc_of_shr_record mrs') (x * bpow (- k)).
Proof.
  intros Hm H. cbn zeta.
  destruct n as [|p|p]; cbn [shr fst snd].
  - rewrite loc_of_shr_record_of_loc, shr_m_shr_record_of_loc.
    change (Z.max 0 0) with 0. rewrite Z.add_0_r, Z.div_1_r.
    change (bpow (- 0)) with 1%R. rewrite Rmult_1_r. auto.
  - rewrite iter_pos_nat. replace (Z.max (Z.pos p) 0) with (Z.pos p) by lia.
    split; [reflexivity|].
    rewrite <- (positive_nat_Z p).
    pose proof (iter_shr_1_spec (Pos.to_nat p) (shr_record_of_loc m l) x) as S.
    rewrite loc_of_shr_record_of_loc, shr_m_shr_record_of_loc in S.
    exact (S Hm H).
  - rewrite loc_of_shr_record_of_loc, shr_m_shr_record_of_loc.
    replace (Z.max (Z.neg p) 0) with 0 by lia. rewrite Z.add_0_r, Z.div_1_r.
    change (bpow (- 0)) with 1%R. rewrite Rmult_1_r. auto.
Qed.

(** ** Rounding to the nearest integer, ties to even *)

Lemma round_nearest_even_spec m l x :
  inbetween m l x -> nearest_even x (round_nearest_even m l).
Proof.
  unfold nearest_even. destruct l as [|[]]; cbn [inbetween round_nearest_even]; intros H.
  - split; [lra|]. intros [E|E]; lra.
  - destruct (Z.even m) eqn:Ev.
    + split; [lra|]. intros _. exact Ev.
    + rewrite plus_IZR. split; [lra|]. intros _.
      rewrite Z.even_add, Ev. reflexivity.
  - split; [lra|]. intros [E|E]; lra.
  - rewrite plus_IZR. split; [lra|]. intros [E|E]; lra.
Qed.

Lemma nearest_even_mono x1 x2 n1 n2 :
  (x1 <= x2)%R -> nearest_even x1 n1 -> nearest_even x2 n2 -> n1 <= n2.
Proof.
  intros Hx [B1 T1] [B2 T2].
  destruct (Z_lt_le_dec n2 n1) as [L|L]; [exfalso|assumption].
  assert (L' : (IZR n2 + 1 <= IZR n1)%R).
  { rewrite <- plus_IZR. apply IZR_le. lia. }
  assert (E1 : x1 = (IZR n1 - / 2)%R) by lra.
  assert (E2 : x2 = (IZR n2 + / 2)%R) by lra.
  assert (En : n1 = n2 + 1).
  { apply eq_IZR. rewrite plus_IZR. lra. }
  specialize (T1 (or_introl E1)). specialize (T2 (or_intror E2)).
  rewrite En, Z.even_add, T2 in T1. discriminate.
Qed.

Lemma nearest_even_IZR k : nearest_even (IZR k) k.
Proof. split; [lra|]. intros [E|E]; lra. Qed.

Lemma nearest_even_le x n N : nearest_even x n -> (x <= IZR N)%R -> n <= N.
Proof. intros H L. exact (nearest_even_mono _ _ _ _ L H (nearest_even_IZR N)). Qed.

Lemma nearest_even_ge x n N : nearest_even x n -> (IZR N <= x)%R -> N <= n.
Proof. intros H L. exact (nearest_even_mono _ _ _ _ L (nearest_even_IZR N) H). Qed.

(** ** Scaling by powers of two *)

Lemma scaled_eq v e : (v / bpow e * bpow e = v)%R.
Proof. pose proof (bpow_gt_0 e). field. lra. Qed.

Lemma scaled_lt v e k : (v < bpow (e + k))%R -> (v / bpow e < bpow k)%R.
Proof.
  intros H. rewrite bpow_add in H.
  pose proof (bpow_gt_0 e). pose proof (scaled_eq v e). nra.
Qed.

Lemma scaled_ge v e k : (bpow (e + k) <= v)%R -> (bpow k <= v / bpow e)%R.
Proof.
  intros H. rewrite bpow_add in H.
  pose proof (bpow_gt_0 e). pose proof (scaled_eq v e). nra.
Qed.

Lemma scaled_le_mono v1 v2 e : (v1 <= v2)%R -> (v1 / bpow e <= v2 / bpow e)%R.
Proof.
  intros H. pose proof (bpow_gt_0 e).
  pose proof (scaled_eq v1 e). pose proof (scaled_eq v2 e). nra.
Qed.

(** ** Rounding a positive real to a binary format *)

Lemma sgn_xorb a b : sgn (xorb a b) = (sgn a * sgn b)%R.
Proof. destruct a, b; unfold sgn; simpl; lra. Qed.

Lemma sgn_negb a : sgn (negb a) = (- sgn a)%R.
Proof. destruct a; unfold sgn; simpl; lra. Qed.

Lemma Rcmp_opp a b c : Rcmp a b c -> Rcmp (- a) (- b) (CompOpp c).
Proof. intros [H|H|H]; simpl; constructor; try lra. Qed.

(** The format, as in [SpecFloat]: [prec] bits of precision, and [emax] the
    exponent of the infinities. *)
Section Binary.
Variables prec emax : Z.
Hypothesis Hprec : 0 < prec.
Hypothesis Hemax : prec < emax.

Local Abbreviation emin := (SpecFloat.emin prec emax).
Local Abbreviation fexp := (SpecFloat.fexp prec emax).
Local Abbreviation valid := (SpecFloat.valid_binary prec emax).
Local Abbreviation cexp_of := (cexp_of prec emax).
Local Abbreviation rnd_pos := (rnd_pos prec emax).
Local Abbreviation SF2X := (SF2X emax).
Local Abbreviation rounds_to := (rounds_to prec emax).

Lemma cexp_of_mono v1 v2 e1 e2 :
  (v1 <= v2)%R -> cexp_of v1 e1 -> cexp_of v2 e2 -> e1 <= e2.
Proof.
  intros Hv [U1 L1] [U2 L2].
  destruct L1 as [->|[G1 L1]].
  - destruct L2 as [->|[G2 _]]; lia.
  - assert (bpow (e1 + prec - 1) < bpow (e2 + prec))%R by lra.
    apply bpow_lt_inv in H. lia.
Qed.

Lemma rnd_pos_nonneg v r : (0 < v)%R -> rnd_pos v r -> (0 <= r)%R.
Proof.
  intros Hv (e & n & _ & [[_ B] _] & ->).
  pose proof (bpow_gt_0 e) as Pe.
  assert (0 < v / bpow e)%R by (apply Rdiv_lt_0_compat; assumption).
  assert (-1 < n).
  { apply lt_IZR. lra. }
  assert (0 <= IZR n)%R by (apply IZR_le; lia).
  nra.
Qed.

Lemma rnd_pos_mono v1 v2 r1 r2 :
  (v1 <= v2)%R -> rnd_pos v1 r1 -> rnd_pos v2 r2 -> (r1 <= r2)%R.
Proof.
  intros Hv (e1 & n1 & C1 & N1 & ->) (e2 & n2 & C2 & N2 & ->).
  pose proof (cexp_of_mono _ _ _ _ Hv C1 C2) as He.
  destruct (Z.eq_dec e1 e2) as [<-|Ne].
  - assert (n1 <= n2).
    { eapply nearest_even_mono; [|exact N1|exact N2]. now apply scaled_le_mono. }
    pose proof (bpow_gt_0 e1). apply IZR_le in H. nra.
  - assert (G1 : emin <= e1) by (destruct C1 as [_ [->|[G1 _]]]; lia).
    destruct C1 as [U1 _]. destruct C2 as [_ [->|[G2 L2]]].
    + lia.
    + assert (A : n1 <= 2 ^ prec).
      { apply (nearest_even_le _ _ _ N1). rewrite <- bpow_IZR by lia.
        apply Rlt_le, scaled_lt, U1. }
      assert (B : 2 ^ (prec - 1) <= n2).
      { apply (nearest_even_ge _ _ _ N2). rewrite <- bpow_IZR by lia.
        apply scaled_ge. now replace (e2 + (prec - 1)) with (e2 + prec - 1) by ring. }
      apply IZR_le in A, B. rewrite <- bpow_IZR in A, B by lia.
      assert (S1 : (IZR n1 * bpow e1 <= bpow (e1 + prec))%R).
      { rewrite bpow_add. pose proof (bpow_gt_0 e1). nra. }
      assert (S2 : (bpow (e2 + prec - 1) <= IZR n2 * bpow e2)%R).
      { replace (e2 + prec - 1) with (e2 + (prec - 1)) by ring.
        rewrite bpow_add. pose proof (bpow_gt_0 e2). nra. }
      assert (bpow (e1 + prec) <= bpow (e2 + prec - 1))%R by (apply bpow_le; lia).
      lra.
Qed.

Lemma fexp_ge_emin e : emin <= fexp e.
Proof. unfold SpecFloat.fexp. lia. Qed.

Lemma emin_le_emax : emin <= emax - prec.
Proof. unfold SpecFloat.emin. lia. Qed.

Lemma shr_fexp_spec m e l v :
  0 <= m -> inbetween m l (v / bpow e) -> e <= fexp (Zdigits2 m + e) ->
  let r := shr_fexp prec emax m e l in
  snd r = fexp (Zdigits2 m + e) /\
  shr_m (fst r) = m / 2 ^ (fexp (Zdigits2 m + e) - e) /\
  inbetween (shr_m (fst r)) (loc_of_shr_record (fst r)) (v / bpow (snd r)).
Proof.
  intros Hm I He. cbn zeta. unfold shr_fexp.
  set (n := fexp (Zdigits2 m + e) - e).
  destruct (shr_spec m l e n _ Hm I) as (A & B & C).
  replace (Z.max n 0) with n in * by lia.
  split; [rewrite A; unfold n; ring|]. split; [exact B|]. rewrite A.
  replace (v / bpow (e + n))%R with (v / bpow e * bpow (- n))%R; [exact C|].
  rewrite bpow_add, bpow_opp.
  pose proof (bpow_gt_0 e). pose proof (bpow_gt_0 n). field. lra.
Qed.

Lemma cexp_of_located mx ex lx v :
  (0 < v)%R -> 0 <= mx -> inbetween mx lx (v / bpow ex) ->
  (mx = 0 -> ex <= emin) ->
  cexp_of v (fexp (Zdigits2 mx + ex)).
Proof.
  intros Hv Hm I H0.
  apply inbetween_bounds in I. destruct I as [Il Iu].
  pose proof (bpow_gt_0 ex) as Pe. pose proof (scaled_eq v ex) as Sv.
  destruct (Z.eq_dec mx 0) as [->|Nz].
  - specialize (H0 eq_refl). cbn [Zdigits2].
    assert (E : fexp (0 + ex) = emin) by (unfold SpecFloat.fexp; lia).
    rewrite E. split; [|now left].
    assert (v < bpow ex)%R by nra.
    assert (bpow ex <= bpow (emin + prec))%R by (apply bpow_le; lia).
    lra.
  - assert (Hp : 0 < mx) by lia.
    pose proof (Zdigits2_bounds mx Hp) as [Bl Bu].
    pose proof (Zdigits2_pos mx Hp) as Dp.
    set (d := Zdigits2 mx) in *.
    assert (U : (v < bpow (d + ex))%R).
    { rewrite bpow_add, (bpow_IZR d) by lia.
      assert (IZR mx + 1 <= IZR (2 ^ d))%R by (rewrite <- plus_IZR; apply IZR_le; lia).
      nra. }
    assert (L : (bpow (d + ex - 1) <= v)%R).
    { replace (d + ex - 1) with ((d - 1) + ex) by ring.
      rewrite bpow_add, (bpow_IZR (d - 1)) by lia.
      apply IZR_le in Bl. nra. }
    split.
    + assert (bpow (d + ex) <= bpow (fexp (d + ex) + prec))%R
        by (apply bpow_le; unfold SpecFloat.fexp; lia).
      lra.
    + unfold SpecFloat.fexp.
      destruct (Z_le_gt_dec (d + ex - prec) emin) as [C|C].
      * left. lia.
      * right. split; [lia|].
        replace (Z.max (d + ex - prec) emin + prec - 1) with (d + ex - 1) by lia.
        exact L.
Qed.

(** The rounding step shared by all operations: given the integer part [mx]
    of [v / 2^ex] and the location of the rest, it returns [v] rounded to
    nearest even, or an infinity from [2^emax] on, in canonical form. *)
Lemma binary_round_aux_spec sx mx ex lx v :
  (0 < v)%R -> 0 <= mx -> inbetween mx lx (v / bpow ex) ->
  ex <= fexp (Zdigits2 mx + ex) -> (mx = 0 -> ex <= emin) ->
  exists r0, rnd_pos v r0 /\
    SF2X (binary_round_aux prec emax sx mx ex lx) = (sgn sx * Rmin r0 (bpow emax))%R /\
    binary_round_aux prec emax sx mx ex lx <> S754_nan /\
    valid (binary_round_aux prec emax sx mx ex lx) = true.
Proof.
  intros Hv Hm I He H0.
  pose proof (cexp_of_located _ _ _ _ Hv Hm I H0) as C.
  destruct (shr_fexp_spec _ _ _ _ Hm I He) as (E1 & M1 & I1).
  unfold binary_round_aux.
  destruct (shr_fexp prec emax mx ex lx) as [mrs1 e1'].
  cbn [fst snd] in E1, M1, I1.
  set (e1 := fexp (Zdigits2 mx + ex)) in *. subst e1'.
  set (m1 := shr_m mrs1) in *.
  set (nr := round_nearest_even m1 (loc_of_shr_record mrs1)).
  pose proof (round_nearest_even_spec _ _ _ I1) as N. fold nr in N.
  assert (G1 : emin <= e1) by apply fexp_ge_emin.
  assert (Nl : 0 <= nr).
  { apply (nearest_even_ge _ _ _ N). pose proof (bpow_gt_0 e1).
    apply Rlt_le, Rdiv_lt_0_compat; assumption. }
  assert (Nu : nr <= 2 ^ prec).
  { apply (nearest_even_le _ _ _ N). rewrite <- bpow_IZR by lia.
    apply Rlt_le, scaled_lt. apply C. }
  assert (Nn : emin < e1 -> 2 ^ (prec - 1) <= nr).
  { intros G. destruct C as [_ [C|[_ C]]]; [lia|].
    apply (nearest_even_ge _ _ _ N). rewrite <- bpow_IZR by lia.
    apply scaled_ge. now replace (e1 + (prec - 1)) with (e1 + prec - 1) by ring. }
  exists (IZR nr * bpow e1)%R. split.
  { exists e1, nr. auto. }
  assert (P1 : 0 < 2 ^ (prec - 1)) by (apply Z.pow_pos_nonneg; lia).
  assert (P2 : 2 ^ prec = 2 * 2 ^ (prec - 1)).
  { rewrite <- Z.pow_succ_r by lia. f_equal. lia. }
  (* the second shift renormalises a mantissa that rounding carried to 2^prec *)
  pose proof (shr_spec nr loc_Exact e1 (fexp (Zdigits2 nr + e1) - e1) (IZR nr) Nl eq_refl) as S2.
  cbn zeta in S2. destruct S2 as (E2 & M2 & _).
  unfold shr_fexp.
  destruct (shr (shr_record_of_loc nr loc_Exact) e1 (fexp (Zdigits2 nr + e1) - e1)) as [mrs2 e2].
  cbn [fst snd] in E2, M2.
  set (k := Z.max (fexp (Zdigits2 nr + e1) - e1) 0) in *.
  assert (V : nr = 0 /\ shr_m mrs2 = 0 \/
              0 < shr_m mrs2 < 2 ^ prec /\ (emin < e2 -> 2 ^ (prec - 1) <= shr_m mrs2) /\
              emin <= e2 /\
              (IZR (shr_m mrs2) * bpow e2 = IZR nr * bpow e1)%R).
  { destruct (Z.eq_dec nr 0) as [Z0|Z0].
    - left. split; [assumption|]. rewrite M2, Z0. apply Z.div_0_l.
      apply Z.pow_nonzero; unfold k; lia.
    - right. assert (Np : 0 < nr) by lia.
      pose proof (Zdigits2_bounds nr Np) as [Bl Bu].
      pose proof (Zdigits2_pos nr Np) as Dp.
      destruct (Z.eq_dec nr (2 ^ prec)) as [T|T].
      + assert (D : Zdigits2 nr = prec + 1).
        { apply Zdigits2_unique; [assumption|].
          replace (prec + 1 - 1) with prec by ring. rewrite T.
          rewrite Z.pow_add_r, Z.pow_1_r by lia. lia. }
        assert (K : k = 1) by (unfold k, SpecFloat.fexp; rewrite D; lia).
        rewrite K in *. rewrite Z.pow_1_r in M2.
        assert (M2' : shr_m mrs2 = 2 ^ (prec - 1)).
        { rewrite M2, T, P2. rewrite Z.mul_comm. apply Z.div_mul. lia. }
        rewrite M2', E2, T. repeat split; try lia.
        rewrite bpow_add, bpow_1, <- !bpow_IZR by lia.
        replace prec with ((prec - 1) + 1) at 2 by ring.
        rewrite (bpow_add (prec - 1) 1), bpow_1. ring.
      + assert (D : Zdigits2 nr <= prec).
        { destruct (Z_le_gt_dec (Zdigits2 nr) prec); [assumption|exfalso].
          assert (2 ^ prec <= 2 ^ (Zdigits2 nr - 1)) by (apply Z.pow_le_mono_r; lia).
          lia. }
        assert (K : k = 0) by (unfold k, SpecFloat.fexp; lia).
        rewrite K in *. rewrite Z.pow_0_r, Z.div_1_r in M2. rewrite Z.add_0_r in E2.
        rewrite M2, E2. repeat split; lia. }
  destruct V as [[Z0 Z2]|(B2 & N2 & G2 & V2)].
  - rewrite Z2. cbn [SF2X valid_binary]. rewrite Z0, Rmult_0_l.
    rewrite Rmin_left by (pose proof (bpow_gt_0 emax); lra).
    split; [ring|]. split; [discriminate|reflexivity].
  - destruct (shr_m mrs2) as [|p|p] eqn:Em2; [lia| |lia].
    pose proof (bpow_gt_0 e2) as Pe2.
    destruct (Z.leb_spec e2 (emax - prec)) as [Le|Gt].
    + cbn [SF2X valid_binary]. rewrite V2. split; [|split; [discriminate|]].
      * rewrite Rmin_left; [reflexivity|]. rewrite <- V2.
        assert (IZR (Z.pos p) < bpow prec)%R by (rewrite bpow_IZR by lia; apply IZR_lt; lia).
        assert (bpow prec * bpow e2 <= bpow emax)%R by (rewrite <- bpow_add; apply bpow_le; lia).
        nra.
      * unfold bounded, canonical_mantissa. apply andb_true_iff. split; [|now apply Z.leb_le].
        apply Z.eqb_eq. change (Z.pos (digits2_pos p)) with (Zdigits2 (Z.pos p)).
        destruct (Z.eq_dec e2 emin) as [Ee|Ne].
        -- pose proof (Zdigits2_bounds (Z.pos p) eq_refl) as [Bl _].
           assert (Zdigits2 (Z.pos p) <= prec).
           { destruct (Z_le_gt_dec (Zdigits2 (Z.pos p)) prec); [assumption|exfalso].
             assert (2 ^ prec <= 2 ^ (Zdigits2 (Z.pos p) - 1)) by (apply Z.pow_le_mono_r; lia).
             lia. }
           unfold SpecFloat.fexp. lia.
        -- assert (D : Zdigits2 (Z.pos p) = prec).
           { apply Zdigits2_unique; [lia|]. split; [apply N2; lia|lia]. }
           rewrite D. unfold SpecFloat.fexp. lia.
    + cbn [SF2X valid_binary]. split; [|split; [discriminate|reflexivity]].
      rewrite Rmin_right; [reflexivity|]. rewrite <- V2.
      pose proof emin_le_emax.
      assert (bpow (prec - 1) <= IZR (Z.pos p))%R.
      { rewrite bpow_IZR by lia. apply IZR_le, N2. lia. }
      assert (bpow emax <= bpow (prec - 1) * bpow e2)%R by (rewrite <- bpow_add; apply bpow_le; lia).
      nra.
Qed.

Lemma rounds_to_signed s v r0 :
  (0 < v)%R -> rnd_pos v r0 ->
  rounds_to (sgn s * v) (sgn s * Rmin r0 (bpow emax)).
Proof.
  intros Hv H. destruct s; unfold sgn.
  - right; right. split; [lra|]. exists r0.
    replace (- (-1 * v))%R with v by ring. split; [assumption|ring].
  - right; left. split; [lra|]. exists r0.
    replace (1 * v)%R with v by ring. split; [assumption|ring].
Qed.

Lemma Rmin_sat_nonneg v r0 :
  (0 < v)%R -> rnd_pos v r0 -> (0 <= Rmin r0 (bpow emax))%R.
Proof.
  intros Hv H. apply Rmin_glb.
  - eapply rnd_pos_nonneg; eassumption.
  - apply Rlt_le, bpow_gt_0.
Qed.

(** Rounding is monotone. *)
Lemma rounds_to_mono v1 v2 r1 r2 :
  (v1 <= v2)%R -> rounds_to v1 r1 -> rounds_to v2 r2 -> (r1 <= r2)%R.
Proof.
  intros Hv
    [[Z1 ->]|[[P1 (a1 & A1 & ->)]|[N1 (a1 & A1 & ->)]]]
    [[Z2 ->]|[[P2 (a2 & A2 & ->)]|[N2 (a2 & A2 & ->)]]];
    try lra;
    try (pose proof (Rmin_sat_nonneg _ _ P1 A1));
    try (pose proof (Rmin_sat_nonneg _ _ P2 A2));
    try (assert (0 < - v1)%R by lra; pose proof (Rmin_sat_nonneg (- v1) a1 ltac:(assumption) A1));
    try (assert (0 < - v2)%R by lra; pose proof (Rmin_sat_nonneg (- v2) a2 ltac:(assumption) A2));
    try lra.
  - apply Rle_min_compat_r. apply (rnd_pos_mono v1 v2); assumption.
  - apply Ropp_le_contravar, Rle_min_compat_r.
    apply (rnd_pos_mono (- v2) (- v1)); [lra|assumption|assumption].
Qed.

Lemma rounds_to_0 : rounds_to 0 0.
Proof. left. split; reflexivity. Qed.

(** *** Canonical representations *)

Lemma bounded_inv m e :
  bounded prec emax m e = true ->
  emin <= e <= emax - prec /\ Zdigits2 (Z.pos m) <= prec /\
  (e = emin \/ Zdigits2 (Z.pos m) = prec).
Proof.
  unfold bounded, canonical_mantissa. intros H.
  apply andb_true_iff in H. destruct H as [C B].
  apply Z.eqb_eq in C. apply Z.leb_le in B.
  change (Z.pos (digits2_pos m)) with (Zdigits2 (Z.pos m)) in C.
  unfold SpecFloat.fexp in C. lia.
Qed.

Lemma IZR_pos_lt_bpow m d : Zdigits2 (Z.pos m) <= d -> (IZR (Z.pos m) < bpow d)%R.
Proof.
  intros H. pose proof (Zdigits2_bounds (Z.pos m) eq_refl) as [_ B].
  pose proof (Zdigits2_pos (Z.pos m) eq_refl).
  rewrite bpow_IZR by lia. apply IZR_lt.
  assert (2 ^ Zdigits2 (Z.pos m) <= 2 ^ d) by (apply Z.pow_le_mono_r; lia). lia.
Qed.

Lemma IZR_pos_ge_bpow m d : d <= Zdigits2 (Z.pos m) -> 0 < d -> (bpow (d - 1) <= IZR (Z.pos m))%R.
Proof.
  intros H Hd. pose proof (Zdigits2_bounds (Z.pos m) eq_refl) as [B _].
  rewrite bpow_IZR by lia. apply IZR_le.
  assert (2 ^ (d - 1) <= 2 ^ (Zdigits2 (Z.pos m) - 1)) by (apply Z.pow_le_mono_r; lia). lia.
Qed.

Lemma finite_value_bounds m e :
  bounded prec emax m e = true ->
  (bpow emin <= IZR (Z.pos m) * bpow e < bpow emax)%R.
Proof.
  intros B. apply bounded_inv in B. destruct B as (Be & Bd & _).
  pose proof (bpow_gt_0 e). split.
  - assert (1 <= IZR (Z.pos m))%R by (apply IZR_le; lia).
    assert (bpow emin <= bpow e)%R by (apply bpow_le; lia). nra.
  - pose proof (IZR_pos_lt_bpow m prec Bd).
    assert (bpow prec * bpow e <= bpow emax)%R by (rewrite <- bpow_add; apply bpow_le; lia).
    nra.
Qed.

Lemma rnd_pos_id m e :
  bounded prec emax m e = true ->
  rnd_pos (IZR (Z.pos m) * bpow e) (IZR (Z.pos m) * bpow e).
Proof.
  intros B. apply bounded_inv in B. destruct B as (Be & Bd & Bc).
  pose proof (bpow_gt_0 e) as Pe.
  exists e, (Z.pos m). split; [|split; [|reflexivity]].
  - split.
    + rewrite Z.add_comm, bpow_add. pose proof (IZR_pos_lt_bpow m prec Bd). nra.
    + destruct (Z.eq_dec e emin) as [E|E]; [now left|right].
      split; [lia|]. destruct Bc as [Bc|Bc]; [contradiction|].
      replace (e + prec - 1) with ((prec - 1) + e) by ring. rewrite bpow_add.
      pose proof (IZR_pos_ge_bpow m prec ltac:(lia) Hprec). nra.
  - replace (IZR (Z.pos m) * bpow e / bpow e)%R with (IZR (Z.pos m)).
    + apply nearest_even_IZR.
    + field. lra.
Qed.

Lemma rounds_to_id x :
  valid x = true -> is_fin x = true -> rounds_to (SF2X x) (SF2X x).
Proof.
  destruct x as [s|s| |s m e]; try discriminate; intros V _.
  - apply rounds_to_0.
  - cbn [SF2X valid_binary] in *.
    pose proof (finite_value_bounds m e V) as [L U].
    pose proof (bpow_gt_0 emin).
    replace (sgn s * (IZR (Z.pos m) * bpow e))%R
      with (sgn s * Rmin (IZR (Z.pos m) * bpow e) (bpow emax))%R at 2
      by (rewrite Rmin_left by lra; reflexivity).
    apply rounds_to_signed; [lra|]. now apply rnd_pos_id.
Qed.

Lemma X_range x : valid x = true -> (- bpow emax <= SF2X x <= bpow emax)%R.
Proof.
  pose proof (bpow_gt_0 emax).
  destruct x as [s|s| |s m e]; cbn [SF2X valid_binary]; intros V; try lra.
  - destruct s; unfold sgn; lra.
  - pose proof (finite_value_bounds m e V). pose proof (bpow_gt_0 emin).
    destruct s; unfold sgn; lra.
Qed.

Lemma X_fin_range x :
  valid x = true -> is_fin x = true -> (- bpow emax < SF2X x < bpow emax)%R.
Proof.
  pose proof (bpow_gt_0 emax).
  destruct x as [s|s| |s m e]; cbn [SF2X valid_binary]; intros V F; try discriminate; try lra.
  pose proof (finite_value_bounds m e V). pose proof (bpow_gt_0 emin).
  destruct s; unfold sgn; lra.
Qed.

(** *** The order on floats is the order on their values *)

Lemma canonical_lt_exp m1 e1 m2 e2 :
  bounded prec emax m1 e1 = true -> bounded prec emax m2 e2 = true ->
  e1 < e2 -> (IZR (Z.pos m1) * bpow e1 < IZR (Z.pos m2) * bpow e2)%R.
Proof.
  intros B1 B2 L. apply bounded_inv in B1, B2.
  destruct B1 as (Be1 & Bd1 & _). destruct B2 as (Be2 & Bd2 & Bc2).
  assert (D2 : Zdigits2 (Z.pos m2) = prec) by lia.
  pose proof (IZR_pos_lt_bpow m1 prec Bd1).
  pose proof (IZR_pos_ge_bpow m2 prec ltac:(lia) Hprec).
  pose proof (bpow_gt_0 e1). pose proof (bpow_gt_0 e2).
  assert (bpow prec * bpow e1 <= bpow (prec - 1) * bpow e2)%R.
  { rewrite <- !bpow_add. apply bpow_le. lia. }
  nra.
Qed.

Lemma canonical_compare m1 e1 m2 e2 :
  bounded prec emax m1 e1 = true -> bounded prec emax m2 e2 = true ->
  Rcmp (IZR (Z.pos m1) * bpow e1) (IZR (Z.pos m2) * bpow e2)
    match Z.compare e1 e2 with
    | Lt => Lt
    | Gt => Gt
    | Eq => Pos.compare_cont Eq m1 m2
    end.
Proof.
  intros B1 B2. destruct (Z.compare_spec e1 e2) as [E|L|G].
  - subst e2. change (Pos.compare_cont Eq m1 m2) with (Pos.compare m1 m2).
    pose proof (bpow_gt_0 e1).
    destruct (Pos.compare_spec m1 m2) as [E|L|G].
    + subst. now constructor.
    + constructor. apply Pos2Z.pos_lt_pos, IZR_lt in L. nra.
    + constructor. apply Pos2Z.pos_lt_pos, IZR_lt in G. nra.
  - constructor. now apply canonical_lt_exp.
  - constructor. now apply canonical_lt_exp.
Qed.

(** Comparing two floats other than [NaN] compares their values. *)
Lemma SFcompare_spec x y :
  valid x = true -> valid y = true -> is_num x = true -> is_num y = true ->
  exists c, SFcompare x y = Some c /\ Rcmp (SF2X x) (SF2X y) c.
Proof.
  pose proof (bpow_gt_0 emax) as Pm. pose proof (bpow_gt_0 emin) as Pn.
  destruct x as [sx|sx| |sx mx ex]; try discriminate;
  destruct y as [sy|sy| |sy my ey]; try discriminate;
  cbn [SFcompare SF2X valid_binary]; intros Vx Vy _ _;
  eexists; (split; [reflexivity|]);
  try (pose proof (finite_value_bounds _ _ Vx));
  try (pose proof (finite_value_bounds _ _ Vy)).
  1-8: repeat match goal with b : bool |- _ => destruct b end;
    unfold sgn; constructor; lra.
  - destruct sx, sy; unfold sgn.
    + replace (-1 * (IZR (Z.pos mx) * bpow ex))%R with (- (IZR (Z.pos mx) * bpow ex))%R by ring.
      replace (-1 * (IZR (Z.pos my) * bpow ey))%R with (- (IZR (Z.pos my) * bpow ey))%R by ring.
      pose proof (Rcmp_opp _ _ _ (canonical_compare mx ex my ey Vx Vy)) as C.
      destruct (ex ?= ey); exact C.
    + constructor. lra.
    + constructor. lra.
    + rewrite !Rmult_1_l. now apply canonical_compare.
Qed.

(** *** Multiplication *)

Lemma Zdigits2_ge m k : 0 < m -> 2 ^ (k - 1) <= m -> k <= Zdigits2 m.
Proof.
  intros Hm H. pose proof (Zdigits2_bounds m Hm) as [_ B].
  pose proof (Zdigits2_pos m Hm).
  destruct (Z_le_gt_dec k (Zdigits2 m)); [assumption|].
  assert (2 ^ Zdigits2 m <= 2 ^ (k - 1)) by (apply Z.pow_le_mono_r; lia). lia.
Qed.

Lemma is_num_not_nan x : x <> S754_nan -> is_num x = true.
Proof. destruct x; intros H; try reflexivity. now elim H. Qed.

(** The product of two finite floats is their exact product, rounded. *)
Lemma SFmul_spec x y :
  valid x = true -> valid y = true -> is_fin x = true -> is_fin y = true ->
  rounds_to (SF2X x * SF2X y) (SF2X (SFmul prec emax x y)) /\
  is_num (SFmul prec emax x y) = true.
Proof.
  destruct x as [sx|sx| |sx mx ex]; try discriminate;
  destruct y as [sy|sy| |sy my ey]; try discriminate;
  cbn [SFmul SF2X valid_binary is_num]; intros Vx Vy _ _;
  try (split; [|reflexivity]; rewrite ?Rmult_0_l, ?Rmult_0_r; apply rounds_to_0).
  pose proof (bpow_gt_0 ex) as Px. pose proof (bpow_gt_0 ey) as Py.
  assert (Mx : (0 < IZR (Z.pos mx))%R) by (apply IZR_lt; lia).
  assert (My : (0 < IZR (Z.pos my))%R) by (apply IZR_lt; lia).
  set (v := (IZR (Z.pos mx) * bpow ex * (IZR (Z.pos my) * bpow ey))%R).
  assert (Vp : (0 < v)%R) by (repeat apply Rmult_lt_0_compat; assumption).
  destruct (binary_round_aux_spec (xorb sx sy) (Z.pos (mx * my)) (ex + ey) loc_Exact v)
    as (r0 & R & E & N & W).
  - exact Vp.
  - lia.
  - cbn [inbetween]. unfold v. rewrite Pos2Z.inj_mul, mult_IZR, bpow_add. field. lra.
  - pose proof (bounded_inv _ _ Vx) as (Bx & Dx & Cx).
    pose proof (bounded_inv _ _ Vy) as (By & Dy & Cy).
    pose proof (Zdigits2_bounds (Z.pos mx) eq_refl) as [Lx _].
    pose proof (Zdigits2_bounds (Z.pos my) eq_refl) as [Ly _].
    pose proof (Zdigits2_pos (Z.pos mx) eq_refl) as Qx.
    pose proof (Zdigits2_pos (Z.pos my) eq_refl) as Qy.
    assert (D : Zdigits2 (Z.pos mx) + Zdigits2 (Z.pos my) - 1 <= Zdigits2 (Z.pos (mx * my))).
    { apply Zdigits2_ge; [lia|].
      replace (Zdigits2 (Z.pos mx) + Zdigits2 (Z.pos my) - 1 - 1)
        with ((Zdigits2 (Z.pos mx) - 1) + (Zdigits2 (Z.pos my) - 1)) by ring.
      rewrite Z.pow_add_r, Pos2Z.inj_mul by lia.
      apply Z.mul_le_mono_nonneg; try assumption; apply Z.pow_nonneg; lia. }
    unfold SpecFloat.fexp, SpecFloat.emin in *. lia.
  - discriminate.
  - rewrite E. split; [|now apply is_num_not_nan].
    replace (sgn sx * (IZR (Z.pos mx) * bpow ex) * (sgn sy * (IZR (Z.pos my) * bpow ey)))%R
      with (sgn (xorb sx sy) * v)%R by (rewrite sgn_xorb; unfold v; ring).
    apply rounds_to_signed; assumption.
Qed.

(** *** Division *)

Lemma new_location_spec nb k q :
  0 < nb -> 0 <= k < nb ->
  inbetween q (new_location nb k) (IZR q + IZR k / IZR nb).
Proof.
  intros Hnb [Hk0 Hk].
  assert (Pn : (0 < IZR nb)%R) by (apply IZR_lt; lia).
  assert (T : (IZR k / IZR nb * IZR nb = IZR k)%R) by (field; lra).
  generalize dependent (IZR k / IZR nb)%R. intros t T.
  assert (Z0 : k = 0 -> t = 0%R) by (intros K0; rewrite K0 in T; nra).
  assert (K : k <> 0 -> (0 < IZR k)%R) by (intros K0; apply IZR_lt; lia).
  apply IZR_lt in Hk.
  unfold new_location, new_location_even, new_location_odd.
  destruct (Z.even nb) eqn:Ev; destruct (Z.eqb_spec k 0) as [K0|K0];
    try (cbn [inbetween]; specialize (Z0 K0); lra); specialize (K K0).
  - destruct (Z.compare_spec (2 * k) nb) as [E|L|G]; cbn [inbetween].
    + apply (f_equal IZR) in E. rewrite mult_IZR in E. nra.
    + apply IZR_lt in L. rewrite mult_IZR in L. nra.
    + apply IZR_lt in G. rewrite mult_IZR in G. nra.
  - assert (O : 2 * k <> nb).
    { intros E. rewrite <- E, Z.even_mul in Ev. discriminate. }
    destruct (Z.compare_spec (2 * k + 1) nb) as [E|L|G]; cbn [inbetween].
    + assert (L : 2 * k < nb) by lia.
      apply IZR_lt in L. rewrite mult_IZR in L. nra.
    + assert (L' : 2 * k < nb) by lia.
      apply IZR_lt in L'. rewrite mult_IZR in L'. nra.
    + assert (G' : nb < 2 * k) by lia.
      apply IZR_lt in G'. rewrite mult_IZR in G'. nra.
Qed.

(** The quotient of two positive integers scaled by powers of two, mantissas of
    any size: [SFdiv] rounds it correctly. *)
Lemma SFdiv_finite_spec sx mx ex sy my ey :
  let x := S754_finite sx mx ex in
  let y := S754_finite sy my ey in
  rounds_to (SF2X x / SF2X y) (SF2X (SFdiv prec emax x y)) /\
  is_num (SFdiv prec emax x y) = true /\
  valid (SFdiv prec emax x y) = true.
Proof.
  cbn zeta.
  pose proof (bpow_gt_0 ey) as Py.
  assert (My : (0 < IZR (Z.pos my))%R) by (apply IZR_lt; lia).
  pose proof (bpow_gt_0 ex) as Px.
  assert (Mx : (0 < IZR (Z.pos mx))%R) by (apply IZR_lt; lia).
  cbn [SFdiv SF2X]. unfold SFdiv_core_binary.
  set (dx := Zdigits2 (Z.pos mx)). set (dy := Zdigits2 (Z.pos my)).
  set (e' := Z.min (fexp (dx + ex - (dy + ey))) (ex - ey)).
  set (s := ex - ey - e').
  assert (Hs : 0 <= s) by (unfold s, e'; lia).
  set (m' := match s with Z.pos _ => Z.shiftl (Z.pos mx) s | Z0 => Z.pos mx | Z.neg _ => 0 end).
  assert (Em : m' = Z.pos mx * 2 ^ s).
  { unfold m'. destruct s as [|p|p]; [ring| |lia].
    apply Z.shiftl_mul_pow2. lia. }
  clearbody m'.
  pose proof (Z_div_mod m' (Z.pos my) eq_refl) as DM.
  destruct (Z.div_eucl m' (Z.pos my)) as [q r]. destruct DM as [DM Rr].
  assert (P2 : 0 < 2 ^ s) by (apply Z.pow_pos_nonneg; lia).
  assert (Hq : 0 <= q) by nia.
  set (v := (IZR (Z.pos mx) * bpow ex / (IZR (Z.pos my) * bpow ey))%R).
  assert (Vp : (0 < v)%R).
  { apply Rdiv_lt_0_compat; apply Rmult_lt_0_compat; assumption. }
  pose proof (Zdigits2_bounds (Z.pos mx) eq_refl) as [Lx Ux].
  pose proof (Zdigits2_bounds (Z.pos my) eq_refl) as [Ly Uy].
  pose proof (Zdigits2_pos (Z.pos mx) eq_refl) as Qx.
  pose proof (Zdigits2_pos (Z.pos my) eq_refl) as Qy.
  fold dx in Lx, Ux, Qx. fold dy in Ly, Uy, Qy.
  (* a quotient scaled by at least [dy - dx + 1] bits is at least a power of two *)
  assert (Big : 0 <= dx - 1 + s - dy -> 2 ^ (dx - 1 + s - dy) <= q).
  { intros G.
    assert (A : 2 ^ (dx - 1 + s - dy) * 2 ^ dy <= m').
    { rewrite <- Z.pow_add_r by lia.
      replace (dx - 1 + s - dy + dy) with ((dx - 1) + s) by ring.
      rewrite Z.pow_add_r, Em by lia.
      apply Z.mul_le_mono_nonneg_r; lia. }
    assert (P3 : 0 < 2 ^ (dx - 1 + s - dy)) by (apply Z.pow_pos_nonneg; lia).
    nia. }
  assert (Small : q = 0 -> e' <= emin).
  { intros Q0. subst q.
    destruct (Z_le_gt_dec e' emin) as [C|C]; [assumption|exfalso].
    assert (0 <= dx - 1 + s - dy).
    { unfold s, e', SpecFloat.fexp in *. lia. }
    specialize (Big H).
    assert (0 < 2 ^ (dx - 1 + s - dy)) by (apply Z.pow_pos_nonneg; lia). lia. }
  destruct (binary_round_aux_spec (xorb sx sy) q e' (new_location (Z.pos my) r) v)
    as (r0 & R & E & N & W).
  - exact Vp.
  - exact Hq.
  - replace (v / bpow e')%R with (IZR q + IZR r / IZR (Z.pos my))%R.
    + apply new_location_spec; lia.
    + unfold v. replace ex with (s + ey + e') at 1 by (unfold s; ring).
      rewrite !bpow_add, (bpow_IZR s) by lia.
      apply (f_equal IZR) in DM. rewrite Em, plus_IZR, !mult_IZR in DM.
      pose proof (bpow_gt_0 e'). field_simplify; try lra.
      rewrite DM. field. lra.
  - destruct (Z.eq_dec q 0) as [Q0|Q0].
    + specialize (Small Q0). subst q. cbn [Zdigits2].
      unfold SpecFloat.fexp. lia.
    + assert (Qp : 0 < q) by lia.
      assert (D : dx + s - dy <= Zdigits2 q).
      { destruct (Z_le_gt_dec 0 (dx - 1 + s - dy)) as [C|C].
        - apply Zdigits2_ge; [assumption|].
          replace (dx + s - dy - 1) with (dx - 1 + s - dy) by ring. now apply Big.
        - pose proof (Zdigits2_pos q Qp). lia. }
      unfold s, e', SpecFloat.fexp in *. lia.
  - exact Small.
  - rewrite E. split; [|split; [now apply is_num_not_nan|exact W]].
    replace (sgn sx * (IZR (Z.pos mx) * bpow ex) / (sgn sy * (IZR (Z.pos my) * bpow ey)))%R
      with (sgn (xorb sx sy) * v)%R.
    + apply rounds_to_signed; assumption.
    + rewrite sgn_xorb. unfold v. destruct sx, sy; unfold sgn; field; lra.
Qed.

Lemma SFdiv_spec x sy my ey :
  valid x = true -> bounded prec emax my ey = true -> is_fin x = true ->
  let y := S754_finite sy my ey in
  rounds_to (SF2X x / SF2X y) (SF2X (SFdiv prec emax x y)) /\
  is_num (SFdiv prec emax x y) = true.
Proof.
  intros Vx Vy Fx y. subst y.
  destruct x as [sx|sx| |sx mx ex]; try discriminate.
  - cbn [SFdiv SF2X is_num]. split; [|reflexivity].
    unfold Rdiv. rewrite Rmult_0_l. apply rounds_to_0.
  - destruct (SFdiv_finite_spec sx mx ex sy my ey) as (A & B & _). now split.
Qed.

(** *** Addition and subtraction *)

Lemma Pos_iter_xO m d : Z.pos (Pos.iter xO m d) = Z.pos m * 2 ^ Z.pos d.
Proof.
  induction d as [|d IH] using Pos.peano_ind.
  - cbn [Pos.iter]. rewrite Pos2Z.inj_xO, Z.pow_1_r. ring.
  - rewrite Pos.iter_succ, Pos2Z.inj_xO, IH, Pos2Z.inj_succ, Z.pow_succ_r by lia. ring.
Qed.

Lemma shl_align_spec mx ex ex' :
  snd (shl_align mx ex ex') = Z.min ex ex' /\
  Z.pos (fst (shl_align mx ex ex')) = Z.pos mx * 2 ^ (ex - Z.min ex ex').
Proof.
  unfold shl_align. destruct (ex' - ex) as [|d|d] eqn:E; cbn [fst snd].
  - replace (Z.min ex ex') with ex by lia. rewrite Z.sub_diag. split; [reflexivity|ring].
  - replace (Z.min ex ex') with ex by lia. rewrite Z.sub_diag. split; [reflexivity|ring].
  - replace (Z.min ex ex') with ex' by lia. split; [reflexivity|].
    rewrite Pos_iter_xO. f_equal. f_equal. lia.
Qed.

Lemma shifted_value m e e' :
  e' <= e -> (IZR (m * 2 ^ (e - e')) * bpow e' = IZR m * bpow e)%R.
Proof.
  intros H. rewrite mult_IZR, <- bpow_IZR by lia.
  rewrite Rmult_assoc, <- bpow_add. f_equal. f_equal. ring.
Qed.

Lemma Zdigits2_shift m k : 0 < m -> 0 <= k -> Zdigits2 (m * 2 ^ k) = Zdigits2 m + k.
Proof.
  intros Hm Hk. pose proof (Zdigits2_bounds m Hm) as [L U].
  pose proof (Zdigits2_pos m Hm).
  assert (0 < 2 ^ k) by (apply Z.pow_pos_nonneg; lia).
  apply Zdigits2_unique; [nia|].
  replace (Zdigits2 m + k - 1) with ((Zdigits2 m - 1) + k) by ring.
  rewrite !Z.pow_add_r by lia. split; nia.
Qed.

Lemma binary_round_spec sx mx ex :
  exists r0, rnd_pos (IZR (Z.pos mx) * bpow ex) r0 /\
    SF2X (binary_round prec emax sx mx ex) = (sgn sx * Rmin r0 (bpow emax))%R /\
    binary_round prec emax sx mx ex <> S754_nan /\
    valid (binary_round prec emax sx mx ex) = true.
Proof.
  unfold binary_round.
  set (t := fexp (Z.pos (digits2_pos mx) + ex)).
  destruct (shl_align_spec mx ex t) as [E M].
  destruct (shl_align mx ex t) as [mz ez]. cbn [fst snd] in E, M.
  assert (Le : ez <= ex) by lia.
  assert (V : (IZR (Z.pos mz) * bpow ez = IZR (Z.pos mx) * bpow ex)%R).
  { rewrite M, <- E. now apply shifted_value. }
  rewrite <- V.
  assert (Mx : (0 < IZR (Z.pos mz))%R) by (apply IZR_lt; lia).
  pose proof (bpow_gt_0 ez) as Pz.
  apply binary_round_aux_spec.
  - nra.
  - lia.
  - cbn [inbetween]. field. lra.
  - rewrite M, <- E, Zdigits2_shift by lia.
    replace (Zdigits2 (Z.pos mx) + (ex - ez) + ez) with (Zdigits2 (Z.pos mx) + ex) by ring.
    change (Zdigits2 (Z.pos mx)) with (Z.pos (digits2_pos mx)). fold t. lia.
  - discriminate.
Qed.

Lemma binary_normalize_spec m e sz :
  rounds_to (IZR m * bpow e) (SF2X (binary_normalize prec emax m e sz)) /\
  is_num (binary_normalize prec emax m e sz) = true.
Proof.
  pose proof (bpow_gt_0 e) as Pe.
  destruct m as [|p|p]; cbn [binary_normalize].
  - split; [|reflexivity]. rewrite Rmult_0_l. apply rounds_to_0.
  - destruct (binary_round_spec false p e) as (r0 & R & E & N & W).
    rewrite E. split; [|now apply is_num_not_nan].
    replace (IZR (Z.pos p) * bpow e)%R with (sgn false * (IZR (Z.pos p) * bpow e))%R
      by (unfold sgn; ring).
    apply rounds_to_signed; [|assumption].
    assert (0 < IZR (Z.pos p))%R by (apply IZR_lt; lia). nra.
  - destruct (binary_round_spec true p e) as (r0 & R & E & N & W).
    rewrite E. split; [|now apply is_num_not_nan].
    replace (IZR (Z.neg p) * bpow e)%R with (sgn true * (IZR (Z.pos p) * bpow e))%R
      by (change (Z.neg p) with (- Z.pos p); rewrite opp_IZR; unfold sgn; ring).
    apply rounds_to_signed; [|assumption].
    assert (0 < IZR (Z.pos p))%R by (apply IZR_lt; lia). nra.
Qed.

Lemma IZR_cond_Zopp s m : IZR (cond_Zopp s m) = (sgn s * IZR m)%R.
Proof. destruct s; unfold cond_Zopp, sgn; [rewrite opp_IZR|]; ring. Qed.

Lemma aligned_value s m e e' :
  e' = Z.min e e' ->
  (IZR (cond_Zopp s (Z.pos (fst (shl_align m e e')))) * bpow e' =
   sgn s * (IZR (Z.pos m) * bpow e))%R.
Proof.
  intros H. destruct (shl_align_spec m e e') as [_ M].
  rewrite IZR_cond_Zopp, M, <- H, Rmult_assoc, shifted_value by lia. reflexivity.
Qed.

(** The sum and the difference of two finite floats are the exact ones,
    rounded. *)
Lemma SFadd_spec x y :
  valid x = true -> valid y = true -> is_fin x = true -> is_fin y = true ->
  rounds_to (SF2X x + SF2X y) (SF2X (SFadd prec emax x y)) /\
  is_num (SFadd prec emax x y) = true.
Proof.
  intros Vx Vy Fx Fy.
  destruct x as [sx|sx| |sx mx ex]; try discriminate;
  destruct y as [sy|sy| |sy my ey]; try discriminate.
  - split; [|now destruct sx, sy].
    replace (SF2X (SFadd prec emax (S754_zero sx) (S754_zero sy))) with 0%R
      by now destruct sx, sy.
    cbn [SF2X]. rewrite Rplus_0_l. apply rounds_to_0.
  - cbn [SFadd is_num]. split; [|reflexivity].
    replace (SF2X (S754_zero sx) + SF2X (S754_finite sy my ey))%R
      with (SF2X (S754_finite sy my ey)) by (cbn [SF2X]; ring).
    now apply rounds_to_id.
  - cbn [SFadd is_num]. split; [|reflexivity].
    replace (SF2X (S754_finite sx mx ex) + SF2X (S754_zero sy))%R
      with (SF2X (S754_finite sx mx ex)) by (cbn [SF2X]; ring).
    now apply rounds_to_id.
  - cbn [SFadd SF2X].
    set (ez := Z.min ex ey).
    match goal with |- context [binary_normalize prec emax ?m ez false] =>
      destruct (binary_normalize_spec m ez false) as [R N];
      replace (sgn sx * (IZR (Z.pos mx) * bpow ex) + sgn sy * (IZR (Z.pos my) * bpow ey))%R
        with (IZR m * bpow ez)%R; [now split|]
    end.
    rewrite plus_IZR, Rmult_plus_distr_r.
    rewrite !aligned_value by (unfold ez; lia). reflexivity.
Qed.

Lemma SFsub_spec x y :
  valid x = true -> valid y = true -> is_fin x = true -> is_fin y = true ->
  rounds_to (SF2X x - SF2X y) (SF2X (SFsub prec emax x y)) /\
  is_num (SFsub prec emax x y) = true.
Proof.
  intros Vx Vy Fx Fy.
  destruct x as [sx|sx| |sx mx ex]; try discriminate;
  destruct y as [sy|sy| |sy my ey]; try discriminate.
  - split; [|now destruct sx, sy].
    replace (SF2X (SFsub prec emax (S754_zero sx) (S754_zero sy))) with 0%R
      by now destruct sx, sy.
    cbn [SF2X]. rewrite Rminus_0_r. apply rounds_to_0.
  - cbn [SFsub is_num]. split; [|reflexivity].
    replace (SF2X (S754_zero sx) - SF2X (S754_finite sy my ey))%R
      with (SF2X (S754_finite (negb sy) my ey))
      by (cbn [SF2X]; rewrite sgn_negb; ring).
    now apply rounds_to_id.
  - cbn [SFsub is_num]. split; [|reflexivity].
    replace (SF2X (S754_finite sx mx ex) - SF2X (S754_zero sy))%R
      with (SF2X (S754_finite sx mx ex)) by (cbn [SF2X]; ring).
    now apply rounds_to_id.
  - cbn [SFsub SF2X].
    set (ez := Z.min ex ey).
    match goal with |- context [binary_normalize prec emax ?m ez false] =>
      destruct (binary_normalize_spec m ez false) as [R N];
      replace (sgn sx * (IZR (Z.pos mx) * bpow ex) - sgn sy * (IZR (Z.pos my) * bpow ey))%R
        with (IZR m * bpow ez)%R; [now split|]
    end.
    rewrite minus_IZR, Rmult_minus_distr_r.
    rewrite !aligned_value by (unfold ez; lia). reflexivity.
Qed.

(** *** The sign of a rounded difference *)

Lemma rounds_to_0_inv r : rounds_to 0 r -> r = 0%R.
Proof. intros [[_ ->]|[[P _]|[N _]]]; [reflexivity|lra|lra]. Qed.

Lemma bounded_1_emin : bounded prec emax 1 emin = true.
Proof.
  unfold bounded, canonical_mantissa. apply andb_true_iff. split.
  - apply Z.eqb_eq. cbn [digits2_pos]. unfold SpecFloat.fexp. lia.
  - apply Z.leb_le. apply emin_le_emax.
Qed.

Lemma rounds_to_tiny s :
  rounds_to (sgn s * bpow emin) (sgn s * bpow emin).
Proof.
  pose proof (rounds_to_id (S754_finite s 1 emin) bounded_1_emin eq_refl) as H.
  cbn [SF2X] in H. now rewrite Rmult_1_l in H.
Qed.

(** Finite floats are integer multiples of [2^emin]. *)
Lemma fin_grid x :
  valid x = true -> is_fin x = true -> exists k, SF2X x = (IZR k * bpow emin)%R.
Proof.
  destruct x as [s|s| |s m e]; try discriminate; intros V _.
  - exists 0. cbn [SF2X]. ring.
  - cbn [valid_binary] in V. apply bounded_inv in V. destruct V as (Be & _).
    exists (cond_Zopp s (Z.pos m * 2 ^ (e - emin))).
    cbn [SF2X]. rewrite IZR_cond_Zopp, Rmult_assoc, shifted_value by lia. reflexivity.
Qed.

(** A value of the grid keeps its sign when rounded: there is no underflow to
    zero in a difference of two floats. *)
Lemma rounds_to_grid_sign k r :
  rounds_to (IZR k * bpow emin) r ->
  ((r < 0)%R <-> k < 0) /\ ((0 < r)%R <-> 0 < k).
Proof.
  intros H. pose proof (bpow_gt_0 emin) as Pe.
  destruct (Z.lt_trichotomy k 0) as [L|[E|G]].
  - assert (IZR k <= -1)%R by (apply IZR_le; lia).
    assert (r <= -1 * bpow emin)%R.
    { apply (rounds_to_mono (IZR k * bpow emin) (-1 * bpow emin)); [nra|assumption|].
      exact (rounds_to_tiny true). }
    split; split; intros; try lia; lra.
  - subst k. rewrite Rmult_0_l in H. apply rounds_to_0_inv in H. subst r.
    split; split; intros; try lia; lra.
  - assert (1 <= IZR k)%R by (apply IZR_le; lia).
    assert (1 * bpow emin <= r)%R.
    { apply (rounds_to_mono (1 * bpow emin) (IZR k * bpow emin)); [nra| |assumption].
      exact (rounds_to_tiny false). }
    split; split; intros; try lia; lra.
Qed.

End Binary.

(** ** The nearest value and the error of a rounding *)

Lemma nearest_even_closest t n N : nearest_even t n -> (Rabs (IZR n - t) <= Rabs (IZR N - t))%R.
Proof.
  intros [B _]. destruct (Z.lt_trichotomy N n) as [L|[->|G]]; [|lra|].
  - assert (IZR N + 1 <= IZR n)%R by (rewrite <- plus_IZR; apply IZR_le; lia).
    unfold Rabs. repeat destruct Rcase_abs; lra.
  - assert (IZR n + 1 <= IZR N)%R by (rewrite <- plus_IZR; apply IZR_le; lia).
    unfold Rabs. repeat destruct Rcase_abs; lra.
Qed.

Section Nearest.
Variables prec emax : Z.
Hypothesis Hprec : 0 < prec.
Hypothesis Hemax : prec < emax.

Local Abbreviation emin := (SpecFloat.emin prec emax).
Local Abbreviation representable := (representable prec emax).

Lemma representable_opp X : representable X -> representable (- X).
Proof.
  intros [->|(s & m & e & B & ->)]; [left; ring|right].
  exists (negb s), m, e. split; [assumption|]. rewrite sgn_negb. ring.
Qed.

Lemma rnd_pos_grid v r0 :
  (0 < v)%R -> rnd_pos prec emax v r0 ->
  exists e n, emin <= e /\ r0 = (IZR n * bpow e)%R /\ cexp_of prec emax v e /\
              nearest_even (v / bpow e) n /\ 0 <= n <= 2 ^ prec.
Proof.
  intros Hv (e & n & C & N & ->). exists e, n.
  assert (G : emin <= e) by (destruct C as [_ [->|[G _]]]; lia).
  split; [assumption|]. split; [reflexivity|]. split; [assumption|].
  split; [assumption|]. split.
  - apply (nearest_even_ge _ _ _ N). pose proof (bpow_gt_0 e).
    apply Rlt_le, Rdiv_lt_0_compat; assumption.
  - apply (nearest_even_le _ _ _ N). rewrite <- bpow_IZR by lia.
    apply Rlt_le, scaled_lt. apply C.
Qed.

(** Some point of the grid of [v] is as close to [v] as [X] is. *)
Lemma grid_point_closer v e X :
  (0 < v)%R -> cexp_of prec emax v e -> representable X ->
  exists N, (Rabs (IZR N * bpow e - v) <= Rabs (X - v))%R.
Proof.
  intros Hv C HX. pose proof (bpow_gt_0 e) as Pe.
  assert (G : emin <= e) by (destruct C as [_ [->|[G _]]]; lia).
  assert (Neg : (X <= 0)%R -> exists N, (Rabs (IZR N * bpow e - v) <= Rabs (X - v))%R).
  { intros L. exists 0. rewrite Rmult_0_l.
    unfold Rabs. repeat destruct Rcase_abs; lra. }
  destruct HX as [->|(s & m & ex & B & ->)]; [apply Neg; lra|].
  assert (Pm : (0 < IZR (Z.pos m) * bpow ex)%R).
  { apply Rmult_lt_0_compat; [apply IZR_lt; lia|apply bpow_gt_0]. }
  destruct s; unfold sgn in *; [apply Neg; lra|]. rewrite Rmult_1_l.
  pose proof (bounded_inv prec emax m ex B) as (Be & Bd & _).
  destruct (Z_le_gt_dec e ex) as [L|L].
  - exists (Z.pos m * 2 ^ (ex - e)).
    rewrite mult_IZR, <- bpow_IZR by lia.
    replace (IZR (Z.pos m) * bpow (ex - e) * bpow e)%R with (IZR (Z.pos m) * bpow ex)%R;
      [lra|].
    replace ex with ((ex - e) + e) at 1 by ring. rewrite bpow_add. ring.
  - destruct C as [_ [->|[_ C]]]; [lia|].
    exists (2 ^ (prec - 1)). rewrite <- bpow_IZR, <- bpow_add by lia.
    replace (prec - 1 + e) with (e + prec - 1) by ring.
    pose proof (IZR_pos_lt_bpow m prec Bd) as U.
    assert (bpow prec * bpow ex <= bpow (e + prec - 1))%R
      by (rewrite <- bpow_add; apply bpow_le; lia).
    pose proof (bpow_gt_0 ex).
    assert (IZR (Z.pos m) * bpow ex < bpow (e + prec - 1))%R by nra.
    unfold Rabs. repeat destruct Rcase_abs; lra.
Qed.

Lemma rnd_pos_nearest v r0 X :
  (0 < v)%R -> rnd_pos prec emax v r0 -> representable X ->
  (Rabs (Rmin r0 (bpow emax) - v) <= Rabs (X - v))%R.
Proof.
  intros Hv H HX.
  destruct (rnd_pos_grid v r0 Hv H) as (e & n & G & -> & C & N & Bn).
  pose proof (bpow_gt_0 e) as Pe. pose proof (scaled_eq v e) as Sv.
  assert (Near : (Rabs (IZR n * bpow e - v) <= Rabs (X - v))%R).
  { destruct (grid_point_closer v e X Hv C HX) as [N' HN].
    eapply Rle_trans; [|exact HN].
    pose proof (nearest_even_closest _ _ N' N) as Cl.
    replace (IZR n * bpow e - v)%R with ((IZR n - v / bpow e) * bpow e)%R by lra.
    replace (IZR N' * bpow e - v)%R with ((IZR N' - v / bpow e) * bpow e)%R by lra.
    rewrite !Rabs_mult, (Rabs_right (bpow e)) by lra.
    apply Rmult_le_compat_r; lra. }
  destruct (Rle_dec (IZR n * bpow e) (bpow emax)) as [L|L].
  - now rewrite Rmin_left.
  - rewrite Rmin_right by lra.
    assert (XU : (X < bpow emax)%R).
    { pose proof (bpow_gt_0 emax).
      destruct HX as [->|(s & m & ex & B & ->)]; [lra|].
      pose proof (finite_value_bounds prec emax m ex B).
      pose proof (bpow_gt_0 emin). destruct s; unfold sgn; lra. }
    destruct (Rle_dec (bpow emax) v) as [Lv|Lv].
    + unfold Rabs. repeat destruct Rcase_abs; lra.
    + exfalso. apply L.
      assert (Un : (IZR n <= bpow prec)%R) by (rewrite bpow_IZR by lia; apply IZR_le; lia).
      assert (bpow prec * bpow e <= bpow emax)%R; [|nra].
      rewrite <- bpow_add. apply bpow_le.
      destruct C as [_ [->|[_ C]]]; [unfold SpecFloat.emin; lia|].
      assert (Q : (bpow (e + prec - 1) < bpow emax)%R) by lra.
      apply bpow_lt_inv in Q. lia.
Qed.

(** The value of a rounding is the closest that the format has. *)
Lemma rounds_to_nearest v r X :
  rounds_to prec emax v r -> representable X -> (Rabs (r - v) <= Rabs (X - v))%R.
Proof.
  intros [[-> ->]|[[P (r0 & H & ->)]|[Ng (r0 & H & ->)]]] HX.
  - rewrite Rminus_0_r, Rabs_R0. apply Rabs_pos.
  - now apply rnd_pos_nearest.
  - pose proof (rnd_pos_nearest (- v) r0 (- X) ltac:(lra) H (representable_opp X HX)) as Q.
    replace (- Rmin r0 (bpow emax) - v)%R with (- (Rmin r0 (bpow emax) - - v))%R by ring.
    replace (X - v)%R with (- (- X - - v))%R by ring.
    now rewrite !Rabs_Ropp.
Qed.

(** The error of a rounding: half a unit in the last place. *)
Lemma rounds_to_error v r :
  rounds_to prec emax v r -> (0 < v < bpow (emax - 1))%R ->
  (Rabs (r - v) <= Rmax (v * bpow (- prec)) (bpow (emin - 1)))%R.
Proof.
  intros [[-> ->]|[[P (r0 & H & ->)]|[Ng _]]] Hv; try lra.
  destruct (rnd_pos_grid v r0 P H) as (e & n & G & -> & C & [N _] & Bn).
  pose proof (bpow_gt_0 e) as Pe. pose proof (scaled_eq v e) as Sv.
  assert (E : (Rabs (IZR n * bpow e - v) <= bpow e / 2)%R).
  { unfold Rabs. destruct Rcase_abs; nra. }
  assert (M : (bpow e / 2 <= Rmax (v * bpow (- prec)) (bpow (emin - 1)))%R).
  { destruct C as [_ [->|[_ C]]].
    - eapply Rle_trans; [|apply Rmax_r].
      replace (SpecFloat.emin prec emax) with ((emin - 1) + 1) at 1 by ring.
      rewrite bpow_add, bpow_1. lra.
    - eapply Rle_trans; [|apply Rmax_l].
      replace e with ((e + prec - 1) + (1 - prec)) at 1 by ring.
      rewrite bpow_add.
      replace (1 - prec) with (1 + - prec) by ring. rewrite bpow_add, bpow_1.
      pose proof (bpow_gt_0 (- prec)). nra. }
  rewrite Rmin_left; [lra|].
  assert (Un : (IZR n <= bpow prec)%R) by (rewrite bpow_IZR by lia; apply IZR_le; lia).
  assert (bpow prec * bpow e <= bpow emax)%R; [|nra].
  rewrite <- bpow_add. apply bpow_le.
  destruct C as [_ [->|[_ C]]]; [unfold SpecFloat.emin; lia|].
  assert (Q : (bpow (e + prec - 1) < bpow (emax - 1))%R) by lra.
  apply bpow_lt_inv in Q. lia.
Qed.

End Nearest.

(** ** JavaScript numbers: IEEE 754 binary64 *)

Lemma prec_gt_0 : 0 < prec.
Proof. reflexivity. Qed.

Lemma prec_lt_emax : prec < emax.
Proof. reflexivity. Qed.

Ltac binary64 L :=
  first [ apply (L prec emax prec_gt_0 prec_lt_emax)
        | apply (L prec emax prec_gt_0)
        | apply (L prec emax) ];
  auto using Prim2SF_valid.

Lemma SFcompare_prim x y :
  num x -> num y ->
  exists c, SFcompare (Prim2SF x) (Prim2SF y) = Some c /\ Rcmp (F2R x) (F2R y) c.
Proof.
  intros Nx Ny.
  binary64 SFcompare_spec.
Qed.

Lemma SFcompare_nan_l x y : is_num x = false -> SFcompare x y = None.
Proof. destruct x; try discriminate. reflexivity. Qed.

Lemma SFcompare_nan_r x y : is_num y = false -> SFcompare x y = None.
Proof. destruct y; try discriminate. now destruct x. Qed.

Lemma is_num_dec x : {is_num x = true} + {is_num x = false}.
Proof. destruct (is_num x); auto. Qed.

(** The comparisons of numbers, read on their values. *)
Lemma leb_iff x y : (x <=? y)%float = true <-> num x /\ num y /\ (F2R x <= F2R y)%R.
Proof.
  rewrite FloatAxioms.leb_spec. unfold SFleb, num.
  destruct (is_num_dec (Prim2SF x)) as [Nx|Nx];
    [|rewrite SFcompare_nan_l, Nx by assumption; split; [discriminate|intros [? _]; discriminate]].
  destruct (is_num_dec (Prim2SF y)) as [Ny|Ny];
    [|rewrite SFcompare_nan_r, Ny by assumption; split; [discriminate|intros (_ & ? & _); discriminate]].
  destruct (SFcompare_prim x y Nx Ny) as (c & -> & C).
  split.
  - intros H. repeat split; try assumption. destruct C; try discriminate; lra.
  - intros (_ & _ & H). destruct C; try reflexivity. lra.
Qed.

Lemma ltb_iff x y : (x <? y)%float = true <-> num x /\ num y /\ (F2R x < F2R y)%R.
Proof.
  rewrite FloatAxioms.ltb_spec. unfold SFltb, num.
  destruct (is_num_dec (Prim2SF x)) as [Nx|Nx];
    [|rewrite SFcompare_nan_l, Nx by assumption; split; [discriminate|intros [? _]; discriminate]].
  destruct (is_num_dec (Prim2SF y)) as [Ny|Ny];
    [|rewrite SFcompare_nan_r, Ny by assumption; split; [discriminate|intros (_ & ? & _); discriminate]].
  destruct (SFcompare_prim x y Nx Ny) as (c & -> & C).
  split.
  - intros H. repeat split; try assumption. destruct C; try discriminate; lra.
  - intros (_ & _ & H). destruct C; try reflexivity; lra.
Qed.

Lemma eqb_iff x y : (x =? y)%float = true <-> num x /\ num y /\ F2R x = F2R y.
Proof.
  rewrite FloatAxioms.eqb_spec. unfold SFeqb, num.
  destruct (is_num_dec (Prim2SF x)) as [Nx|Nx];
    [|rewrite SFcompare_nan_l, Nx by assumption; split; [discriminate|intros [? _]; discriminate]].
  destruct (is_num_dec (Prim2SF y)) as [Ny|Ny];
    [|rewrite SFcompare_nan_r, Ny by assumption; split; [discriminate|intros (_ & ? & _); discriminate]].
  destruct (SFcompare_prim x y Nx Ny) as (c & -> & C).
  split.
  - intros H. repeat split; try assumption. destruct C; try discriminate; lra.
  - intros (_ & _ & H). destruct C; try reflexivity; lra.
Qed.

Lemma is_nan_iff x : is_nan x = false <-> num x.
Proof.
  unfold is_nan. rewrite FloatAxioms.eqb_spec. unfold SFeqb, num.
  destruct (is_num_dec (Prim2SF x)) as [Nx|Nx].
  - destruct (SFcompare_prim x x Nx Nx) as (c & -> & C).
    destruct C; try lra. now split.
  - rewrite SFcompare_nan_l, Nx by assumption. split; discriminate.
Qed.

Lemma F2R_range x : (- bpow emax <= F2R x <= bpow emax)%R.
Proof. binary64 X_range. Qed.

Lemma fin_range x : fin x -> (- bpow emax < F2R x < bpow emax)%R.
Proof. binary64 X_fin_range. Qed.

Lemma fin_of_range x : num x -> (- bpow emax < F2R x < bpow emax)%R -> fin x.
Proof.
  unfold num, fin, F2R. pose proof (bpow_gt_0 emax).
  destruct (Prim2SF x) as [s|s| |s m e]; cbn [SF2X is_num is_fin]; try easy.
  destruct s; unfold sgn; lra.
Qed.

Lemma rounds_mono v1 v2 r1 r2 :
  (v1 <= v2)%R -> rounds v1 r1 -> rounds v2 r2 -> (r1 <= r2)%R.
Proof. binary64 rounds_to_mono. Qed.

Lemma mul_R x y :
  fin x -> fin y -> rounds (F2R x * F2R y) (F2R (x * y)) /\ num (x * y).
Proof.
  intros Fx Fy. unfold F2R, num. rewrite mul_spec.
  binary64 SFmul_spec.
Qed.

Lemma add_R x y :
  fin x -> fin y -> rounds (F2R x + F2R y) (F2R (x + y)) /\ num (x + y).
Proof.
  intros Fx Fy. unfold F2R, num. rewrite add_spec.
  binary64 SFadd_spec.
Qed.

Lemma sub_R x y :
  fin x -> fin y -> rounds (F2R x - F2R y) (F2R (x - y)) /\ num (x - y).
Proof.
  intros Fx Fy. unfold F2R, num. rewrite sub_spec.
  binary64 SFsub_spec.
Qed.

Lemma div_R x y :
  fin x -> fin y -> F2R y <> 0%R -> rounds (F2R x / F2R y) (F2R (x / y)) /\ num (x / y).
Proof.
  intros Fx Fy Ny. unfold F2R, num in *. rewrite div_spec.
  pose proof (Prim2SF_valid y) as Vy. unfold fin in Fy.
  destruct (Prim2SF y) as [s|s| |s m e]; try discriminate.
  - now elim Ny.
  - binary64 SFdiv_spec.
Qed.

Lemma num_cases x :
  num x -> fin x \/ exists s, Prim2SF x = S754_infinity s.
Proof.
  unfold num, fin. destruct (Prim2SF x) as [s|s| |s m e]; try discriminate; eauto.
Qed.

Lemma F2R_inf x s : Prim2SF x = S754_infinity s -> F2R x = (sgn s * bpow emax)%R.
Proof. unfold F2R. now intros ->. Qed.

Lemma num_inf x s : Prim2SF x = S754_infinity s -> num x.
Proof. unfold num. now intros ->. Qed.

(** *** Monotone functions on numbers *)

Lemma monotone_comp F G :
  monotone F -> monotone G -> monotone (fun x => G (F x)).
Proof.
  intros HF HG x y Nx Ny L.
  destruct (HF x y Nx Ny L) as (Nfx & Nfy & Lf).
  exact (HG _ _ Nfx Nfy Lf).
Qed.

(** A function that rounds a monotone function of the value on finite numbers
    and keeps the infinities is monotone. *)
Lemma monotone_intro F (g : R -> R) :
  (forall x, fin x -> rounds (g (F2R x)) (F2R (F x)) /\ num (F x)) ->
  (forall x s, Prim2SF x = S754_infinity s -> Prim2SF (F x) = S754_infinity s) ->
  (forall a b, (a <= b)%R -> (g a <= g b)%R) ->
  monotone F.
Proof.
  intros Hfin Hinf Hg x y Nx Ny L.
  pose proof (bpow_gt_0 emax) as Pm.
  assert (NF : forall z, num z -> num (F z)).
  { intros z Nz. destruct (num_cases z Nz) as [Fz|[s Ez]].
    - apply Hfin, Fz.
    - eapply num_inf, Hinf, Ez. }
  split; [now apply NF|]. split; [now apply NF|].
  destruct (num_cases x Nx) as [Fx|[sx Ex]]; destruct (num_cases y Ny) as [Fy|[sy Ey]].
  - destruct (Hfin x Fx) as [Rx _]. destruct (Hfin y Fy) as [Ry _].
    eapply rounds_mono; [|exact Rx|exact Ry]. now apply Hg.
  - pose proof (fin_range x Fx). rewrite (F2R_inf y sy Ey) in L.
    rewrite (F2R_inf _ _ (Hinf y sy Ey)).
    pose proof (F2R_range (F x)).
    destruct sy; unfold sgn in *; lra.
  - pose proof (fin_range y Fy). rewrite (F2R_inf x sx Ex) in L.
    rewrite (F2R_inf _ _ (Hinf x sx Ex)).
    pose proof (F2R_range (F y)).
    destruct sx; unfold sgn in *; lra.
  - rewrite (F2R_inf x sx Ex), (F2R_inf y sy Ey) in L.
    rewrite (F2R_inf _ _ (Hinf x sx Ex)), (F2R_inf _ _ (Hinf y sy Ey)).
    exact L.
Qed.

Lemma fin_pos_inv c :
  fin c -> (0 < F2R c)%R -> exists m e, Prim2SF c = S754_finite false m e.
Proof.
  unfold fin, F2R. destruct (Prim2SF c) as [s|s| |s m e]; try discriminate;
    cbn [SF2X]; intros _ H; [lra|].
  destruct s; [|eauto].
  assert (0 < IZR (Z.pos m))%R by (apply IZR_lt; lia).
  pose proof (bpow_gt_0 e). unfold sgn in H. nra.
Qed.

Lemma monotone_div c : fin c -> (0 < F2R c)%R -> monotone (fun x => x / c)%float.
Proof.
  intros Fc Pc. apply (monotone_intro _ (fun a => a / F2R c)%R).
  - intros x Fx. apply div_R; [assumption|assumption|lra].
  - intros x s E. destruct (fin_pos_inv c Fc Pc) as (m & e & Ec).
    rewrite div_spec, E, Ec. cbn. now destruct s.
  - intros a b L. unfold Rdiv. apply Rmult_le_compat_r; [|assumption].
    apply Rlt_le, Rinv_0_lt_compat, Pc.
Qed.

Lemma monotone_mul c : fin c -> (0 < F2R c)%R -> monotone (fun x => x * c)%float.
Proof.
  intros Fc Pc. apply (monotone_intro _ (fun a => a * F2R c)%R).
  - intros x Fx. now apply mul_R.
  - intros x s E. destruct (fin_pos_inv c Fc Pc) as (m & e & Ec).
    rewrite mul_spec, E, Ec. cbn. now destruct s.
  - intros a b L. apply Rmult_le_compat_r; lra.
Qed.

Lemma monotone_add c : fin c -> monotone (fun x => c + x)%float.
Proof.
  intros Fc. apply (monotone_intro _ (fun a => F2R c + a)%R).
  - intros x Fx. now apply add_R.
  - intros x s E. rewrite add_spec, E. unfold fin in Fc.
    destruct (Prim2SF c); try discriminate; reflexivity.
  - intros a b L. lra.
Qed.

(** *** The sign of a difference *)

Lemma F2R_zero : F2R 0 = 0%R.
Proof. reflexivity. Qed.

Lemma num_zero : num 0.
Proof. reflexivity. Qed.

Lemma fin_F2R_grid x : fin x -> exists k, F2R x = (IZR k * bpow emin)%R.
Proof. binary64 fin_grid. Qed.

Ltac sign_cases :=
  repeat match goal with H : _ /\ _ |- _ => destruct H end;
  first [ discriminate | lra | repeat split; first [assumption | lra] ].

(** The sign of [b - a] tells how [a] and [b] compare: a difference of two
    numbers does not underflow to zero, and [Infinity - Infinity] is [NaN]. *)
Lemma sub_sign a b :
  num a -> num b ->
  ((b - a <? 0)%float = true <-> (F2R b < F2R a)%R) /\
  ((0 <? b - a)%float = true <-> (F2R a < F2R b)%R).
Proof.
  intros Na Nb. rewrite !ltb_iff, F2R_zero.
  pose proof num_zero as N0. pose proof (bpow_gt_0 emax) as Pm.
  destruct (num_cases a Na) as [Fa|[sa Ea]]; destruct (num_cases b Nb) as [Fb|[sb Eb]].
  - destruct (sub_R b a Fb Fa) as [Rd Nd].
    destruct (fin_F2R_grid a Fa) as [ka Ka]. destruct (fin_F2R_grid b Fb) as [kb Kb].
    rewrite Ka, Kb in *.
    replace (IZR kb * bpow emin - IZR ka * bpow emin)%R
      with (IZR (kb - ka) * bpow emin)%R in Rd by (rewrite minus_IZR; ring).
    apply (rounds_to_grid_sign prec emax prec_gt_0 prec_lt_emax) in Rd.
    destruct Rd as [S1 S2]. pose proof (bpow_gt_0 emin) as Pe.
    assert (Q1 : kb - ka < 0 <-> (IZR kb * bpow emin < IZR ka * bpow emin)%R).
    { split; intros H.
      - assert (IZR kb < IZR ka)%R by (apply IZR_lt; lia). nra.
      - assert (IZR kb < IZR ka)%R by nra. apply lt_IZR in H0. lia. }
    assert (Q2 : 0 < kb - ka <-> (IZR ka * bpow emin < IZR kb * bpow emin)%R).
    { split; intros H.
      - assert (IZR ka < IZR kb)%R by (apply IZR_lt; lia). nra.
      - assert (IZR ka < IZR kb)%R by nra. apply lt_IZR in H0. lia. }
    tauto.
  - pose proof (fin_range a Fa).
    assert (E : Prim2SF (b - a) = S754_infinity sb).
    { rewrite sub_spec, Eb. unfold fin in Fa. destruct (Prim2SF a); try discriminate; reflexivity. }
    rewrite (F2R_inf _ _ E), (F2R_inf _ _ Eb). pose proof (num_inf _ _ E).
    destruct sb; unfold sgn; split; split; intros; sign_cases.
  - pose proof (fin_range b Fb).
    assert (E : Prim2SF (b - a) = S754_infinity (negb sa)).
    { rewrite sub_spec, Ea. unfold fin in Fb. destruct (Prim2SF b); try discriminate; reflexivity. }
    rewrite (F2R_inf _ _ E), (F2R_inf _ _ Ea). pose proof (num_inf _ _ E).
    destruct sa; unfold sgn; cbn [negb]; split; split; intros; sign_cases.
  - rewrite (F2R_inf _ _ Ea), (F2R_inf _ _ Eb).
    assert (E : Prim2SF (b - a) =
                if Bool.eqb sa sb then S754_nan else S754_infinity sb).
    { rewrite sub_spec, Ea, Eb. now destruct sa, sb. }
    destruct sa, sb; cbn [Bool.eqb] in E;
      try (assert (~ num (b - a)) by (unfold num; rewrite E; discriminate);
           unfold sgn; split; split; intros; [tauto|lra|tauto|lra]);
      rewrite (F2R_inf _ _ E); pose proof (num_inf _ _ E);
      unfold sgn; split; split; intros; sign_cases.
Qed.

(** *** Rounding is to the nearest number *)

Lemma fin_representable x : fin x -> representable prec emax (F2R x).
Proof.
  unfold fin, F2R. pose proof (Prim2SF_valid x) as V.
  destruct (Prim2SF x) as [s|s| |s m e]; try discriminate; intros _; cbn [SF2X].
  - now left.
  - right. exists s, m, e. now split.
Qed.

Lemma rounds_nearest v r x :
  rounds v r -> fin x -> (Rabs (r - v) <= Rabs (F2R x - v))%R.
Proof.
  intros H Fx. apply (rounds_to_nearest prec emax prec_gt_0 prec_lt_emax v r); [exact H|].
  now apply fin_representable.
Qed.

Lemma rounds_error v r :
  rounds v r -> (0 < v < bpow 1023)%R ->
  (Rabs (r - v) <= Rmax (v * bpow (- 53)) (bpow (- 1075)))%R.
Proof. exact (rounds_to_error prec emax prec_gt_0 prec_lt_emax v r). Qed.

Lemma rounds_fun v r1 r2 : rounds v r1 -> rounds v r2 -> r1 = r2.
Proof.
  intros H1 H2. apply Rle_antisym; eapply rounds_mono; try eassumption; lra.
Qed.

Lemma rounds_id x : fin x -> rounds (F2R x) (F2R x).
Proof. intros H. binary64 rounds_to_id. Qed.

Lemma rounds_opp v r : rounds v r -> rounds (- v) (- r).
Proof.
  intros [[-> ->]|[[P (r0 & H & ->)]|[Ng (r0 & H & ->)]]].
  - left. split; ring.
  - right; right. split; [lra|]. exists r0. split; [|reflexivity].
    now replace (- - v)%R with v by ring.
  - right; left. split; [lra|]. exists r0. split; [assumption|ring].
Qed.

(** *** Absolute values, signs and constants *)

Lemma abs_F2R x : F2R (abs x) = Rabs (F2R x).
Proof.
  unfold F2R. rewrite abs_spec. pose proof (bpow_gt_0 emax) as Pm.
  destruct (Prim2SF x) as [s|s| |s m e]; cbn [SFabs SF2X].
  - now rewrite Rabs_R0.
  - destruct s; unfold sgn; [rewrite Rabs_left|rewrite Rabs_right]; lra.
  - now rewrite Rabs_R0.
  - assert (0 < IZR (Z.pos m) * bpow e)%R.
    { apply Rmult_lt_0_compat; [apply IZR_lt; lia|apply bpow_gt_0]. }
    destruct s; unfold sgn; [rewrite Rabs_left|rewrite Rabs_right]; lra.
Qed.

Lemma num_zero_inv x : num x -> F2R x = 0%R -> exists s, Prim2SF x = S754_zero s.
Proof.
  unfold num, F2R. destruct (Prim2SF x) as [s|s| |s m e]; try discriminate; intros _ H.
  - eauto.
  - exfalso. cbn [SF2X] in H. pose proof (bpow_gt_0 emax). destruct s; unfold sgn in H; lra.
  - exfalso. cbn [SF2X] in H.
    assert (0 < IZR (Z.pos m) * bpow e)%R
      by (apply Rmult_lt_0_compat; [apply IZR_lt; lia|apply bpow_gt_0]).
    destruct s; unfold sgn in H; lra.
Qed.

Lemma sign_of_negative x : (x <? 0)%float = true -> Rabs (F2R x) = (- F2R x)%R.
Proof.
  intros H. apply ltb_iff in H. destruct H as (_ & _ & H). rewrite F2R_zero in H.
  apply Rabs_left, H.
Qed.

Lemma sign_of_nonnegative x :
  fin x -> (x <? 0)%float = false -> Rabs (F2R x) = F2R x.
Proof.
  intros Fx H. apply Rabs_right, Rle_ge.
  destruct (Rle_dec 0 (F2R x)) as [L|L]; [assumption|exfalso].
  assert (T : (x <? 0)%float = true).
  { apply ltb_iff. rewrite F2R_zero. split; [|split; [reflexivity|lra]].
    unfold fin in Fx. unfold num. now destruct (Prim2SF x). }
  congruence.
Qed.

Lemma F2R_opp x : F2R (- x)%float = (- F2R x)%R.
Proof.
  unfold F2R. rewrite opp_spec.
  destruct (Prim2SF x) as [s|s| |s m e]; cbn [SFopp SF2X]; rewrite ?sgn_negb; ring.
Qed.

Lemma num_opp x : num x -> num (- x)%float.
Proof. unfold num. rewrite opp_spec. now destruct (Prim2SF x). Qed.

Lemma num_abs x : num x -> num (abs x).
Proof. unfold num. rewrite abs_spec. now destruct (Prim2SF x). Qed.


Lemma bpow_neg_IZR k : 0 <= k -> (IZR (2 ^ k) * bpow (- k) = 1)%R.
Proof.
  intros H. rewrite <- bpow_IZR, <- bpow_add by assumption.
  now replace (k + - k) with 0 by ring.
Qed.

Lemma F2R_finite_int x s m e k :
  Prim2SF x = S754_finite s m e -> e <= 0 -> Z.pos m = k * 2 ^ (- e) ->
  F2R x = (sgn s * IZR k)%R.
Proof.
  intros E He Hk. unfold F2R. rewrite E. cbn [SF2X].
  rewrite Hk, mult_IZR.
  replace e with (- - e) at 2 by ring. rewrite bpow_opp, (bpow_IZR (- e)) by lia.
  assert (0 < 2 ^ (- e)) by (apply Z.pow_pos_nonneg; lia).
  assert (0 < IZR (2 ^ (- e)))%R by (apply IZR_lt; assumption).
  field. lra.
Qed.

Ltac F2R_constant k :=
  erewrite (F2R_finite_int _ _ _ _ k); [|vm_compute; reflexivity|discriminate|reflexivity];
  unfold sgn; lra.

(** A product with a factor between -1 and 1 is no larger than the other
    factor, rounding included. *)
Lemma mul_contracts c d :
  (-1 <=? c)%float = true -> (c <=? 1)%float = true ->
  fin d -> (0 <= F2R d)%R ->
  num (c * d)%float /\ (- F2R d <= F2R (c * d)%float <= F2R d)%R.
Proof.
  intros L U Fd Pd. apply leb_iff in L, U.
  destruct L as (_ & Nc & L). destruct U as (_ & _ & U).
  assert (E1 : F2R 1 = 1%R) by F2R_constant 1.
  assert (Em : F2R (-1) = (-1)%R) by F2R_constant 1.
  rewrite Em in L. rewrite E1 in U.
  assert (Fc : fin c).
  { apply fin_of_range; [assumption|].
    assert (1 < bpow emax)%R by (rewrite bpow_IZR by discriminate; apply IZR_lt; reflexivity).
    lra. }
  destruct (mul_R c d Fc Fd) as [R N]. split; [assumption|].
  pose proof (rounds_id d Fd) as Rd. pose proof (rounds_opp _ _ Rd) as Ro.
  split.
  - apply (rounds_mono (- F2R d) (F2R c * F2R d)); [nra|assumption|assumption].
  - apply (rounds_mono (F2R c * F2R d) (F2R d)); [nra|assumption|assumption].
Qed.

(** * Part IV: lemmas on the program *)

Local Open Scope float_scope.

(** ** The radial bands *)

Lemma distance_anomaly tx :
  is_anomaly tx = true ->
  distance tx = anomalyDistance (parseFloat (anomaly_percentage tx)).
Proof. unfold distance. now intros ->. Qed.

Lemma distance_normal tx :
  is_anomaly tx = false ->
  distance tx = normalDistance (parseFloat (anomaly_percentage tx)).
Proof. unfold distance. now intros ->. Qed.

Lemma F2R_infinity : F2R infinity = bpow emax.
Proof. unfold F2R. change (Prim2SF infinity) with (S754_infinity false). cbn. unfold sgn. lra. Qed.

(** A positive constant, checked by evaluation. *)
Lemma positive_constant c :
  (0 <? c) = true -> (c <? infinity) = true -> fin c /\ (0 < F2R c)%R.
Proof.
  intros H0 Hi. apply ltb_iff in H0, Hi.
  destruct H0 as (_ & Nc & P). destruct Hi as (_ & _ & U).
  rewrite F2R_zero in P. rewrite F2R_infinity in U.
  split; [|assumption]. apply fin_of_range; [assumption|].
  pose proof (bpow_gt_0 emax). lra.
Qed.

Lemma monotone_anomalyDistance : monotone anomalyDistance.
Proof.
  destruct (positive_constant 100 eq_refl eq_refl) as [F1 P1].
  destruct (positive_constant (radius - innerRadius) eq_refl eq_refl) as [F2 P2].
  destruct (positive_constant innerRadius eq_refl eq_refl) as [F3 _].
  exact (monotone_comp _ _
           (monotone_comp _ _ (monotone_div 100 F1 P1)
              (monotone_mul (radius - innerRadius) F2 P2))
           (monotone_add innerRadius F3)).
Qed.

Lemma monotone_normalDistance : monotone normalDistance.
Proof.
  destruct (positive_constant 100 eq_refl eq_refl) as [F1 P1].
  destruct (positive_constant innerRadius eq_refl eq_refl) as [F2 P2].
  destruct (positive_constant 0x1.ccccccccccccdp-1 eq_refl eq_refl) as [F3 P3].
  exact (monotone_comp _ _
           (monotone_comp _ _ (monotone_div 100 F1 P1) (monotone_mul innerRadius F2 P2))
           (monotone_mul 0x1.ccccccccccccdp-1 F3 P3)).
Qed.

Lemma monotone_leb F a b :
  monotone F -> (a <=? b) = true -> (F a <=? F b) = true.
Proof.
  intros M H. apply leb_iff in H. destruct H as (Na & Nb & L).
  apply leb_iff. exact (M a b Na Nb L).
Qed.

(** The bands of the two kinds of records: each bound follows from one bound
    on the score. *)
Lemma anomaly_lower score :
  (0 <=? score) = true -> (innerRadius <=? anomalyDistance score) = true.
Proof. exact (monotone_leb _ 0 score monotone_anomalyDistance). Qed.

Lemma anomaly_upper score :
  (score <=? 100) = true -> (anomalyDistance score <=? radius) = true.
Proof. exact (monotone_leb _ score 100 monotone_anomalyDistance). Qed.

Lemma normal_lower score :
  (0 <=? score) = true -> (0 <=? normalDistance score) = true.
Proof. exact (monotone_leb _ 0 score monotone_normalDistance). Qed.

Lemma normal_upper score :
  (score <=? 100) = true ->
  (normalDistance score <=? 0x1.ccccccccccccdp-1 * innerRadius) = true.
Proof. exact (monotone_leb _ score 100 monotone_normalDistance). Qed.

Lemma normal_between score :
  (-100 <=? score) = true ->
  (- (0x1.ccccccccccccdp-1 * innerRadius) <=? normalDistance score) = true.
Proof. exact (monotone_leb _ (-100) score monotone_normalDistance). Qed.



Local Close Scope float_scope.

(** ** Sorting with a consistent comparator *)

Section SortFacts.
Context {A : Type}.
Variable comparefn : A -> A -> float.
(** [ok x] holds of the elements the comparator is consistent on; [before x y]
    is the order that the sorted array has to respect. *)
Variable ok : A -> Prop.
Variable before : A -> A -> Prop.
Hypothesis before_trans : forall x y z, before x y -> before y z -> before x z.
Hypothesis swap : forall x y, ok x -> ok y ->
  (0 <? SortCompare comparefn x y)%float = true -> before y x.
Hypothesis keep : forall x y, ok x -> ok y ->
  (0 <? SortCompare comparefn x y)%float = false -> before x y.

Lemma insert_perm x l : Permutation (insert comparefn x l) (x :: l).
Proof.
  induction l as [|y r IH]; cbn [insert]; [reflexivity|].
  destruct (0 <? SortCompare comparefn x y)%float; [|reflexivity].
  rewrite IH. apply perm_swap.
Qed.

Lemma sort_perm l : Permutation (sort comparefn l) l.
Proof.
  induction l as [|x r IH]; cbn [sort]; [reflexivity|].
  rewrite insert_perm. now constructor.
Qed.

Lemma insert_sorted x l :
  ok x -> Forall ok l ->
  StronglySorted before l -> StronglySorted before (insert comparefn x l).
Proof.
  intros Hx Hl S. induction S as [|y r S IH F]; cbn [insert].
  - repeat constructor.
  - apply Forall_cons_iff in Hl. destruct Hl as [Hy Hr].
    destruct (0 <? SortCompare comparefn x y)%float eqn:E.
    + constructor; [now apply IH|].
      rewrite insert_perm. constructor; [|assumption]. now apply swap.
    + pose proof (keep x y Hx Hy E) as B.
      constructor; [now constructor|].
      constructor; [assumption|].
      eapply Forall_impl; [|exact F]. intros z Hz. now apply before_trans with y.
Qed.

Lemma sort_sorted l : Forall ok l -> StronglySorted before (sort comparefn l).
Proof.
  induction l as [|x r IH]; cbn [sort]; intros H; [constructor|].
  apply Forall_cons_iff in H. destruct H as [Hx Hr].
  apply insert_sorted; [assumption| |now apply IH].
  rewrite sort_perm. assumption.
Qed.

(** Stability: the elements of a class [p] that the comparator never orders
    against each other keep their order. *)
Variable p : A -> bool.
Hypothesis apart : forall x y, ok x -> ok y ->
  (0 <? SortCompare comparefn x y)%float = true -> p x = true -> p y = false.

Lemma insert_filter x l :
  ok x -> Forall ok l -> filter p (insert comparefn x l) = filter p (x :: l).
Proof.
  intros Hx Hl. induction l as [|y r IH]; cbn [insert]; [reflexivity|].
  apply Forall_cons_iff in Hl. destruct Hl as [Hy Hr].
  destruct (0 <? SortCompare comparefn x y)%float eqn:E; [|reflexivity].
  cbn [filter] in *. rewrite (IH Hr).
  destruct (p x) eqn:Px; [|reflexivity].
  now rewrite (apart x y Hx Hy E Px).
Qed.

Lemma sort_filter l :
  Forall ok l -> filter p (sort comparefn l) = filter p l.
Proof.
  induction l as [|x r IH]; cbn [sort]; intros H; [reflexivity|].
  apply Forall_cons_iff in H. destruct H as [Hx Hr].
  rewrite insert_filter; [|assumption|rewrite sort_perm; assumption].
  cbn [filter]. now rewrite (IH Hr).
Qed.

End SortFacts.

(** ** The order of the table after [handleSort] *)

Lemma leb_trans a b c :
  (a <=? b)%float = true -> (b <=? c)%float = true -> (a <=? c)%float = true.
Proof.
  rewrite !leb_iff. intros (Na & Nb & L1) (_ & Nc & L2). repeat split; try assumption. lra.
Qed.

Lemma SortCompare_gt {A} (f : A -> A -> float) x y :
  (0 <? SortCompare f x y)%float = (0 <? f x y)%float.
Proof.
  unfold SortCompare. destruct (is_nan (f x y)) eqn:E; [|reflexivity].
  symmetry. apply not_true_is_false. intros H. apply ltb_iff in H.
  destruct H as (_ & N & _). apply is_nan_iff in N. congruence.
Qed.

Lemma compareScores_desc a b :
  numeric a -> numeric b ->
  ((0 <? SortCompare (compareScores desc) a b)%float = true ->
     (scoreOf a <=? scoreOf b)%float = true) /\
  ((0 <? SortCompare (compareScores desc) a b)%float = false ->
     (scoreOf b <=? scoreOf a)%float = true).
Proof.
  unfold numeric. intros Na Nb. apply is_nan_iff in Na, Nb.
  rewrite SortCompare_gt. cbn [compareScores]. fold (scoreOf a) (scoreOf b).
  destruct (sub_sign (scoreOf a) (scoreOf b) Na Nb) as [_ S].
  split; intros H; apply leb_iff; repeat split; try assumption.
  - apply S in H. lra.
  - destruct (Rle_dec (F2R (scoreOf b)) (F2R (scoreOf a))) as [L|L]; [assumption|].
    assert (T : (0 <? scoreOf b - scoreOf a)%float = true) by (apply S; lra).
    congruence.
Qed.

Lemma compareScores_asc a b :
  numeric a -> numeric b ->
  ((0 <? SortCompare (compareScores asc) a b)%float = true ->
     (scoreOf b <=? scoreOf a)%float = true) /\
  ((0 <? SortCompare (compareScores asc) a b)%float = false ->
     (scoreOf a <=? scoreOf b)%float = true).
Proof.
  unfold numeric. intros Na Nb. apply is_nan_iff in Na, Nb.
  rewrite SortCompare_gt. cbn [compareScores]. fold (scoreOf a) (scoreOf b).
  destruct (sub_sign (scoreOf b) (scoreOf a) Nb Na) as [_ S].
  split; intros H; apply leb_iff; repeat split; try assumption.
  - apply S in H. lra.
  - destruct (Rle_dec (F2R (scoreOf a)) (F2R (scoreOf b))) as [L|L]; [assumption|].
    assert (T : (0 <? scoreOf a - scoreOf b)%float = true) by (apply S; lra).
    congruence.
Qed.

Lemma sort_desc txs :
  Forall numeric txs -> descending (sort (compareScores desc) txs).
Proof.
  apply (sort_sorted (compareScores desc) numeric).
  - intros x y z H1 H2. exact (leb_trans _ _ _ H2 H1).
  - intros x y Hx Hy. apply (compareScores_desc x y Hx Hy).
  - intros x y Hx Hy. apply (compareScores_desc x y Hx Hy).
Qed.

Lemma sort_asc txs :
  Forall numeric txs -> ascending (sort (compareScores asc) txs).
Proof.
  apply (sort_sorted (compareScores asc) numeric).
  - intros x y z H1 H2. exact (leb_trans _ _ _ H1 H2).
  - intros x y Hx Hy. apply (compareScores_asc x y Hx Hy).
  - intros x y Hx Hy. apply (compareScores_asc x y Hx Hy).
Qed.

(** The sort of [handleSort] is stable: records with the same parsed score keep
    the order they had. *)
Lemma sort_stable order k txs :
  Forall numeric txs ->
  filter (fun tx => (scoreOf tx =? k)%float) (sort (compareScores order) txs) =
  filter (fun tx => (scoreOf tx =? k)%float) txs.
Proof.
  apply (sort_filter (compareScores order) numeric).
  intros x y Hx Hy G Px.
  apply not_true_is_false. intros Py.
  apply eqb_iff in Px, Py. destruct Px as (_ & _ & Px). destruct Py as (_ & _ & Py).
  destruct order.
  - unfold numeric in Hx, Hy. apply is_nan_iff in Hx, Hy.
    rewrite SortCompare_gt in G. cbn [compareScores] in G. fold (scoreOf x) (scoreOf y) in G.
    apply (sub_sign (scoreOf x) (scoreOf y) Hx Hy) in G. lra.
  - unfold numeric in Hx, Hy. apply is_nan_iff in Hx, Hy.
    rewrite SortCompare_gt in G. cbn [compareScores] in G. fold (scoreOf x) (scoreOf y) in G.
    apply (sub_sign (scoreOf y) (scoreOf x) Hy Hx) in G. lra.
Qed.

Lemma sort_numeric order txs :
  Forall numeric txs -> Forall numeric (sort (compareScores order) txs).
Proof. intros H. now rewrite sort_perm. Qed.

Local Open Scope string_scope.

(** ** Facts on [NaN] scores *)

Lemma nan_iff x : is_nan x = true <-> Prim2SF x = S754_nan.
Proof.
  split; intros H.
  - destruct (is_nan_iff x) as [_ I]. unfold num in I.
    destruct (Prim2SF x); try reflexivity; rewrite I in H by reflexivity; discriminate.
  - destruct (is_nan x) eqn:E; [reflexivity|].
    apply is_nan_iff in E. unfold num in E. rewrite H in E. discriminate.
Qed.

Lemma nan_div_l x y : is_nan x = true -> is_nan (x / y)%float = true.
Proof. rewrite !nan_iff, div_spec. now intros ->. Qed.

Lemma nan_mul_l x y : is_nan x = true -> is_nan (x * y)%float = true.
Proof. rewrite !nan_iff, mul_spec. now intros ->. Qed.

Lemma nan_mul_r x y : is_nan y = true -> is_nan (x * y)%float = true.
Proof. rewrite !nan_iff, mul_spec. intros ->. now destruct (Prim2SF x). Qed.

Lemma nan_add_r x y : is_nan y = true -> is_nan (x + y)%float = true.
Proof. rewrite !nan_iff, add_spec. intros ->. now destruct (Prim2SF x). Qed.

Lemma distance_nan tx :
  is_nan (parseFloat (anomaly_percentage tx)) = true -> is_nan (distance tx) = true.
Proof.
  intros H. unfold distance. destruct (is_anomaly tx).
  - apply nan_add_r, nan_mul_l, nan_div_l, H.
  - apply nan_mul_l, nan_mul_l, nan_div_l, H.
Qed.

(** ** The number that [parseFloat] reads off a decimal literal *)

Lemma IZR_pow10 a : 0 <= a -> IZR (10 ^ a) = powerRZ 10 a.
Proof.
  intros Ha. rewrite <- (Z2Nat.id a Ha) at 2.
  rewrite <- pow_powerRZ, pow_IZR, Z2Nat.id by assumption. reflexivity.
Qed.

Lemma pow10_split k :
  powerRZ 10 k = (powerRZ 10 (Z.max k 0) / powerRZ 10 (Z.max (- k) 0))%R.
Proof.
  replace k with (Z.max k 0 + - Z.max (- k) 0) at 1 by lia.
  rewrite powerRZ_add by lra. now rewrite powerRZ_neg'.
Qed.

(** [roundDecimal] is the decimal value [(-1)^neg * p * 10^k] rounded to the
    nearest binary64 number, ties to even, [Infinity] on overflow. *)
Lemma roundDecimal_correct neg p k :
  rounds (sgn neg * (IZR (Z.pos p) * powerRZ 10 k))
         (F2R (roundDecimal neg (Z.pos p) k)) /\
  num (roundDecimal neg (Z.pos p) k).
Proof.
  unfold roundDecimal, F2R, num, rounds.
  set (a := Z.max k 0). set (b := Z.max (- k) 0).
  assert (Pa : 0 < 10 ^ a) by (apply Z.pow_pos_nonneg; unfold a; lia).
  assert (Pb : 0 < 10 ^ b) by (apply Z.pow_pos_nonneg; unfold b; lia).
  destruct (SFdiv_finite_spec prec emax prec_gt_0 prec_lt_emax
              neg (p * Z.to_pos (10 ^ a)) 0 false (Z.to_pos (10 ^ b)) 0) as (A & B & V).
  cbn zeta in A, B, V. rewrite (Prim2SF_SF2Prim _ V).
  split; [|exact B].
  replace (sgn neg * (IZR (Z.pos p) * powerRZ 10 k))%R
    with (SF2X emax (S754_finite neg (p * Z.to_pos (10 ^ a)) 0) /
          SF2X emax (S754_finite false (Z.to_pos (10 ^ b)) 0))%R; [exact A|].
  cbn [SF2X]. rewrite Pos2Z.inj_mul, !Z2Pos.id, mult_IZR by assumption.
  rewrite (pow10_split k). fold a b.
  rewrite !IZR_pow10 by (unfold a, b; lia).
  change (bpow 0) with 1%R.
  assert (0 < powerRZ 10 b)%R by (apply powerRZ_lt; lra).
  unfold sgn at 2. field. lra.
Qed.

(** ** Facts on the projector and the table *)

Lemma mapPoints_length c s p r draw txs :
  List.length (mapPoints c s p r draw txs) = List.length txs.
Proof.
  revert draw. induction txs as [|tx rest IH]; intros draw; cbn [mapPoints List.length];
    [reflexivity|]. now rewrite IH.
Qed.

Lemma mapPoints_nth c s p r draw txs i tx :
  nth_error txs i = Some tx ->
  nth_error (mapPoints c s p r draw txs) i = Some (toPoint c s p r (draw + i) tx).
Proof.
  revert draw i. induction txs as [|t rest IH]; intros draw i H.
  - destruct i; discriminate.
  - destruct i as [|i]; cbn [nth_error mapPoints] in *.
    + injection H as ->. now rewrite Nat.add_0_r.
    + rewrite (IH (S draw) i H).
      now replace (draw + S i)%nat with (S draw + i)%nat by lia.
Qed.

Lemma mapRows_length i dark txs : List.length (mapRows i dark txs) = List.length txs.
Proof.
  revert i. induction txs as [|tx rest IH]; intros i; cbn [mapRows List.length];
    [reflexivity|]. now rewrite IH.
Qed.

(** ** The model evaluated on samples *)

Example parseFloat_samples :
  parseFloat "90" = 90%float /\
  parseFloat "12.5" = 12.5%float /\
  parseFloat "  7.25e1px" = 72.5%float /\
  parseFloat "-.5" = (-0.5)%float /\
  parseFloat "0.6" = 0x1.3333333333333p-1%float /\
  parseFloat "0.9" = 0x1.ccccccccccccdp-1%float /\
  parseFloat "50.00000000000001" = 0x1.9000000000001p+5%float /\
  parseFloat "1e400" = infinity /\
  is_nan (parseFloat "abc") = true /\
  is_nan (parseFloat "") = true.
Proof. vm_compute. repeat split; reflexivity. Qed.

Example layout_constants :
  radius = 160%float /\ innerRadius = 96%float /\
  (radius - innerRadius)%float = 64%float.
Proof. vm_compute. repeat split; reflexivity. Qed.

(** The scenario of the specification: a normal record with score 10 lands at
    about 8.64 and an anomalous record with score 90 at about 153.6. *)
Example distance_samples :
  distance (sampleRecord "10" false) = 0x1.147ae147ae149p+3%float /\
  distance (sampleRecord "90" true) = 0x1.3333333333333p+7%float /\
  (8.625 <? distance (sampleRecord "10" false))%float = true /\
  (distance (sampleRecord "10" false) <? 8.65625)%float = true /\
  (153.5 <? distance (sampleRecord "90" true))%float = true /\
  (distance (sampleRecord "90" true) <? 153.75)%float = true.
Proof. vm_compute. repeat split; reflexivity. Qed.

Example sort_samples :
  map anomaly_percentage
    (sort (compareScores desc) (map (fun p => sampleRecord p false) ["10"; "90"; "50"; "9e1"]))
  = ["90"; "9e1"; "50"; "10"] /\
  map anomaly_percentage
    (sort (compareScores asc) (map (fun p => sampleRecord p false) ["10"; "90"; "50"; "9e1"]))
  = ["10"; "50"; "90"; "9e1"].
Proof. vm_compute. repeat split; reflexivity. Qed.

(** ** What a stable sort is determined by *)

Lemma filter_length_perm {A} (p : A -> bool) l l' :
  Permutation l l' -> List.length (filter p l) = List.length (filter p l').
Proof.
  induction 1; cbn [filter]; try congruence.
  - destruct (p x); cbn [List.length]; congruence.
  - destruct (p x), (p y); reflexivity.
Qed.

Lemma numeric_eqb_refl tx : numeric tx -> (scoreOf tx =? scoreOf tx)%float = true.
Proof.
  unfold numeric. intros H. apply is_nan_iff in H. apply eqb_iff. now repeat split.
Qed.

Lemma eqb_trans_l a b k :
  (a =? b)%float = true -> (a =? k)%float = (b =? k)%float.
Proof.
  intros H. apply eqb_iff in H. destruct H as (Na & Nb & E).
  destruct (b =? k)%float eqn:Hb.
  - apply eqb_iff in Hb. apply eqb_iff. destruct Hb as (_ & Nk & Hb).
    repeat split; try assumption. congruence.
  - apply not_true_is_false. intros Ha. apply eqb_iff in Ha.
    destruct Ha as (_ & Nk & Ha).
    assert (T : (b =? k)%float = true) by (apply eqb_iff; repeat split; try assumption; congruence).
    congruence.
Qed.

Section Unique.
(** [before a b] is one of the two orders on the parsed scores. *)
Variable before : Transaction -> Transaction -> Prop.
Hypothesis antisym : forall a b, numeric a -> numeric b ->
  before a b -> before b a -> (scoreOf a =? scoreOf b)%float = true.

Lemma head_of_class a l b l' :
  numeric a -> numeric b ->
  StronglySorted before (a :: l) -> StronglySorted before (b :: l') ->
  (forall k, filter (sameScore k) (a :: l) = filter (sameScore k) (b :: l')) ->
  a = b.
Proof.
  intros Na Nb Sa Sb H.
  apply StronglySorted_inv in Sa, Sb. destruct Sa as [_ Fa]. destruct Sb as [_ Fb].
  rewrite Forall_forall in Fa, Fb.
  assert (Ia : In a (b :: l')).
  { apply (proj1 (filter_In (sameScore (scoreOf a)) a (b :: l'))).
    rewrite <- H. cbn [filter]. unfold sameScore at 1. rewrite (numeric_eqb_refl a Na).
    now left. }
  assert (Ib : In b (a :: l)).
  { apply (proj1 (filter_In (sameScore (scoreOf b)) b (a :: l))).
    rewrite H. cbn [filter]. unfold sameScore at 1. rewrite (numeric_eqb_refl b Nb).
    now left. }
  destruct Ia as [Ia|Ia]; [congruence|]. destruct Ib as [Ib|Ib]; [congruence|].
  pose proof (antisym a b Na Nb (Fa b Ib) (Fb a Ia)) as E.
  specialize (H (scoreOf a)).
  assert (Ta : sameScore (scoreOf a) a = true) by exact (numeric_eqb_refl a Na).
  assert (Tb : sameScore (scoreOf a) b = true).
  { unfold sameScore. rewrite <- (eqb_trans_l _ _ (scoreOf a) E). exact Ta. }
  cbn [filter] in H. rewrite Ta, Tb in H. congruence.
Qed.

Lemma stable_sorted_unique l l' :
  Forall numeric l -> Forall numeric l' ->
  StronglySorted before l -> StronglySorted before l' ->
  (forall k, filter (sameScore k) l = filter (sameScore k) l') ->
  l = l'.
Proof.
  revert l'. induction l as [|a l IH]; intros l' Nl Nl' Sl Sl' H.
  - destruct l' as [|b l']; [reflexivity|].
    apply Forall_cons_iff in Nl'. destruct Nl' as [Nb _].
    specialize (H (scoreOf b)). cbn [filter] in H. unfold sameScore at 1 in H.
    rewrite (numeric_eqb_refl b Nb) in H. discriminate.
  - destruct l' as [|b l'].
    + apply Forall_cons_iff in Nl. destruct Nl as [Na _].
      specialize (H (scoreOf a)). cbn [filter] in H. unfold sameScore at 1 in H.
      rewrite (numeric_eqb_refl a Na) in H. discriminate.
    + pose proof Nl as Nl0. pose proof Nl' as Nl0'.
      apply Forall_cons_iff in Nl, Nl'. destruct Nl as [Na Nl]. destruct Nl' as [Nb Nl'].
      assert (E : a = b) by (eapply head_of_class; eassumption).
      subst b. f_equal.
      apply IH; try assumption.
      * now apply StronglySorted_inv in Sl.
      * now apply StronglySorted_inv in Sl'.
      * intros k. specialize (H k). cbn [filter] in H.
        destruct (sameScore k a); congruence.
Qed.

End Unique.

Lemma leb_antisym a b :
  (a <=? b)%float = true -> (b <=? a)%float = true -> (a =? b)%float = true.
Proof.
  rewrite !leb_iff, eqb_iff. intros (Na & Nb & L1) (_ & _ & L2).
  repeat split; try assumption. lra.
Qed.

Lemma sorted_in order l :
  Forall numeric l ->
  match order with
  | desc => descending (sort (compareScores order) l)
  | asc => ascending (sort (compareScores order) l)
  end.
Proof. destruct order; [apply sort_desc|apply sort_asc]. Qed.

(** Sorting in one order a list that is any stable rearrangement of [l] gives
    what sorting [l] gives. *)
Lemma sort_determined order l l' :
  Forall numeric l -> Forall numeric l' ->
  (forall k, filter (sameScore k) l' = filter (sameScore k) l) ->
  sort (compareScores order) l' = sort (compareScores order) l.
Proof.
  intros Nl Nl' H.
  pose proof (sorted_in order l Nl) as S. pose proof (sorted_in order l' Nl') as S'.
  assert (F : forall k, filter (sameScore k) (sort (compareScores order) l') =
                        filter (sameScore k) (sort (compareScores order) l)).
  { intros k. unfold sameScore. rewrite !sort_stable by assumption. apply H. }
  destruct order.
  - eapply (stable_sorted_unique _ _ _ _ (sort_numeric desc l' Nl') (sort_numeric desc l Nl) S' S F).
  - eapply (stable_sorted_unique _ _ _ _ (sort_numeric asc l' Nl') (sort_numeric asc l Nl) S' S F).
  Unshelve.
  + intros a b _ _ H1 H2. exact (leb_antisym _ _ H2 H1).
  + intros a b _ _ H1 H2. exact (leb_antisym _ _ H1 H2).
Qed.

Lemma sort_sorted_id order l :
  Forall numeric l ->
  match order with desc => descending l | asc => ascending l end ->
  sort (compareScores order) l = l.
Proof.
  intros Nl S. pose proof (sorted_in order l Nl) as S'.
  assert (F : forall k, filter (sameScore k) (sort (compareScores order) l) =
                        filter (sameScore k) l).
  { intros k. unfold sameScore. now rewrite sort_stable. }
  destruct order.
  - eapply (stable_sorted_unique _ _ _ _ (sort_numeric desc l Nl) Nl S' S F).
  - eapply (stable_sorted_unique _ _ _ _ (sort_numeric asc l Nl) Nl S' S F).
  Unshelve.
  + intros a b _ _ H1 H2. exact (leb_antisym _ _ H2 H1).
  + intros a b _ _ H1 H2. exact (leb_antisym _ _ H1 H2).
Qed.

Lemma sort_back_and_forth order txs :
  Forall numeric txs ->
  sort (compareScores order) (sort (compareScores (opposite order)) (sort (compareScores order) txs)) =
  sort (compareScores order) txs.
Proof.
  intros N.
  rewrite (sort_determined order (sort (compareScores order) txs)
             (sort (compareScores (opposite order)) (sort (compareScores order) txs))).
  - apply sort_sorted_id; [now apply sort_numeric|now apply sorted_in].
  - now apply sort_numeric.
  - now apply sort_numeric, sort_numeric.
  - intros k. unfold sameScore. rewrite sort_stable; [reflexivity|now apply sort_numeric].
Qed.

Lemma handleSort_present s d txs :
  data s = Some d -> transactions d = Some txs ->
  handleSort s =
    {| data := Some {| total_transactions := total_transactions d;
                       transactions := Some (sort (compareScores (sortOrder s)) txs) |};
       loading := loading s; error := error s; darkMode := darkMode s;
       sortOrder := opposite (sortOrder s) |}.
Proof. intros Hd Ht. unfold handleSort. now rewrite Hd, Ht. Qed.

Lemma handleSort_absent s : recordsOf (data s) = None -> handleSort s = s.
Proof.
  unfold handleSort, recordsOf. destruct (data s) as [d|]; [|reflexivity].
  now intros ->.
Qed.

Lemma handleSort_view s :
  loading (handleSort s) = loading s /\ error (handleSort s) = error s.
Proof.
  unfold handleSort. destruct (data s) as [d|]; [|now split].
  destruct (transactions d); now split.
Qed.

(** ** The counters, the circles and the rows *)

Lemma mapPoints_isAnomaly c s p r draw txs :
  map Point.isAnomaly (mapPoints c s p r draw txs) = map is_anomaly txs.
Proof.
  revert draw. induction txs as [|tx rest IH]; intros draw; cbn [mapPoints map]; [reflexivity|].
  now rewrite IH.
Qed.

Lemma mapRows_status i dark txs :
  map status (mapRows i dark txs) =
  map (fun tx => if is_anomaly tx then "Anomaly" else "Normal") txs.
Proof.
  revert i. induction txs as [|tx rest IH]; intros i; cbn [mapRows map]; [reflexivity|].
  now rewrite IH.
Qed.

Lemma filter_map_length {A B} (f : A -> B) (p : B -> bool) l :
  List.length (filter p (map f l)) = List.length (filter (fun a => p (f a)) l).
Proof.
  induction l as [|a l IH]; cbn [map filter]; [reflexivity|].
  destruct (p (f a)); cbn [List.length]; congruence.
Qed.

Lemma filter_length_map {A B} (f : A -> B) (p : B -> bool) l :
  List.length (filter (fun a => p (f a)) l) = List.length (filter p (map f l)).
Proof. symmetry. apply filter_map_length. Qed.

Lemma filter_ext_length {A} (p q : A -> bool) l :
  (forall a, p a = q a) -> List.length (filter p l) = List.length (filter q l).
Proof. intros H. now rewrite (filter_ext p q H). Qed.

(** ** Runs *)

Lemma run_app a b s :
  run (a ++ b) s =
  (fst (run b (fst (run a s))), (snd (run a s) ++ snd (run b (fst (run a s))))%list).
Proof.
  revert s. induction a as [|e a IH]; intros s; cbn [run app fst snd].
  - now destruct (run b s).
  - destruct (step e s) as [s1 fx1]. rewrite IH.
    destruct (run a s1) as [s2 fx2]. cbn [fst snd].
    destruct (run b s2) as [s3 fx3]. cbn [fst snd]. now rewrite app_assoc.
Qed.

Lemma run_cons e rest s :
  run (e :: rest) s =
  (fst (run rest (fst (step e s))), (snd (step e s) ++ snd (run rest (fst (step e s))))%list).
Proof. cbn [run]. destruct (step e s) as [s1 fx1]. cbn [fst snd]. now destruct (run rest s1). Qed.

Lemma click_keeps_view e s :
  isClick e = true ->
  loading (fst (step e s)) = loading s /\ error (fst (step e s)) = error s.
Proof.
  destruct e as [|o| |]; try discriminate; intros _; cbn [step fst].
  - apply handleSort_view.
  - now split.
Qed.

Lemma clicks_keep_view events s :
  forallb isClick events = true ->
  loading (fst (run events s)) = loading s /\ error (fst (run events s)) = error s.
Proof.
  revert s. induction events as [|e rest IH]; intros s H; [now split|].
  cbn [forallb] in H. apply andb_prop in H. destruct H as [He Hr].
  rewrite run_cons. cbn [fst]. destruct (IH (fst (step e s)) Hr) as [-> ->].
  now apply click_keeps_view.
Qed.

Lemma step_effects e s :
  snd (step e s) =
    if isTick e then [HttpGet url]
    else if isRejected e then [ConsoleError] else [].
Proof. destruct e as [|[body|]| |]; reflexivity. Qed.

Lemma run_effects events s :
  snd (run events s) =
  flat_map (fun e => if isTick e then [HttpGet url]
                     else if isRejected e then [ConsoleError] else []) events.
Proof.
  revert s. induction events as [|e rest IH]; intros s; [reflexivity|].
  rewrite run_cons. cbn [snd flat_map]. now rewrite IH, step_effects.
Qed.

Lemma sameRecords_refl a : sameRecords a a.
Proof. split; [reflexivity|]. now destruct (recordsOf a). Qed.

Lemma sameRecords_trans a b c : sameRecords a b -> sameRecords b c -> sameRecords a c.
Proof.
  intros [T1 R1] [T2 R2]. split; [congruence|].
  destruct (recordsOf a), (recordsOf b), (recordsOf c); try easy.
  now transitivity l0.
Qed.

Lemma handleSort_sameRecords s : sameRecords (data s) (data (handleSort s)).
Proof.
  unfold handleSort. destruct (data s) as [d|] eqn:Hd; [|rewrite Hd; apply sameRecords_refl].
  destruct (transactions d) as [txs|] eqn:Ht; [|rewrite Hd; apply sameRecords_refl].
  split; cbn; [reflexivity|]. rewrite Ht. symmetry. apply sort_perm.
Qed.

Lemma step_sameRecords e s :
  isFulfilled e = false -> sameRecords (data s) (data (fst (step e s))).
Proof.
  destruct e as [|[body|]| |]; try discriminate; intros _; cbn [step fst];
    try apply sameRecords_refl.
  apply handleSort_sameRecords.
Qed.

Lemma run_sameRecords events s :
  forallb (fun e => negb (isFulfilled e)) events = true ->
  sameRecords (data s) (data (fst (run events s))).
Proof.
  revert s. induction events as [|e rest IH]; intros s H; [apply sameRecords_refl|].
  cbn [forallb] in H. apply andb_prop in H. destruct H as [He Hr].
  apply negb_true_iff in He.
  rewrite run_cons. cbn [fst].
  eapply sameRecords_trans; [exact (step_sameRecords e s He)|now apply IH].
Qed.

Lemma step_keeps_order e s :
  isFulfilled e = false -> isSort e = false ->
  data (fst (step e s)) = data s /\ sortOrder (fst (step e s)) = sortOrder s.
Proof. destruct e as [|[body|]| |]; try discriminate; intros _ _; now split. Qed.

Lemma run_keeps_order events s :
  forallb (fun e => negb (isFulfilled e) && negb (isSort e)) events = true ->
  data (fst (run events s)) = data s /\ sortOrder (fst (run events s)) = sortOrder s.
Proof.
  revert s. induction events as [|e rest IH]; intros s H; [now split|].
  cbn [forallb] in H. apply andb_prop in H. destruct H as [He Hr].
  apply andb_prop in He. destruct He as [H1 H2]. apply negb_true_iff in H1, H2.
  rewrite run_cons. cbn [fst]. destruct (IH (fst (step e s)) Hr) as [-> ->].
  now apply step_keeps_order.
Qed.

(** ** Strings and their substrings *)

Lemma length_append s t : String.length (s ++ t) = (String.length s + String.length t)%nat.
Proof. induction s as [|c s IH]; cbn; [reflexivity|]. now rewrite IH. Qed.

Lemma append_nil_r s : s ++ "" = s.
Proof. induction s as [|c s IH]; cbn; [reflexivity|]. now rewrite IH. Qed.

Lemma append_assoc s t u : (s ++ t) ++ u = s ++ t ++ u.
Proof. induction s as [|c s IH]; cbn; [reflexivity|]. now rewrite IH. Qed.

Lemma substring_length n m s :
  (n + m <= String.length s)%nat -> String.length (String.substring n m s) = m.
Proof.
  revert n m. induction s as [|c s IH]; intros n m H; cbn in H.
  - assert (n = 0 /\ m = 0)%nat as [-> ->] by lia. reflexivity.
  - destruct n as [|n]; cbn [String.substring].
    + destruct m as [|m]; [reflexivity|]. cbn [String.length]. rewrite (IH 0%nat m); lia.
    + apply IH. lia.
Qed.

Lemma substring_all s : String.substring 0 (String.length s) s = s.
Proof. induction s as [|c s IH]; cbn; [reflexivity|]. now rewrite IH. Qed.

Lemma substring_add n m1 m2 s :
  String.substring n (m1 + m2) s =
  String.substring n m1 s ++ String.substring (n + m1) m2 s.
Proof.
  revert n m1. induction s as [|c s IH]; intros n m1.
  - destruct n, m1, m2; reflexivity.
  - destruct n as [|n]; cbn [String.substring Nat.add].
    + destruct m1 as [|m1]; cbn [Nat.add String.substring append]; [reflexivity|].
      now rewrite (IH 0%nat m1).
    + apply IH.
Qed.

(** The three parts of a string cut at [n] and at [n + m]. *)
Lemma substring_three n m s :
  (n + m <= String.length s)%nat ->
  s = String.substring 0 n s ++ String.substring n m s ++
      String.substring (n + m) (String.length s - (n + m)) s.
Proof.
  intros H. rewrite <- (substring_add n m), <- (substring_add 0 n).
  replace (n + (m + (String.length s - (n + m))))%nat with (String.length s) by lia.
  symmetry. apply substring_all.
Qed.

Lemma substring_head s (head : Z) :
  0 <= head ->
  substring s 0 (Some head) =
  String.substring 0 (Nat.min (Z.to_nat head) (String.length s)) s.
Proof.
  intros H. unfold substring. f_equal; lia.
Qed.

Lemma substring_tail s (tail : Z) :
  0 <= tail ->
  substring s (Z.of_nat (String.length s) - tail) None =
  String.substring (String.length s - Z.to_nat tail)
    (Nat.min (Z.to_nat tail) (String.length s)) s.
Proof.
  intros H. unfold substring. f_equal; lia.
Qed.

Lemma shorten_long head tail s :
  0 <= head -> 0 <= tail -> head + tail <= Z.of_nat (String.length s) ->
  exists a middle b,
    s = a ++ middle ++ b /\
    Z.of_nat (String.length a) = head /\ Z.of_nat (String.length b) = tail /\
    shorten head tail s = a ++ "..." ++ b.
Proof.
  intros Hh Ht H. unfold shorten.
  rewrite (substring_head s head Hh), (substring_tail s tail Ht).
  set (h := Z.to_nat head). set (t := Z.to_nat tail). set (len := String.length s).
  assert (L : (h + t <= len)%nat) by (unfold h, t, len; lia).
  rewrite !Nat.min_l by lia.
  exists (String.substring 0 h s), (String.substring h (len - t - h) s),
         (String.substring (len - t) t s).
  split; [|split; [|split]].
  - rewrite (substring_three h (len - t - h) s) at 1 by (fold len; lia).
    fold len. do 2 f_equal; f_equal; lia.
  - rewrite substring_length by (fold len; lia). unfold h. lia.
  - rewrite substring_length by (fold len; lia). unfold t. lia.
  - reflexivity.
Qed.

Lemma shorten_short head tail s :
  Z.of_nat (String.length s) <= head -> Z.of_nat (String.length s) <= tail ->
  shorten head tail s = s ++ "..." ++ s.
Proof.
  intros Hh Ht. unfold shorten.
  rewrite (substring_head s head), (substring_tail s tail) by lia.
  rewrite !Nat.min_r by lia.
  replace (String.length s - Z.to_nat tail)%nat with 0%nat by lia.
  now rewrite !substring_all.
Qed.

Lemma shorten_length head tail s :
  0 <= head -> 0 <= tail ->
  Z.of_nat (String.length (shorten head tail s)) =
  Z.min head (Z.of_nat (String.length s)) + 3 + Z.min tail (Z.of_nat (String.length s)).
Proof.
  intros Hh Ht. unfold shorten.
  rewrite (substring_head s head Hh), (substring_tail s tail Ht).
  rewrite !length_append, !substring_length by lia. cbn [String.length]. lia.
Qed.

(** ** The hover handlers *)

Lemma selectThis_map {B} (p : Circle.t -> B) i f l :
  (forall c, p (f c) = p c) -> map p (selectThis i f l) = map p l.
Proof.
  intros H. revert i. induction l as [|c l IH]; intros i; [reflexivity|].
  destruct i; cbn; [now rewrite H|]. now rewrite IH.
Qed.

Lemma selectThis_twice i f g l :
  selectThis i g (selectThis i f l) = selectThis i (fun c => g (f c)) l.
Proof.
  revert i. induction l as [|c l IH]; intros i; [reflexivity|].
  destruct i; cbn; [reflexivity|]. now rewrite IH.
Qed.

Lemma selectThis_id i f l :
  (forall c, In c l -> f c = c) -> selectThis i f l = l.
Proof.
  revert i. induction l as [|c l IH]; intros i H; [reflexivity|].
  destruct i; cbn.
  - rewrite H; [reflexivity|now left].
  - rewrite IH; [reflexivity|]. intros c' Hc. apply H. now right.
Qed.

Lemma selectThis_nth i f l c :
  nth_error l i = Some c -> nth_error (selectThis i f l) i = Some (f c).
Proof.
  revert i. induction l as [|c' l IH]; intros i H; [now destruct i|].
  destruct i; cbn in *; [congruence|]. now apply IH.
Qed.

Lemma selectThis_Forall (P : Circle.t -> Prop) i f l :
  (forall c, P (f c)) -> Forall P l -> Forall P (selectThis i f l).
Proof.
  intros Hf H. revert i. induction H as [|c l Hc Hl IH]; intros i; [constructor|].
  destruct i; cbn; constructor; auto.
Qed.

Section HoverFacts.
Variable Number_toString : float -> string.

Lemma mouseover_placed i g :
  map placed (circles (mouseover Number_toString i g)) = map placed (circles g) /\
  dark (mouseover Number_toString i g) = dark g.
Proof.
  unfold mouseover. destruct (nth_error (circles g) i); [|now split].
  cbn [circles dark]. split; [|reflexivity]. now apply selectThis_map.
Qed.

Lemma mouseout_placed i g :
  map placed (circles (mouseout i g)) = map placed (circles g) /\
  dark (mouseout i g) = dark g.
Proof.
  unfold mouseout. destruct (nth_error (circles g) i); [|now split].
  cbn [circles dark]. split; [|reflexivity]. now apply selectThis_map.
Qed.

Lemma nth_datum points darkMode g i :
  map placed (circles g) = map placed (map (appendCircle darkMode) points) ->
  option_map Circle.datum (nth_error (circles g) i) = nth_error points i.
Proof.
  intros H.
  assert (E : forall l, option_map Circle.datum (nth_error l i) =
                        option_map (fun q => snd q) (nth_error (map placed l) i)).
  { intros l. rewrite nth_error_map. now destruct (nth_error l i). }
  rewrite E, H, !nth_error_map. now destruct (nth_error points i).
Qed.

Lemma hover_facts points darkMode events :
  forall g acc,
    forallb (inRange (List.length points)) events = true ->
    map placed (circles g) = map placed (map (appendCircle darkMode) points) ->
    dark g = darkMode ->
    Forall (fun c => atRest c \/ enlarged c) (circles g) ->
    tooltips g = tooltipsOf Number_toString darkMode points acc ->
    let g' := hover Number_toString events g in
    map placed (circles g') = map placed (map (appendCircle darkMode) points) /\
    Forall (fun c => atRest c \/ enlarged c) (circles g') /\
    tooltips g' = tooltipsOf Number_toString darkMode points (entered acc events).
Proof.
  induction events as [|e rest IH]; intros g acc R P D F T; cbv zeta; [now repeat split|].
  cbn [forallb] in R. apply andb_prop in R. destruct R as [Re Rr].
  assert (Li : forall i, (i <? List.length points)%nat = true ->
                         exists this d, nth_error (circles g) i = Some this /\
                                        nth_error points i = Some d /\ Circle.datum this = d).
  { intros i Hi. apply Nat.ltb_lt in Hi.
    pose proof (nth_datum points darkMode g i P) as N.
    destruct (nth_error points i) as [d|] eqn:Ed;
      [|apply nth_error_None in Ed; lia].
    destruct (nth_error (circles g) i) as [this|]; [|discriminate].
    cbn in N. injection N as N. eauto. }
  destruct e as [i|i]; cbn [inRange] in Re; cbn [hover entered];
    destruct (Li i Re) as (this & d & E1 & E2 & E3).
  - apply IH; try assumption.
    + rewrite <- P. apply mouseover_placed.
    + rewrite <- D. apply mouseover_placed.
    + unfold mouseover. rewrite E1. cbn [circles].
      apply selectThis_Forall; [|assumption]. intros c. right. now split.
    + unfold mouseover. rewrite E1. cbn [tooltips].
      unfold tooltipsOf. rewrite flat_map_app. cbn [flat_map]. rewrite E2, app_nil_r.
      fold (tooltipsOf Number_toString darkMode points acc). rewrite <- T, E3, D. reflexivity.
  - apply IH; try assumption.
    + rewrite <- P. apply mouseout_placed.
    + rewrite <- D. apply mouseout_placed.
    + unfold mouseout. rewrite E1. cbn [circles].
      apply selectThis_Forall; [|assumption]. intros c. left. now split.
    + unfold mouseout. rewrite E1. reflexivity.
Qed.

End HoverFacts.

(** ** Decimal digits *)

Lemma decimalDigits_digits d r acc cnt :
  allDigits d = true -> noDigitAhead r = true ->
  decimalDigits acc cnt (d ++ r) = (digitsValue acc d, cnt + Z.of_nat (String.length d), r).
Proof.
  intros Hd Hr. revert acc cnt. induction d as [|c d IH]; intros acc cnt.
  - cbn [append digitsValue String.length]. rewrite Z.add_0_r.
    destruct r as [|c r]; [reflexivity|]. cbn in *. now destruct (digitValue c).
  - cbn [append decimalDigits digitsValue allDigits String.length] in *.
    destruct (digitValue c); [|discriminate].
    rewrite (IH Hd). f_equal. f_equal. lia.
Qed.

Lemma decimalDigits_all d acc cnt :
  allDigits d = true ->
  decimalDigits acc cnt d = (digitsValue acc d, cnt + Z.of_nat (String.length d), "").
Proof.
  intros H. rewrite <- (append_nil_r d) at 1. now apply decimalDigits_digits.
Qed.

Lemma allDigits_app a b : allDigits (a ++ b) = allDigits a && allDigits b.
Proof.
  induction a as [|c a IH]; cbn [append allDigits]; [reflexivity|].
  now destruct (digitValue c).
Qed.

Lemma digitsValue_app a b acc :
  allDigits a = true -> digitsValue acc (a ++ b) = digitsValue (digitsValue acc a) b.
Proof.
  revert acc. induction a as [|c a IH]; intros acc H; cbn [append digitsValue allDigits] in *;
    [reflexivity|].
  destruct (digitValue c); [|discriminate]. now apply IH.
Qed.

Lemma zeros_length k : String.length (zeros k) = k.
Proof. induction k as [|k IH]; cbn; congruence. Qed.

Lemma zeros_digits k : allDigits (zeros k) = true.
Proof. induction k as [|k IH]; [reflexivity|exact IH]. Qed.

Lemma zeros_value k : digitsValue 0 (zeros k) = 0.
Proof. induction k as [|k IH]; [reflexivity|exact IH]. Qed.

Lemma string_of_uint_digits d :
  allDigits (DecimalString.NilEmpty.string_of_uint d) = true.
Proof. induction d; cbn; assumption || reflexivity. Qed.

Lemma string_of_uint_value d acc :
  digitsValue acc (DecimalString.NilEmpty.string_of_uint d) = uintValue acc d.
Proof.
  revert acc. induction d; intros acc; cbn [DecimalString.NilEmpty.string_of_uint uintValue];
    try reflexivity; rewrite <- IHd; reflexivity.
Qed.

Lemma of_uint_acc_value d acc :
  Z.pos (Pos.of_uint_acc d acc) = uintValue (Z.pos acc) d.
Proof.
  revert acc. induction d; intros acc; cbn [Pos.of_uint_acc uintValue]; try reflexivity;
    rewrite IHd; f_equal; lia.
Qed.

Lemma of_uint_value d : Z.of_N (Pos.of_uint d) = uintValue 0 d.
Proof.
  induction d; cbn [Pos.of_uint uintValue]; try reflexivity; try assumption;
    cbn [Z.of_N]; rewrite of_uint_acc_value; reflexivity.
Qed.

Lemma to_uint_nonnil n : N.to_uint n <> Decimal.Nil.
Proof. destruct n; [discriminate|apply DecimalPos.Unsigned.to_uint_nonnil]. Qed.

Lemma decimalRepresentation_eq n :
  decimalRepresentation n = DecimalString.NilEmpty.string_of_uint (N.to_uint (Z.to_N n)).
Proof.
  unfold decimalRepresentation, DecimalString.NilZero.string_of_uint.
  pose proof (to_uint_nonnil (Z.to_N n)). now destruct (N.to_uint (Z.to_N n)).
Qed.

Lemma decimalRepresentation_digits n : allDigits (decimalRepresentation n) = true.
Proof. rewrite decimalRepresentation_eq. apply string_of_uint_digits. Qed.

Lemma decimalRepresentation_value n :
  0 <= n -> digitsValue 0 (decimalRepresentation n) = n.
Proof.
  intros H. rewrite decimalRepresentation_eq, string_of_uint_value, <- of_uint_value.
  change (Pos.of_uint (N.to_uint (Z.to_N n))) with (N.of_uint (N.to_uint (Z.to_N n))).
  rewrite DecimalN.Unsigned.of_to. lia.
Qed.

Lemma decimalRepresentation_nonempty n : (1 <= String.length (decimalRepresentation n))%nat.
Proof.
  rewrite decimalRepresentation_eq. pose proof (to_uint_nonnil (Z.to_N n)).
  destruct (N.to_uint (Z.to_N n)); cbn; try lia. congruence.
Qed.

(** The two parts of the fixed notation of [n] with [f] fraction digits. *)
Lemma fixedNotation_parts n f :
  0 <= n -> 0 < f ->
  exists a b,
    fixedNotation n f = a ++ "." ++ b /\
    allDigits a = true /\ allDigits b = true /\
    (1 <= String.length a)%nat /\ Z.of_nat (String.length b) = f /\
    digitsValue 0 (a ++ b) = n.
Proof.
  intros Hn Hf. unfold fixedNotation.
  destruct (Z.eqb_spec f 0) as [->|_]; [lia|].
  pose proof (decimalRepresentation_digits n) as D.
  pose proof (decimalRepresentation_value n Hn) as V.
  pose proof (decimalRepresentation_nonempty n) as L.
  set (m := decimalRepresentation n) in *.
  set (k := Z.of_nat (String.length m)).
  set (m' := if (k <=? f)%Z then zeros (Z.to_nat (f + 1 - k)) ++ m else m).
  set (k' := if (k <=? f)%Z then f + 1 else k).
  assert (E : (if (k <=? f)%Z then (zeros (Z.to_nat (f + 1 - k)) ++ m, f + 1) else (m, k)) = (m', k'))
    by (unfold m', k'; now destruct (k <=? f)%Z).
  rewrite E. clear E.
  assert (Lm : Z.of_nat (String.length m') = k').
  { unfold m', k'. destruct (Z.leb_spec k f); [|reflexivity].
    rewrite length_append, zeros_length. fold k. lia. }
  assert (Kf : f < k') by (unfold k'; destruct (Z.leb_spec k f); lia).
  assert (Dm : allDigits m' = true).
  { unfold m'. destruct (k <=? f)%Z; [|exact D].
    now rewrite allDigits_app, zeros_digits, D. }
  assert (Vm : digitsValue 0 m' = n).
  { unfold m'. destruct (k <=? f)%Z; [|exact V].
    now rewrite digitsValue_app, zeros_value by apply zeros_digits. }
  set (a := String.substring 0 (Z.to_nat (k' - f)) m').
  set (b := String.substring (Z.to_nat (k' - f)) (Z.to_nat f) m').
  assert (S : a ++ b = m').
  { unfold a, b.
    rewrite <- (substring_add 0 (Z.to_nat (k' - f)) (Z.to_nat f)).
    replace (Z.to_nat (k' - f) + Z.to_nat f)%nat with (String.length m') by lia.
    apply substring_all. }
  exists a, b. rewrite S.
  rewrite <- S, allDigits_app in Dm. apply andb_prop in Dm. destruct Dm as [Da Db].
  repeat split; try assumption.
  - unfold a. rewrite substring_length by lia. lia.
  - unfold b. rewrite substring_length by lia. lia.
Qed.

Lemma fixedNotation_0 n : fixedNotation n 0 = decimalRepresentation n.
Proof. reflexivity. Qed.

(** ** Reading a number in fixed notation *)

Lemma digit_cases c :
  digitValue c = None \/
  (isWhiteSpace c = false /\ c <> "-"%char /\ c <> "+"%char /\ c <> "."%char /\
   c <> "I"%char /\ noDigitAhead (String c "") = false).
Proof.
  destruct c as [[] [] [] [] [] [] [] []];
    try (left; reflexivity); right; repeat split; discriminate.
Qed.

Lemma starts_with_digit a :
  allDigits a = true -> (1 <= String.length a)%nat ->
  exists c a', a = String c a' /\ allDigits a' = true /\
    isWhiteSpace c = false /\ c <> "-"%char /\ c <> "+"%char /\ c <> "."%char /\
    c <> "I"%char.
Proof.
  destruct a as [|c a']; cbn [String.length allDigits]; [lia|]. intros H _.
  exists c, a'. destruct (digit_cases c) as [E|E]; [now rewrite E in H|].
  destruct (digitValue c); [|discriminate]. tauto.
Qed.

Lemma prefix_Infinity c r : c <> "I"%char -> prefix "Infinity" (String c r) = false.
Proof. intros H. cbn [prefix]. destruct (ascii_dec "I" c); [congruence|reflexivity]. Qed.

Lemma prefix_Infinity_digits a r :
  allDigits a = true -> (1 <= String.length a)%nat -> prefix "Infinity" (a ++ r) = false.
Proof.
  intros Da La.
  destruct (starts_with_digit a Da La) as (c & a' & -> & _ & _ & _ & _ & _ & HI).
  apply prefix_Infinity, HI.
Qed.

Lemma unsigned_fixed neg a b :
  allDigits a = true -> allDigits b = true -> (1 <= String.length a)%nat ->
  strUnsignedDecimalLiteral neg (a ++ "." ++ b) =
    roundDecimal neg (digitsValue 0 (a ++ b)) (- Z.of_nat (String.length b)) /\
  strUnsignedDecimalLiteralRest (a ++ "." ++ b) = Some "".
Proof.
  intros Da Db La.
  unfold strUnsignedDecimalLiteral, strUnsignedDecimalLiteralRest.
  rewrite (prefix_Infinity_digits a _ Da La).
  rewrite (decimalDigits_digits a ("." ++ b) 0 0 Da eq_refl).
  cbn [append].
  rewrite (decimalDigits_all b _ 0 Db), (decimalDigits_all b 0 0 Db).
  rewrite digitsValue_app by assumption.
  assert (P : (0 <? 0 + Z.of_nat (String.length a))%Z = true) by (apply Z.ltb_lt; lia).
  rewrite P. cbn [orb exponentPart exponentRest]. split; [f_equal; lia|reflexivity].
Qed.

Lemma unsigned_integer neg a :
  allDigits a = true -> (1 <= String.length a)%nat ->
  strUnsignedDecimalLiteral neg a = roundDecimal neg (digitsValue 0 a) 0 /\
  strUnsignedDecimalLiteralRest a = Some "".
Proof.
  intros Da La.
  unfold strUnsignedDecimalLiteral, strUnsignedDecimalLiteralRest.
  assert (Pf : prefix "Infinity" a = false)
    by (rewrite <- (append_nil_r a); now apply prefix_Infinity_digits).
  rewrite !Pf.
  rewrite (decimalDigits_all a 0 0 Da).
  assert (P : (0 <? 0 + Z.of_nat (String.length a))%Z = true) by (apply Z.ltb_lt; lia).
  rewrite P. cbn [exponentPart exponentRest]. now split.
Qed.

(** The literal that [fixedNotation] writes, as the two parsers read it. *)
Lemma unsigned_fixedNotation neg n f :
  0 <= n -> 0 <= f ->
  strUnsignedDecimalLiteral neg (fixedNotation n f) = roundDecimal neg n (- f) /\
  strUnsignedDecimalLiteralRest (fixedNotation n f) = Some "" /\
  exists c r, fixedNotation n f = String c r /\
    isWhiteSpace c = false /\ c <> "-"%char /\ c <> "+"%char.
Proof.
  intros Hn Hf. destruct (Z.eq_dec f 0) as [->|Nf].
  - rewrite fixedNotation_0.
    pose proof (decimalRepresentation_digits n) as D.
    pose proof (decimalRepresentation_nonempty n) as L.
    destruct (unsigned_integer neg _ D L) as [E1 E2].
    rewrite E1, E2, (decimalRepresentation_value n Hn).
    repeat split.
    destruct (starts_with_digit _ D L) as (c & a' & E & _ & W & M & P & _).
    exists c, a'. now rewrite E.
  - destruct (fixedNotation_parts n f Hn) as (a & b & E & Da & Db & La & Lb & V); [lia|].
    destruct (unsigned_fixed neg a b Da Db La) as [E1 E2].
    rewrite E, E1, E2, V, Lb. repeat split.
    destruct (starts_with_digit a Da La) as (c & a' & -> & _ & W & M & P & _).
    exists c, (a' ++ "." ++ b). now cbn.
Qed.

Lemma parseFloat_fixedNotation (neg : bool) n f :
  0 <= n -> 0 <= f ->
  parseFloat ((if neg then "-" else "") ++ fixedNotation n f) = roundDecimal neg n (- f).
Proof.
  intros Hn Hf.
  destruct (unsigned_fixedNotation neg n f Hn Hf) as (E & _ & c & r & S & W & M & P).
  unfold parseFloat. destruct neg; cbn [append trimStart isWhiteSpace nat_of_ascii].
  - exact E.
  - rewrite S in *. cbn [trimStart]. rewrite W.
    destruct c as [[] [] [] [] [] [] [] []]; try exact E; congruence.
Qed.

(** ** The integer that [toFixed] prints *)

Lemma nearestFixed_spec m e f :
  0 <= f ->
  0 <= nearestFixed m e f /\
  (IZR (nearestFixed m e f) - / 2 <= IZR (Z.pos m) * bpow e * powerRZ 10 f
   < IZR (nearestFixed m e f) + / 2)%R.
Proof.
  intros Hf. unfold nearestFixed.
  assert (Pf : 0 < 10 ^ f) by (apply Z.pow_pos_nonneg; lia).
  rewrite <- (IZR_pow10 f Hf).
  destruct (Z.leb_spec 0 e) as [He|He].
  - assert (Pe : 0 < 2 ^ e) by (apply Z.pow_pos_nonneg; lia).
    split; [nia|].
    rewrite (bpow_IZR e He), !mult_IZR. lra.
  - set (P := 2 ^ (- e)). set (M := Z.pos m * 10 ^ f).
    assert (PP : 0 < P) by (apply Z.pow_pos_nonneg; lia).
    assert (PM : 0 < M) by (unfold M; nia).
    replace (2 ^ (1 - e)) with (2 * P)
      by (unfold P; replace (1 - e) with (Z.succ (- e)) by lia; rewrite Z.pow_succ_r; lia).
    set (n := (2 * M + P) / (2 * P)).
    pose proof (Z.div_mod (2 * M + P) (2 * P) ltac:(lia)) as D.
    pose proof (Z.mod_pos_bound (2 * M + P) (2 * P) ltac:(lia)) as B.
    fold n in D. set (r := (2 * M + P) mod (2 * P)) in *.
    split; [apply Z.div_pos; lia|].
    replace (IZR (Z.pos m) * bpow e * IZR (10 ^ f))%R with (IZR M / IZR P)%R.
    + assert (E : (2 * IZR M + IZR P = 2 * IZR P * IZR n + IZR r)%R).
      { rewrite <- !mult_IZR, <- !plus_IZR. now f_equal. }
      assert (RP : (0 < IZR P)%R) by (apply IZR_lt; lia).
      assert (R0 : (0 <= IZR r)%R) by (apply IZR_le; lia).
      assert (R1 : (IZR r < 2 * IZR P)%R) by (rewrite <- mult_IZR; apply IZR_lt; lia).
      replace (IZR M) with (IZR P * IZR n + IZR r / 2 - IZR P / 2)%R by lra.
      split.
      * apply Rmult_le_reg_r with (IZR P); [assumption|].
        unfold Rdiv at 1. rewrite Rmult_assoc, Rinv_l by lra. lra.
      * apply Rmult_lt_reg_r with (IZR P); [assumption|].
        unfold Rdiv at 1. rewrite Rmult_assoc, Rinv_l by lra. lra.
    + unfold M, P. rewrite mult_IZR.
      replace e with (- - e) at 2 by lia.
      rewrite bpow_opp, (bpow_IZR (- e)) by lia. unfold Rdiv. ring.
Qed.

Lemma toFixed_finite h x f :
  (abs x <? 1e21)%float = true ->
  (exists s, Prim2SF x = S754_zero s /\ F2R x = 0%R /\ (x <? 0)%float = false /\
             toFixed h x f = fixedNotation 0 f) \/
  (exists s m e, Prim2SF x = S754_finite s m e /\
     Rabs (F2R x) = (IZR (Z.pos m) * bpow e)%R /\ (x <? 0)%float = s /\
     toFixed h x f = (if s then "-" else "") ++ fixedNotation (nearestFixed m e f) f).
Proof.
  intros H.
  assert (L : (1e21 <=? abs x)%float = false).
  { apply not_true_is_false. intros L. apply ltb_iff in H. apply leb_iff in L.
    destruct H as (_ & _ & H). destruct L as (_ & _ & L). lra. }
  pose proof H as H'. apply ltb_iff in H'. destruct H' as (Na & _ & B).
  rewrite abs_F2R in B. unfold num in Na. rewrite abs_spec in Na.
  unfold toFixed. rewrite L. rewrite FloatAxioms.ltb_spec.
  unfold F2R in *. change (Prim2SF 0) with (S754_zero false).
  destruct (Prim2SF x) as [s|s| |s m e] eqn:E; cbn [SFabs is_num] in Na; try discriminate.
  - left. exists s. repeat split.
  - exfalso. cbn [SF2X] in B.
    assert (T : (F2R 1e21 < bpow emax)%R).
    { assert (Q : (1e21 <? infinity)%float = true) by reflexivity.
      apply ltb_iff in Q. rewrite F2R_infinity in Q. tauto. }
    unfold F2R in T. pose proof (bpow_gt_0 emax).
    destruct s; unfold sgn in B; [rewrite Rabs_left in B|rewrite Rabs_right in B]; lra.
  - right. exists s, m, e. cbn [SF2X].
    assert (P : (0 < IZR (Z.pos m) * bpow e)%R).
    { apply Rmult_lt_0_compat; [apply IZR_lt; lia|apply bpow_gt_0]. }
    repeat split.
    + destruct s; unfold sgn; [rewrite Rabs_left|rewrite Rabs_right]; lra.
    + now destruct s.
Qed.

(** [roundDecimal] on any integer. *)
Lemma roundDecimal_rounds neg n k :
  0 <= n ->
  rounds (sgn neg * (IZR n * powerRZ 10 k)) (F2R (roundDecimal neg n k)) /\
  num (roundDecimal neg n k).
Proof.
  intros Hn. destruct n as [|p|p]; [|apply roundDecimal_correct|lia].
  rewrite Rmult_0_l, Rmult_0_r. cbn [roundDecimal].
  destruct neg; split; try reflexivity; left; split; reflexivity.
Qed.

Lemma abs_below_fin x : (abs x <? 1e21)%float = true -> fin x.
Proof.
  intros H. apply ltb_iff in H. destruct H as (Na & _ & B).
  unfold num in Na. rewrite abs_spec in Na. rewrite abs_F2R in B.
  assert (T : (F2R 1e21 < bpow emax)%R).
  { assert (Q : (1e21 <? infinity)%float = true) by reflexivity.
    apply ltb_iff in Q. rewrite F2R_infinity in Q. tauto. }
  apply fin_of_range.
  - unfold num. now destruct (Prim2SF x).
  - unfold Rabs in B. destruct Rcase_abs; lra.
Qed.

Lemma toFixed_value h x f :
  (abs x <? 1e21)%float = true -> 0 <= f ->
  exists n,
    0 <= n /\
    toFixed h x f = (if (x <? 0)%float then "-" else "") ++ fixedNotation n f /\
    (IZR n - / 2 <= Rabs (F2R x) * powerRZ 10 f < IZR n + / 2)%R.
Proof.
  intros H Hf.
  destruct (toFixed_finite h x f H)
    as [(s & _ & Z0 & -> & ->)|(s & m & e & _ & A & -> & ->)].
  - exists 0. rewrite Z0, Rabs_R0, Rmult_0_l. repeat split; try lia; lra.
  - destruct (nearestFixed_spec m e f) as [Nn B]; [lia|].
    exists (nearestFixed m e f). rewrite A. repeat split; try assumption; lra.
Qed.

Lemma toFixed_nan h x f : is_nan x = true -> toFixed h x f = "NaN".
Proof. intros H. apply nan_iff in H. unfold toFixed. now rewrite H. Qed.

(** ** Decimals that survive the round trip *)

Lemma pow10_bounds f :
  0 <= f <= 100 -> (1 <= powerRZ 10 f <= IZR (10 ^ 100))%R.
Proof.
  intros H. rewrite <- (IZR_pow10 f) by lia. split; apply IZR_le.
  - assert (0 < 10 ^ f) by (apply Z.pow_pos_nonneg; lia). lia.
  - apply Z.pow_le_mono_r; lia.
Qed.

(** Scaled back by [10^f], the error of rounding [N / 10^f] stays below one
    half when [N] has fewer than 53 bits. *)
Lemma scaled_error N f y :
  0 < N < 2 ^ 52 -> 0 <= f <= 100 ->
  rounds (IZR N * powerRZ 10 (- f)) y ->
  (Rabs (y * powerRZ 10 f - IZR N) < / 2)%R /\ (0 < y < IZR (2 ^ 53))%R.
Proof.
  intros HN Hf R.
  set (T := powerRZ 10 f). pose proof (pow10_bounds f Hf) as [T1 T2]. fold T in T1, T2.
  assert (IT : powerRZ 10 (- f) = (/ T)%R) by apply powerRZ_neg'.
  rewrite IT in R. set (v := (IZR N * / T)%R) in *.
  assert (PT : (0 < / T)%R) by (apply Rinv_0_lt_compat; lra).
  assert (N1 : (1 <= IZR N)%R) by (apply IZR_le; lia).
  assert (N2 : (IZR N <= IZR (2 ^ 52) - 1)%R) by (rewrite <- minus_IZR; apply IZR_le; lia).
  assert (Tv : (v * T = IZR N)%R) by (unfold v; field; lra).
  assert (Lv : (/ T <= v)%R) by (unfold v; nra).
  assert (Uv : (v <= IZR N)%R).
  { unfold v. rewrite <- (Rmult_1_r (IZR N)) at 2.
    apply Rmult_le_compat_l; [lra|]. rewrite <- Rinv_1. apply Rinv_le_contravar; lra. }
  pose proof (bpow_neg_IZR 53 ltac:(lia)) as E53.
  pose proof (bpow_neg_IZR 1075 ltac:(lia)) as E1075.
  change (- (53)) with (-53) in E53. change (- (1075)) with (-1075) in E1075.
  pose proof (bpow_gt_0 (- 53)) as P53. pose proof (bpow_gt_0 (- 1075)) as P1075.
  set (a := bpow (- 53)) in *. set (b := bpow (- 1075)) in *.
  assert (Q52 : IZR (2 ^ 53) = (2 * IZR (2 ^ 52))%R).
  { rewrite <- mult_IZR. f_equal. }
  assert (Q100 : (IZR (10 ^ 100) * IZR (2 ^ 54) < IZR (2 ^ 1075))%R).
  { rewrite <- mult_IZR. apply IZR_lt. reflexivity. }
  assert (B1023 : (v < bpow 1023)%R).
  { rewrite (bpow_IZR 1023) by lia.
    assert (IZR (2 ^ 52) < IZR (2 ^ 1023))%R by (apply IZR_lt; reflexivity). lra. }
  pose proof (rounds_error v y R ltac:(split; [nra|exact B1023])) as Err.
  fold a b in Err.
  assert (Tb : (T * b < / 4)%R).
  { assert (P54 : (4 <= IZR (2 ^ 54))%R) by (apply IZR_le; discriminate).
    assert (Pb : (0 < T * b)%R) by nra.
    assert (L1 : (T * IZR (2 ^ 54) < IZR (2 ^ 1075))%R) by nra.
    assert (L2 : (T * IZR (2 ^ 54) * b < 1)%R).
    { rewrite <- E1075. apply Rmult_lt_compat_r; assumption. }
    nra. }
  assert (Na : (IZR N * a <= / 2 - a)%R).
  { pose proof (Rmult_le_compat_r a _ _ (Rlt_le _ _ P53) N2) as Q.
    rewrite Q52 in E53. lra. }
  assert (M : (Rmax (v * a) b * T < / 2)%R).
  { unfold Rmax. destruct Rle_dec; [nra|].
    replace (v * a * T)%R with (IZR N * a)%R by (rewrite <- Tv; ring). lra. }
  assert (D : (Rabs (y - v) * T < / 2)%R).
  { eapply Rle_lt_trans; [|exact M]. apply Rmult_le_compat_r; lra. }
  split.
  - replace (y * T - IZR N)%R with ((y - v) * T)%R by (rewrite <- Tv; ring).
    rewrite Rabs_mult, (Rabs_right T) by lra. exact D.
  - assert (Ab : (Rabs (y - v) < / 2 * / T)%R).
    { apply Rmult_lt_reg_r with T; [lra|]. rewrite Rmult_assoc, Rinv_l by lra. lra. }
    unfold Rabs in Ab. destruct Rcase_abs; split; try nra.
Qed.

Lemma F2R_1e21 : (IZR (2 ^ 53) < F2R 1e21)%R.
Proof.
  unfold F2R. replace (Prim2SF 1e21) with (S754_finite false 7629394531250000 17)
    by (vm_compute; reflexivity).
  cbn [SF2X]. unfold sgn. rewrite (bpow_IZR 17) by lia.
  rewrite Rmult_1_l, <- mult_IZR. apply IZR_lt. reflexivity.
Qed.

(** A number that is the rounding of [N / 10^f] is printed as [N / 10^f]. *)
Lemma toFixed_of_rounded h x N f :
  0 <= N < 2 ^ 52 -> 0 <= f <= 100 -> num x ->
  rounds (IZR N * powerRZ 10 (- f)) (F2R x) ->
  toFixed h x f = fixedNotation N f.
Proof.
  intros HN Hf Nx R. destruct (Z.eq_dec N 0) as [->|N0].
  - rewrite Rmult_0_l in R.
    assert (Z0 : F2R x = 0%R) by (apply (rounds_fun 0); [exact R|left; split; reflexivity]).
    destruct (num_zero_inv x Nx Z0) as [s E]. unfold toFixed. now rewrite E.
  - destruct (scaled_error N f (F2R x) ltac:(lia) Hf R) as [D [Py Uy]].
    assert (S : (x <? 0)%float = false).
    { apply not_true_is_false. intros S. apply ltb_iff in S. rewrite F2R_zero in S. lra. }
    assert (B : (abs x <? 1e21)%float = true).
    { apply ltb_iff. rewrite abs_F2R, Rabs_right by lra. pose proof F2R_1e21.
      split; [|split; [reflexivity|lra]].
      unfold num in *. rewrite abs_spec. now destruct (Prim2SF x). }
    destruct (toFixed_value h x f B ltac:(lia)) as (n & _ & -> & Bn).
    rewrite S, Rabs_right in * by lra. cbn [append].
    replace n with N; [reflexivity|].
    unfold Rabs in D. destruct Rcase_abs.
    + assert (IZR N - 1 < IZR n < IZR N + 1)%R by lra.
      rewrite <- minus_IZR, <- plus_IZR in H. destruct H as [H1 H2].
      apply lt_IZR in H1, H2. lia.
    + assert (IZR N - 1 < IZR n < IZR N + 1)%R by lra.
      rewrite <- minus_IZR, <- plus_IZR in H. destruct H as [H1 H2].
      apply lt_IZR in H1, H2. lia.
Qed.

(** ** [Number] on a string *)

Lemma trimEnd_id s : noWhiteSpace s = true -> trimEnd s = s.
Proof.
  induction s as [|c s IH]; [reflexivity|]. cbn [noWhiteSpace trimEnd].
  intros H. apply andb_prop in H. destruct H as [Hc Hs]. rewrite (IH Hs).
  destruct s; [|reflexivity]. apply negb_true_iff in Hc. now rewrite Hc.
Qed.

Lemma noWhiteSpace_app a b : noWhiteSpace (a ++ b) = noWhiteSpace a && noWhiteSpace b.
Proof.
  induction a as [|c a IH]; [reflexivity|]. cbn [append noWhiteSpace].
  now rewrite IH, andb_assoc.
Qed.

Lemma digits_noWhiteSpace a : allDigits a = true -> noWhiteSpace a = true.
Proof.
  induction a as [|c a IH]; [reflexivity|]. cbn [allDigits noWhiteSpace].
  destruct (digit_cases c) as [E|(W & _)]; [now rewrite E|].
  destruct (digitValue c); [|discriminate]. intros H. now rewrite W, (IH H).
Qed.

Lemma radixDigits_0 acc cnt s : radixDigits 0 acc cnt s = (acc, cnt, s).
Proof.
  destruct s as [|c s]; [reflexivity|]. cbn [radixDigits].
  assert (E : radixDigitValue 0 c = None); [|now rewrite E].
  unfold radixDigitValue. set (n := Z.of_nat (nat_of_ascii c)).
  destruct (Z.leb_spec 48 n), (Z.leb_spec n 57); cbn [andb];
    try (destruct (Z.ltb_spec (n - 48) 0); [lia|reflexivity]);
    destruct (Z.leb_spec 97 n), (Z.leb_spec n 102); cbn [andb];
    try (destruct (Z.ltb_spec (n - 87) 0); [lia|reflexivity]);
    destruct (Z.leb_spec 65 n), (Z.leb_spec n 70); cbn [andb];
    try (destruct (Z.ltb_spec (n - 55) 0); [lia|reflexivity]);
    reflexivity.
Qed.

Lemma nonDecimal_none c c2 r :
  digitValue c2 <> None \/ c2 = "."%char ->
  nonDecimalIntegerLiteral (String c (String c2 r)) = None.
Proof.
  intros H. unfold nonDecimalIntegerLiteral.
  assert (E : ((Ascii.eqb c2 "b" || Ascii.eqb c2 "B") = false /\
               (Ascii.eqb c2 "o" || Ascii.eqb c2 "O") = false /\
               (Ascii.eqb c2 "x" || Ascii.eqb c2 "X") = false)%bool).
  { destruct H as [H| ->]; [|now repeat split].
    destruct c2 as [[] [] [] [] [] [] [] []]; try (now repeat split); now elim H. }
  destruct E as (-> & -> & ->). rewrite radixDigits_0.
  destruct c as [[] [] [] [] [] [] [] []]; try reflexivity. now destruct r.
Qed.

Lemma nonDecimal_single c : nonDecimalIntegerLiteral (String c "") = None.
Proof. destruct c as [[] [] [] [] [] [] [] []]; reflexivity. Qed.

Lemma Number_fixedNotation N f :
  0 <= N -> 0 <= f -> Number (fixedNotation N f) = roundDecimal false N (- f).
Proof.
  intros HN Hf.
  destruct (unsigned_fixedNotation false N f HN Hf) as (V & R & c & r & E & W & M & P).
  assert (S : noWhiteSpace (fixedNotation N f) = true /\
              nonDecimalIntegerLiteral (fixedNotation N f) = None).
  { destruct (Z.eq_dec f 0) as [->|Nf].
    - rewrite fixedNotation_0.
      pose proof (decimalRepresentation_digits N) as D.
      split; [now apply digits_noWhiteSpace|].
      destruct (decimalRepresentation N) as [|c1 [|c2 r2]];
        [reflexivity|apply nonDecimal_single|].
      apply nonDecimal_none. left. cbn [allDigits] in D.
      destruct (digitValue c1); [|discriminate]. now destruct (digitValue c2).
    - destruct (fixedNotation_parts N f HN) as (a & b & E' & Da & Db & La & Lb & _); [lia|].
      rewrite E'. split.
      + rewrite !noWhiteSpace_app, (digits_noWhiteSpace a Da), (digits_noWhiteSpace b Db).
        reflexivity.
      + destruct a as [|c1 [|c2 a']]; [cbn in La; lia| |].
        * apply nonDecimal_none. now right.
        * apply nonDecimal_none. left. cbn [allDigits] in Da.
          destruct (digitValue c1); [|discriminate]. now destruct (digitValue c2). }
  destruct S as [S1 S2].
  unfold Number. rewrite E in *. cbn [trimStart]. rewrite W, (trimEnd_id _ S1), S2.
  destruct c as [[] [] [] [] [] [] [] []]; try congruence; now rewrite R.
Qed.

(** ** What follows a literal *)

Lemma noLiteralAhead_inv c w :
  noLiteralAhead (String c w) = true ->
  digitValue c = None /\ c <> "."%char /\ c <> "e"%char /\ c <> "E"%char.
Proof.
  cbn [noLiteralAhead]. destruct (digitValue c); [discriminate|]. intros H.
  apply negb_true_iff in H. apply orb_false_iff in H. destruct H as [H H3].
  apply orb_false_iff in H. destruct H as [H1 H2].
  apply Ascii.eqb_neq in H1, H2, H3. tauto.
Qed.

Lemma decimalDigits_app s w acc cnt :
  noLiteralAhead w = true ->
  decimalDigits acc cnt (s ++ w) =
  (fst (fst (decimalDigits acc cnt s)), snd (fst (decimalDigits acc cnt s)),
   snd (decimalDigits acc cnt s) ++ w).
Proof.
  intros Hw. revert acc cnt. induction s as [|c s IH]; intros acc cnt.
  - destruct w as [|c w]; [reflexivity|].
    apply noLiteralAhead_inv in Hw. destruct Hw as [Hw _].
    cbn [append decimalDigits fst snd]. now rewrite Hw.
  - cbn [append decimalDigits]. destruct (digitValue c); [apply IH|reflexivity].
Qed.

Lemma decimalDigits_count s acc cnt :
  snd (fst (decimalDigits acc cnt s)) = cnt + snd (fst (decimalDigits 0 0 s)) /\
  snd (decimalDigits acc cnt s) = snd (decimalDigits 0 0 s).
Proof.
  revert acc cnt.
  assert (G : forall s acc cnt acc' cnt',
            snd (fst (decimalDigits acc cnt s)) - cnt =
            snd (fst (decimalDigits acc' cnt' s)) - cnt' /\
            snd (decimalDigits acc cnt s) = snd (decimalDigits acc' cnt' s)).
  { clear s. induction s as [|c s IH]; intros acc cnt acc' cnt'.
    - cbn. split; [lia|reflexivity].
    - cbn [decimalDigits]. destruct (digitValue c).
      + destruct (IH (10 * acc + z) (cnt + 1) (10 * acc' + z) (cnt' + 1)) as [A B].
        split; [lia|exact B].
      + cbn. split; [lia|reflexivity]. }
  intros acc cnt. destruct (G s acc cnt 0 0) as [A B]. split; [lia|exact B].
Qed.

Lemma exponentPart_nil_app w :
  noLiteralAhead w = true -> exponentPart w = 0.
Proof.
  destruct w as [|c w]; [reflexivity|]. intros H.
  apply noLiteralAhead_inv in H. destruct H as (_ & _ & He & HE).
  cbn [exponentPart]. apply Ascii.eqb_neq in He, HE. now rewrite He, HE.
Qed.

Lemma exponentPart_app r w :
  exponentRest r = "" -> noLiteralAhead w = true ->
  exponentPart (r ++ w) = exponentPart r.
Proof.
  intros H Hw. destruct r as [|c r]; [now apply exponentPart_nil_app|].
  cbn [append exponentPart exponentRest] in *.
  destruct (Ascii.eqb c "e" || Ascii.eqb c "E")%bool; [|discriminate].
  assert (D : forall q, (let '(_, cnt, r'') := decimalDigits 0 0 q in
                         if (0 <? cnt)%Z then r'' else String c r) = "" ->
                        snd (decimalDigits 0 0 q) = "" /\
                        (0 <? snd (fst (decimalDigits 0 0 q)))%Z = true).
  { intros q. destruct (decimalDigits 0 0 q) as [[e cnt] r'']. cbn [fst snd].
    destruct (0 <? cnt)%Z; [now split|discriminate]. }
  assert (A : forall q, snd (decimalDigits 0 0 q) = "" ->
                        decimalDigits 0 0 (q ++ w) =
                        (fst (fst (decimalDigits 0 0 q)), snd (fst (decimalDigits 0 0 q)), w)).
  { intros q Hq. rewrite (decimalDigits_app q w 0 0 Hw), Hq. reflexivity. }
  destruct r as [|c2 r]; [discriminate|].
  cbn [append].
  destruct c2 as [[] [] [] [] [] [] [] []];
    match type of H with
    | context [decimalDigits 0 0 ?q] =>
        destruct (D q H) as [Q1 Q2];
        change (String ?a (?b ++ w)) with (String a b ++ w);
        rewrite (A q Q1);
        destruct (decimalDigits 0 0 q) as [[e cnt] r'']; cbn [fst snd] in *;
        reflexivity
    end.
Qed.

Lemma unsigned_unfold neg s :
  strUnsignedDecimalLiteral neg s =
    (if prefix "Infinity" s
     then (if neg then PrimFloat.neg_infinity else PrimFloat.infinity)
     else afterInteger neg (fst (fst (decimalDigits 0 0 s)))
            (snd (fst (decimalDigits 0 0 s))) (snd (decimalDigits 0 0 s))) /\
  strUnsignedDecimalLiteralRest s =
    (if prefix "Infinity" s then Some (String.substring 8 (String.length s - 8) s)
     else restAfterInteger (snd (fst (decimalDigits 0 0 s))) (snd (decimalDigits 0 0 s))).
Proof.
  unfold strUnsignedDecimalLiteral, strUnsignedDecimalLiteralRest, afterInteger,
    restAfterInteger.
  destruct (prefix "Infinity" s); [now split|].
  destruct (decimalDigits 0 0 s) as [[i icnt] r]. cbn [fst snd]. now split.
Qed.

Lemma afterInteger_app neg i icnt r w :
  restAfterInteger icnt r = Some "" -> noLiteralAhead w = true ->
  afterInteger neg i icnt (r ++ w) = afterInteger neg i icnt r.
Proof.
  intros H Hw.
  assert (Frac : forall r',
            (let '(_, fcnt, r'') := decimalDigits 0 0 r' in
             if ((0 <? icnt) || (0 <? fcnt))%Z then Some (exponentRest r'') else None) = Some "" ->
            (let '(n, fcnt, r'') := decimalDigits i 0 (r' ++ w) in
             if ((0 <? icnt) || (0 <? fcnt))%Z
             then roundDecimal neg n (exponentPart r'' - fcnt) else PrimFloat.nan) =
            (let '(n, fcnt, r'') := decimalDigits i 0 r' in
             if ((0 <? icnt) || (0 <? fcnt))%Z
             then roundDecimal neg n (exponentPart r'' - fcnt) else PrimFloat.nan)).
  { intros r' Hr. rewrite (decimalDigits_app r' w i 0 Hw).
    destruct (decimalDigits_count r' i 0) as [C1 C2].
    destruct (decimalDigits i 0 r') as [[n fcnt] r'']. cbn [fst snd] in *.
    destruct (decimalDigits 0 0 r') as [[n0 fcnt0] r0]. cbn [fst snd] in *.
    subst r''. replace fcnt with fcnt0 in * by lia.
    destruct ((0 <? icnt) || (0 <? fcnt0))%Z; [|discriminate].
    injection Hr as Hr. now rewrite (exponentPart_app r0 w Hr Hw). }
  assert (Int : (if (0 <? icnt)%Z then Some (exponentRest r) else None) = Some "" ->
                (if (0 <? icnt)%Z then roundDecimal neg i (exponentPart (r ++ w))
                 else PrimFloat.nan) =
                (if (0 <? icnt)%Z then roundDecimal neg i (exponentPart r) else PrimFloat.nan)).
  { destruct (0 <? icnt)%Z; [|discriminate]. intros Hr. injection Hr as Hr.
    now rewrite (exponentPart_app r w Hr Hw). }
  destruct r as [|c r].
  - cbn [append]. unfold restAfterInteger in H. specialize (Int H). cbn [append] in Int.
    destruct w as [|c w]; [reflexivity|].
    pose proof (noLiteralAhead_inv c w Hw) as (_ & Hd & _).
    unfold afterInteger.
    destruct c as [[] [] [] [] [] [] [] []]; try exact Int. now elim Hd.
  - cbn [append]. unfold afterInteger, restAfterInteger in *.
    destruct c as [[] [] [] [] [] [] [] []];
      first [ exact (Int H) | exact (Frac r H) ].
Qed.

Lemma prefix_app p s w : prefix p s = true -> prefix p (s ++ w) = true.
Proof.
  revert s. induction p as [|c p IH]; intros s; [now destruct s, w|].
  destruct s as [|c' s]; [discriminate|]. cbn [prefix append].
  destruct (ascii_dec c c'); [apply IH|discriminate].
Qed.

(** A literal that ends with [s] reads the same with [w] after it. *)
Lemma unsigned_app neg s w :
  strUnsignedDecimalLiteralRest s = Some "" -> noLiteralAhead w = true ->
  strUnsignedDecimalLiteral neg (s ++ w) = strUnsignedDecimalLiteral neg s.
Proof.
  intros H Hw.
  destruct (unsigned_unfold neg s) as [V R]. destruct (unsigned_unfold neg (s ++ w)) as [V' _].
  rewrite V, V'. rewrite R in H. clear V V' R.
  destruct (prefix "Infinity" s) eqn:P.
  - now rewrite (prefix_app _ _ w P).
  - assert (P' : prefix "Infinity" (s ++ w) = false).
    { destruct s as [|c s].
      - cbn in H. discriminate.
      - cbn [append]. apply prefix_Infinity. intros ->.
        cbn in H. discriminate. }
    rewrite P', (decimalDigits_app s w 0 0 Hw). cbn [fst snd].
    now apply afterInteger_app.
Qed.

Lemma trimStart_cases s :
  trimStart s = "" \/ exists c r, trimStart s = String c r /\ isWhiteSpace c = false.
Proof.
  induction s as [|c s IH]; [now left|]. cbn [trimStart].
  destruct (isWhiteSpace c) eqn:W; [exact IH|right; eauto].
Qed.

Lemma trimStart_app s w : trimStart s <> "" -> trimStart (s ++ w) = trimStart s ++ w.
Proof.
  induction s as [|c s IH]; [now intros H|]. cbn [trimStart append].
  destruct (isWhiteSpace c); [exact IH|reflexivity].
Qed.

Lemma trimEnd_split u : exists w, u = trimEnd u ++ w /\ allWhiteSpace w = true.
Proof.
  induction u as [|c u (w & E & W)]; [now exists ""|]. cbn [trimEnd].
  destruct (trimEnd u) as [|c' t] eqn:T.
  - cbn [append] in E. subst u. destruct (isWhiteSpace c) eqn:Wc.
    + exists (String c w). cbn [append allWhiteSpace]. now rewrite Wc, W.
    + now exists w.
  - exists w. cbn [append]. split; [|assumption]. f_equal. exact E.
Qed.

Lemma trimEnd_nonempty c r : isWhiteSpace c = false -> trimEnd (String c r) <> "".
Proof. intros W. cbn [trimEnd]. destruct (trimEnd r); [now rewrite W|discriminate]. Qed.

Lemma whiteSpace_noLiteral c : isWhiteSpace c = true -> noLiteralAhead (String c "") = true.
Proof. destruct c as [[] [] [] [] [] [] [] []]; try discriminate; reflexivity. Qed.

Lemma noLiteralAhead_app w' w :
  allWhiteSpace w' = true -> noLiteralAhead w = true -> noLiteralAhead (w' ++ w) = true.
Proof.
  destruct w' as [|c w']; [now intros _|]. cbn [allWhiteSpace append]. intros H _.
  apply andb_prop in H. destruct H as [H _].
  pose proof (whiteSpace_noLiteral c H) as Q. exact Q.
Qed.

(** ** The canvas *)

Lemma F2R_radius : F2R radius = 160%R.
Proof. F2R_constant 160. Qed.

Lemma F2R_width : F2R width = 400%R.
Proof. F2R_constant 400. Qed.

Lemma F2R_height : F2R height = 400%R.
Proof. F2R_constant 400. Qed.

Lemma F2R_centre : F2R (width / 2)%float = 200%R /\ F2R (height / 2)%float = 200%R.
Proof. split; F2R_constant 200. Qed.

(** The distance of a record whose score is a percentage. *)
Lemma distance_range tx :
  (0 <=? parseFloat (anomaly_percentage tx))%float = true ->
  (parseFloat (anomaly_percentage tx) <=? 100)%float = true ->
  fin (distance tx) /\ (0 <= F2R (distance tx) <= 160)%R.
Proof.
  intros L U.
  assert (B : (0 <=? distance tx)%float = true /\ (distance tx <=? radius)%float = true).
  { destruct (is_anomaly tx) eqn:A.
    - rewrite (distance_anomaly tx A). split; [|now apply anomaly_upper].
      apply (leb_trans _ innerRadius); [reflexivity|now apply anomaly_lower].
    - rewrite (distance_normal tx A). split; [now apply normal_lower|].
      apply (leb_trans _ (0x1.ccccccccccccdp-1 * innerRadius)%float);
        [now apply normal_upper|reflexivity]. }
  destruct B as [B1 B2]. apply leb_iff in B1, B2.
  destruct B1 as (_ & Nd & B1). destruct B2 as (_ & _ & B2).
  rewrite F2R_zero in B1. rewrite F2R_radius in B2.
  split; [|lra]. apply fin_of_range; [assumption|].
  assert (160 < bpow emax)%R by (rewrite bpow_IZR by discriminate; apply IZR_lt; reflexivity).
  lra.
Qed.

(** ** Lists that hold a score that is not a number *)

(** A [NaN] compares with nothing: a list of two records or more that is in
    descending order holds numeric scores only. *)
Lemma descending_numeric (txs : list Transaction) :
  descending txs -> (2 <= List.length txs)%nat -> Forall numeric txs.
Proof.
  intros D L. destruct txs as [|a [|b r]]; cbn in L; try lia.
  unfold descending in D. apply StronglySorted_inv in D. destruct D as [_ F].
  assert (G : Forall (fun t => numeric t /\ numeric a) (b :: r)).
  { eapply Forall_impl; [|exact F]. cbn beta. intros t H.
    apply leb_iff in H. destruct H as (Nt & Na & _).
    split; now apply is_nan_iff. }
  constructor.
  - apply Forall_inv in G. tauto.
  - eapply Forall_impl; [|exact G]. cbn beta. tauto.
Qed.

(** ** More samples *)

Example white_space_samples :
  parseFloat (String "160" "12.5") = 12.5%float /\
  parseFloat (String "009" (String "160" " 12.5")) = 12.5%float /\
  Number (String "160" "") = 0%float /\
  Number (String "160" "12.5" ++ String "160" "") = 12.5%float /\
  trimStart (value_eth blankValue) = "".
Proof. vm_compute. repeat split; reflexivity. Qed.

(** Below 0 the order of the distances from the centre turns round: the normal
    records of scores -100 and -50 are drawn 86.4 and 43.2 from the centre,
    and the one of score -150 is drawn 129.6 from it, outside the anomalous
    record of score 10. *)
Example negative_score_samples :
  (distance (sampleRecord "-100" false) <? distance normalMinus50)%float = true /\
  (abs (distance normalMinus50) <? abs (distance (sampleRecord "-100" false)))%float = true /\
  (abs (distance anomaly10) <? abs (distance (sampleRecord "-150" false)))%float = true /\
  abs (distance (sampleRecord "-150" false)) = distance normal150.
Proof. vm_compute. repeat split; reflexivity. Qed.

Lemma numeric_ties :
  Forall numeric (map (fun p => sampleRecord p false) ["10"; "90"; "50"; "9e1"]).
Proof. repeat constructor. Qed.

Lemma numeric_sorted_sample :
  Forall numeric (map (fun p => sampleRecord p false) ["90"; "50"; "10"]).
Proof. repeat constructor. Qed.

Lemma descending_sample :
  descending (map (fun p => sampleRecord p false) ["90"; "50"; "10"]).
Proof. repeat constructor. Qed.

Example Number_samples :
  Number "" = 0%float /\ Number "  " = 0%float /\ Number " 12.5 " = 12.5%float /\
  is_nan (Number "12px") = true /\ Number "0x1F" = 31%float /\ Number "0b101" = 5%float /\
  Number "0o17" = 15%float /\ is_nan (Number "-0x1F") = true /\ is_nan (Number "0x") = true /\
  Number "-Infinity" = neg_infinity /\ is_nan (Number "Infinityx") = true /\
  Number "1e3" = 1000%float /\ is_nan (Number "1e") = true /\ Number "5." = 5%float /\
  Number ".5" = 0.5%float /\ is_nan (Number ".") = true /\ Number "-0" = (-0)%float /\
  is_nan (Number "1_000") = true /\ Number "+.5e1" = 5%float.
Proof. vm_compute. repeat split; reflexivity. Qed.

Example toFixed_samples (host : float -> string) :
  toFixed host 1.5 6 = "1.500000" /\ toFixed host 0 6 = "0.000000" /\
  toFixed host (-0) 6 = "0.000000" /\ toFixed host (parseFloat "1.005") 2 = "1.00" /\
  toFixed host (parseFloat "8.345") 2 = "8.35" /\ toFixed host 2.5 0 = "3" /\
  toFixed host (-2.5) 0 = "-3" /\ toFixed host (-0x1p-30) 2 = "-0.00" /\
  toFixed host (parseFloat "123.456") 2 = "123.46" /\
  toFixed host 1e20 2 = "100000000000000000000.00" /\ toFixed host nan 2 = "NaN" /\
  toFixed host infinity 2 = "Infinity" /\ toFixed host neg_infinity 6 = "-Infinity" /\
  toFixed host 1e21 2 = host 1e21%float /\ toFixed host 0x1p-1074 6 = "0.000000" /\
  toFixed host (parseFloat "99.995") 2 = "100.00" /\
  toFixed host (parseFloat "0.1") 20 = "0.10000000000000000555".
Proof. vm_compute. repeat split; reflexivity. Qed.

Example substring_samples :
  substring "0x0123456789abcdef" 0 (Some 8) = "0x012345" /\
  substring "0x0123456789abcdef" (18 - 6) None = "abcdef" /\
  substring "abc" (3 - 6) None = "abc" /\ substring "abc" 2 (Some 1) = "b" /\
  shorten 8 6 "0x0123456789abcdef" = "0x012345...abcdef".
Proof. vm_compute. repeat split; reflexivity. Qed.

(** * Part V: the claims *)

(** ** The claims on the projector *)

(** C1. For a record with [is_anomaly = true] whose parsed score lies in
    [0, 100], the projector computes
    [distance = innerRadius + (score / 100) * (radius - innerRadius)], and this
    distance lies in [innerRadius, radius]. *)
Theorem anomaly_distance_in_outer_band (tx : Transaction) :
  is_anomaly tx = true ->
  (0 <=? parseFloat (anomaly_percentage tx))%float = true ->
  (parseFloat (anomaly_percentage tx) <=? 100)%float = true ->
  distance tx =
    (innerRadius + (parseFloat (anomaly_percentage tx) / 100) * (radius - innerRadius))%float /\
  (innerRadius <=? distance tx)%float = true /\
  (distance tx <=? radius)%float = true.
Proof.
  intros Ha L U. rewrite (distance_anomaly tx Ha).
  split; [reflexivity|]. split; [now apply anomaly_lower|now apply anomaly_upper].
Qed.

Lemma anomaly_distance_in_outer_band_witness :
  is_anomaly anomaly90 = true /\
  (0 <=? parseFloat (anomaly_percentage anomaly90))%float = true /\
  (parseFloat (anomaly_percentage anomaly90) <=? 100)%float = true /\
  (innerRadius <=? distance anomaly90)%float = true /\
  (distance anomaly90 <=? radius)%float = true.
Proof.
  split; [reflexivity|]. split; [vm_compute; reflexivity|]. split; [vm_compute; reflexivity|].
  apply (anomaly_distance_in_outer_band anomaly90); vm_compute; reflexivity.
Defined.

(** C2. For a record with [is_anomaly = false] whose parsed score lies in
    [0, 100], the projector computes
    [distance = (score / 100) * innerRadius * 0.9], and this distance lies in
    [0, 0.9 * innerRadius]. *)
Theorem normal_distance_in_inner_band (tx : Transaction) :
  is_anomaly tx = false ->
  (0 <=? parseFloat (anomaly_percentage tx))%float = true ->
  (parseFloat (anomaly_percentage tx) <=? 100)%float = true ->
  distance tx =
    ((parseFloat (anomaly_percentage tx) / 100) * innerRadius * 0x1.ccccccccccccdp-1)%float /\
  (0 <=? distance tx)%float = true /\
  (distance tx <=? 0x1.ccccccccccccdp-1 * innerRadius)%float = true.
Proof.
  intros Ha L U. rewrite (distance_normal tx Ha).
  split; [reflexivity|]. split; [now apply normal_lower|now apply normal_upper].
Qed.

Lemma normal_distance_in_inner_band_witness :
  is_anomaly normal10 = false /\
  (0 <=? parseFloat (anomaly_percentage normal10))%float = true /\
  (parseFloat (anomaly_percentage normal10) <=? 100)%float = true /\
  (0 <=? distance normal10)%float = true /\
  (distance normal10 <=? 0x1.ccccccccccccdp-1 * innerRadius)%float = true.
Proof.
  split; [reflexivity|]. split; [vm_compute; reflexivity|]. split; [vm_compute; reflexivity|].
  apply (normal_distance_in_inner_band normal10); vm_compute; reflexivity.
Defined.

(** C3, as stated, fails: a normal record with score 150 is placed at distance
    129.6, farther out than an anomalous record with score 10, at 102.4. *)
Lemma bands_overlap_outside_percent_range :
  is_anomaly anomaly10 = true /\ is_anomaly normal150 = false /\
  (distance normal150 <? distance anomaly10)%float = false /\
  (distance anomaly10 <? distance normal150)%float = true.
Proof. vm_compute. repeat split; reflexivity. Qed.

(** C3, amended. The point of a record is drawn at [|distance|] from the
    centre. An anomalous record whose parsed score is at least 0 has a
    strictly greater [distance], and is drawn strictly farther from the
    centre, than a normal record whose parsed score is within [-100, 100]; in
    particular the two bands do not overlap for scores in [0, 100]. *)
Theorem bands_disjoint_within_percent_range (a n : Transaction) :
  is_anomaly a = true -> is_anomaly n = false ->
  (0 <=? parseFloat (anomaly_percentage a))%float = true ->
  (-100 <=? parseFloat (anomaly_percentage n))%float = true ->
  (parseFloat (anomaly_percentage n) <=? 100)%float = true ->
  (distance n <? distance a)%float = true /\
  (abs (distance n) <? abs (distance a))%float = true.
Proof.
  intros Ha Hn La Ln Un.
  rewrite (distance_anomaly a Ha), (distance_normal n Hn).
  pose proof (anomaly_lower _ La) as A. pose proof (normal_upper _ Un) as N.
  pose proof (normal_between _ Ln) as M.
  assert (G : (0x1.ccccccccccccdp-1 * innerRadius <? innerRadius)%float = true) by reflexivity.
  assert (Z : (0 <? innerRadius)%float = true) by reflexivity.
  apply leb_iff in A, N, M. apply ltb_iff in G, Z. rewrite !ltb_iff, !abs_F2R.
  destruct A as (_ & Na & A). destruct N as (Nn & _ & N). destruct M as (_ & _ & M).
  destruct G as (_ & _ & G). destruct Z as (_ & _ & Z).
  rewrite F2R_opp in M. rewrite F2R_zero in Z.
  repeat split; try assumption; try (now apply num_abs).
  - lra.
  - rewrite (Rabs_right (F2R (anomalyDistance _))) by lra.
    apply Rabs_def1; lra.
Qed.

Lemma bands_disjoint_within_percent_range_witness :
  is_anomaly anomaly10 = true /\ is_anomaly normalMinus50 = false /\
  (0 <=? parseFloat (anomaly_percentage anomaly10))%float = true /\
  (-100 <=? parseFloat (anomaly_percentage normalMinus50))%float = true /\
  (parseFloat (anomaly_percentage normalMinus50) <=? 100)%float = true /\
  (distance normalMinus50 <? distance anomaly10)%float = true /\
  (abs (distance normalMinus50) <? abs (distance anomaly10))%float = true.
Proof.
  split; [reflexivity|]. split; [reflexivity|].
  split; [vm_compute; reflexivity|]. split; [vm_compute; reflexivity|].
  split; [vm_compute; reflexivity|].
  apply (bands_disjoint_within_percent_range anomaly10 normalMinus50); vm_compute; reflexivity.
Defined.




(** C7. The projector produces exactly one point per input record, and the
    point at index [i] is derived from the record at index [i]: its score is
    the parsed [anomaly_percentage] of that record and its [isAnomaly] flag is
    the record's [is_anomaly]. *)
Theorem points_index_aligned
    (Math_cos Math_sin : float -> float) (Math_PI : float) (Math_random : nat -> float)
    (txs : list Transaction) :
  List.length (points Math_cos Math_sin Math_PI Math_random txs) = List.length txs /\
  forall i tx, nth_error txs i = Some tx ->
    exists p,
      nth_error (points Math_cos Math_sin Math_PI Math_random txs) i = Some p /\
      p = toPoint Math_cos Math_sin Math_PI Math_random i tx /\
      Point.score p = parseFloat (anomaly_percentage tx) /\
      Point.isAnomaly p = is_anomaly tx.
Proof.
  split; [apply mapPoints_length|].
  intros i tx H. eexists. split; [exact (mapPoints_nth _ _ _ _ 0 txs i tx H)|].
  repeat split.
Qed.

(** ** The claim on the severity classifier *)

(** C4. The severity classifier is total and returns, for each of the six
    severities and both themes, the tag of the specification's table, and the
    gray default of the theme for every other value. *)
Theorem getSeverityClass_table :
  (forall severity isDark,
     getSeverityClass severity isDark = tagClass (classify severity isDark)) /\
  (forall isDark,
     getSeverityClass (JsString "HIGH") isDark =
       (if isDark then "text-red-400" else "text-red-600") /\
     getSeverityClass (JsString "MEDIUM-HIGH") isDark =
       (if isDark then "text-orange-400" else "text-orange-500") /\
     getSeverityClass (JsString "MEDIUM") isDark =
       (if isDark then "text-yellow-400" else "text-yellow-500") /\
     getSeverityClass (JsString "LOW-MEDIUM") isDark =
       (if isDark then "text-blue-400" else "text-blue-400") /\
     getSeverityClass (JsString "LOW") isDark =
       (if isDark then "text-blue-400" else "text-blue-500") /\
     getSeverityClass (JsString "VERY-LOW") isDark =
       (if isDark then "text-green-400" else "text-green-500")) /\
  (forall severity isDark,
     (forall s, In s (map fst severityTable) -> severity <> JsString s) ->
     getSeverityClass severity isDark =
       (if isDark then "text-gray-400" else "text-gray-500")).
Proof.
  split; [|split].
  - intros [| | | |s] isDark; try (destruct isDark; reflexivity).
    unfold getSeverityClass, classify, severityTable. cbn [find fst].
    repeat match goal with
    | |- context [s =? ?k] => destruct (s =? k)
    end; destruct isDark; reflexivity.
  - intros isDark. repeat split.
  - intros [| | | |s] isDark H; try reflexivity.
    unfold getSeverityClass.
    repeat match goal with
    | |- context [s =? ?k] =>
        destruct (String.eqb_spec s k) as [->|_];
          [exfalso; apply (H k); [cbn; tauto|reflexivity]|]
    end.
    reflexivity.
Qed.

(** ** The claims on the sort toggle *)

(** C5, as stated, fails on a record list that holds a score that is not a
    number. With the scores 10, abc and 90 and the descending order, the
    comparator answers [NaN] for each pair that holds abc: the list stays as
    it is, 10 before 90. No order of these three records is descending. *)
Lemma handleSort_leaves_non_numeric_list_unsorted :
  sortOrder (tableOf ["10"; "abc"; "90"]) = desc /\
  recordsOf (data (handleSort (tableOf ["10"; "abc"; "90"]))) =
    Some (map (fun p => sampleRecord p false) ["10"; "abc"; "90"]) /\
  (parseFloat "10" <? parseFloat "90")%float = true /\
  ~ descending (map (fun p => sampleRecord p false) ["10"; "abc"; "90"]) /\
  (forall txs,
     Permutation (map (fun p => sampleRecord p false) ["10"; "abc"; "90"]) txs ->
     ~ descending txs).
Proof.
  assert (P : forall txs,
            Permutation (map (fun p => sampleRecord p false) ["10"; "abc"; "90"]) txs ->
            ~ descending txs).
  { intros txs H D.
    assert (L : (2 <= List.length txs)%nat)
      by (rewrite <- (Permutation_length H); cbn; lia).
    pose proof (descending_numeric txs D L) as N.
    rewrite Forall_forall in N.
    specialize (N (sampleRecord "abc" false)
                  (Permutation_in _ H (or_intror (or_introl eq_refl)))).
    vm_compute in N. discriminate. }
  split; [reflexivity|]. split; [vm_compute; reflexivity|].
  split; [vm_compute; reflexivity|]. split; [apply P, Permutation_refl|exact P].
Qed.

(** C5, amended. The sort order starts as descending. An invocation of the
    toggle on a record list with numeric scores puts a sorted copy of the
    whole list in the state, descending when the order is descending and
    ascending when it is ascending, shows that copy in the table, and flips
    the order. *)
Theorem handleSort_sorts_and_flips (s : AppState) (d : Response) (txs : list Transaction) :
  data s = Some d -> transactions d = Some txs -> Forall numeric txs ->
  sortOrder initialState = desc /\
  exists sorted,
    data (handleSort s) =
      Some {| total_transactions := total_transactions d; transactions := Some sorted |} /\
    Permutation txs sorted /\
    match sortOrder s with
    | desc => descending sorted
    | asc => ascending sorted
    end /\
    tableRows (data (handleSort s)) (darkMode (handleSort s)) =
      mapRows 0 (darkMode s) sorted /\
    sortOrder (handleSort s) = match sortOrder s with desc => asc | asc => desc end.
Proof.
  intros Hd Ht Hn. split; [reflexivity|].
  exists (sort (compareScores (sortOrder s)) txs).
  unfold handleSort. rewrite Hd, Ht. cbn.
  repeat split.
  - symmetry. apply sort_perm.
  - destruct (sortOrder s); [now apply sort_desc|now apply sort_asc].
Qed.

Lemma numeric_tableOf :
  Forall numeric (map (fun p => sampleRecord p false) ["10"; "90"; "50"]).
Proof. repeat constructor. Qed.

Lemma handleSort_sorts_and_flips_witness :
  sortOrder initialState = desc /\
  exists sorted,
    data (handleSort (tableOf ["10"; "90"; "50"])) =
      Some {| total_transactions := 3; transactions := Some sorted |} /\
    Permutation (map (fun p => sampleRecord p false) ["10"; "90"; "50"]) sorted /\
    descending sorted /\
    tableRows (data (handleSort (tableOf ["10"; "90"; "50"])))
      (darkMode (handleSort (tableOf ["10"; "90"; "50"]))) =
      mapRows 0 false sorted /\
    sortOrder (handleSort (tableOf ["10"; "90"; "50"])) = asc.
Proof.
  exact (handleSort_sorts_and_flips (tableOf ["10"; "90"; "50"]) _ _
           eq_refl eq_refl numeric_tableOf).
Defined.

(** C6. For a record list with numeric parsed scores, two invocations of the
    toggle in succession, starting from the descending order, leave the
    displayed list in ascending order of the parsed score. *)
Theorem handleSort_twice_ascending (s : AppState) (d : Response) (txs : list Transaction) :
  sortOrder s = desc ->
  data s = Some d -> transactions d = Some txs -> Forall numeric txs ->
  exists sorted,
    data (handleSort (handleSort s)) =
      Some {| total_transactions := total_transactions d; transactions := Some sorted |} /\
    tableRows (data (handleSort (handleSort s))) (darkMode (handleSort (handleSort s))) =
      mapRows 0 (darkMode s) sorted /\
    Permutation txs sorted /\
    ascending sorted.
Proof.
  intros Ho Hd Ht Hn.
  exists (sort (compareScores asc) (sort (compareScores desc) txs)).
  unfold handleSort. rewrite Hd, Ht, Ho. cbn.
  repeat split.
  - now rewrite !sort_perm.
  - apply sort_asc. now apply sort_numeric.
Qed.

Lemma handleSort_twice_ascending_witness :
  exists sorted,
    data (handleSort (handleSort (tableOf ["10"; "90"; "50"]))) =
      Some {| total_transactions := 3; transactions := Some sorted |} /\
    tableRows (data (handleSort (handleSort (tableOf ["10"; "90"; "50"]))))
      (darkMode (handleSort (handleSort (tableOf ["10"; "90"; "50"])))) =
      mapRows 0 false sorted /\
    Permutation (map (fun p => sampleRecord p false) ["10"; "90"; "50"]) sorted /\
    ascending sorted.
Proof.
  exact (handleSort_twice_ascending (tableOf ["10"; "90"; "50"]) _ _
           eq_refl eq_refl eq_refl numeric_tableOf).
Defined.

(** ** The claims on malformed responses and failed requests *)

(** C8, as stated, fails for a non-numeric [anomaly_percentage]: the record
    list is not treated as empty, the record gets its table row and its
    circle. *)
Lemma non_numeric_score_is_rendered :
  is_nan (parseFloat (anomaly_percentage (sampleRecord "abc" true))) = true /\
  List.length (tableRows (Some nonNumericScore) false) = 1%nat /\
  (forall Math_cos Math_sin Math_PI Math_random,
     List.length
       (HyperSphereVisualization Math_cos Math_sin Math_PI Math_random
          (Some nonNumericScore) false []) = 1%nat).
Proof. repeat split. Qed.

(** C8, amended. A response without the [transactions] key is tolerated: the
    record list is treated as absent, and the view renders no projected point
    and no table row. A non-numeric [anomaly_percentage] is not screened: the
    list is kept, every record still gets one table row and one projected
    point, and the point of such a record has a [NaN] score and [NaN]
    coordinates. *)
Theorem malformed_response_rendering
    (Math_cos Math_sin : float -> float) (Math_PI : float) (Math_random : nat -> float)
    (response : option Response) (dark : bool) :
  ((response = None \/ exists d, response = Some d /\ transactions d = None) ->
     HyperSphereVisualization Math_cos Math_sin Math_PI Math_random response dark [] = [] /\
     tableRows response dark = [] /\
     forall s, data s = response -> darkMode s = dark ->
       loading s = false -> error s = None ->
       App Math_cos Math_sin Math_PI Math_random s =
         Dashboard (totalShown response) 0 [] [] (sortOrder s)) /\
  (forall d txs, response = Some d -> transactions d = Some txs ->
     List.length
       (HyperSphereVisualization Math_cos Math_sin Math_PI Math_random response dark []) =
       List.length txs /\
     List.length (tableRows response dark) = List.length txs /\
     forall i tx, nth_error txs i = Some tx ->
       is_nan (parseFloat (anomaly_percentage tx)) = true ->
       exists p,
         nth_error
           (HyperSphereVisualization Math_cos Math_sin Math_PI Math_random response dark [])
           i = Some p /\
         is_nan (Point.score p) = true /\
         is_nan (Point.x p) = true /\ is_nan (Point.y p) = true).
Proof.
  split.
  - intros H.
    assert (E : HyperSphereVisualization Math_cos Math_sin Math_PI Math_random response dark []
                = [] /\ tableRows response dark = [] /\ anomaliesShown response = 0%nat).
    { destruct H as [->|(d & -> & H)]; cbn; [auto|]. rewrite H. auto. }
    destruct E as (E1 & E2 & E3). repeat split; try assumption.
    intros s Hs Hd Hl He. unfold App, dashboard. rewrite Hl, He, Hs, Hd, E1, E2, E3.
    reflexivity.
  - intros d txs -> Ht. cbn. rewrite Ht. repeat split.
    + apply mapPoints_length.
    + apply mapRows_length.
    + intros i tx Hi Hn. eexists. split; [exact (mapPoints_nth _ _ _ _ 0 txs i tx Hi)|].
      cbn. repeat split; [assumption| |]; apply nan_mul_r, distance_nan, Hn.
Qed.

Lemma malformed_response_rendering_witness :
  HyperSphereVisualization (fun a => a) (fun a => a) 0%float (fun _ => 0%float)
    (Some missingTransactions) false [] = [] /\
  tableRows (Some missingTransactions) false = [] /\
  exists p,
    nth_error
      (HyperSphereVisualization (fun a => a) (fun a => a) 0%float (fun _ => 0%float)
         (Some nonNumericScore) false []) 0 = Some p /\
    is_nan (Point.score p) = true /\
    is_nan (Point.x p) = true /\ is_nan (Point.y p) = true.
Proof.
  destruct (malformed_response_rendering (fun a => a) (fun a => a) 0%float
              (fun _ => 0%float) (Some missingTransactions) false) as [A _].
  destruct (A (or_intror (ex_intro _ missingTransactions (conj eq_refl eq_refl))))
    as (A1 & A2 & _).
  destruct (malformed_response_rendering (fun a => a) (fun a => a) 0%float
              (fun _ => 0%float) (Some nonNumericScore) false) as [_ B].
  destruct (B nonNumericScore _ eq_refl eq_refl) as (_ & _ & B3).
  split; [exact A1|]. split; [exact A2|].
  exact (B3 0%nat (sampleRecord "abc" true) eq_refl eq_refl).
Defined.

(** C9. A rejected request is caught and turned into one generic error
    message that replaces the main view; the stored response is left as it
    was; the failed call issues its one request and no other, and no event
    but the timer issues a request; a later fulfilled request clears the
    error, and the main view is rendered again. *)
Theorem fetch_failure_is_shown_and_recovered
    (Math_cos Math_sin : float -> float) (Math_PI : float) (Math_random : nat -> float)
    (s : AppState) :
  App Math_cos Math_sin Math_PI Math_random (fst (fetchData Rejected s)) =
    ErrorMessage "Error fetching data, please refresh the page" /\
  data (fst (fetchData Rejected s)) = data s /\
  snd (fetchData Rejected s) =
    [HttpGet "http://8.215.199.5:5000/detect_anomaly"; ConsoleError] /\
  (forall e s', e <> IntervalElapsed -> filter anyUrl (snd (step e s')) = []) /\
  (forall s' body,
     error (fst (fetchData (Fulfilled body) s')) = None /\
     data (fst (fetchData (Fulfilled body) s')) = body /\
     App Math_cos Math_sin Math_PI Math_random (fst (fetchData (Fulfilled body) s')) =
       dashboard Math_cos Math_sin Math_PI Math_random (fst (fetchData (Fulfilled body) s'))).
Proof.
  repeat split.
  intros [|[body|]| |] s' H; try reflexivity. now elim H.
Qed.

(** * Part VI: further properties of the program *)

(** ** The sort toggle *)

(** X1. [handleSort] leaves [loading], [error] and [darkMode] as they are, and
    the two counters of the statistics panel with them. Without a record list
    (no response yet, or a response without [transactions]) it changes
    nothing, the sort order included. With one, whatever the scores are, the
    new list holds the same records, and the sort order flips. *)
Theorem handleSort_keeps_the_records (s : AppState) :
  loading (handleSort s) = loading s /\
  error (handleSort s) = error s /\
  darkMode (handleSort s) = darkMode s /\
  totalShown (data (handleSort s)) = totalShown (data s) /\
  anomaliesShown (data (handleSort s)) = anomaliesShown (data s) /\
  match recordsOf (data s) with
  | Some txs =>
      exists sorted,
        recordsOf (data (handleSort s)) = Some sorted /\ Permutation txs sorted /\
        sortOrder (handleSort s) = opposite (sortOrder s)
  | None => handleSort s = s
  end.
Proof.
  destruct (recordsOf (data s)) as [txs|] eqn:E.
  - unfold recordsOf in E. destruct (data s) as [d|] eqn:Hd; [|discriminate].
    rewrite (handleSort_present s d txs Hd E). cbn. rewrite E.
    repeat split.
    + apply filter_length_perm, sort_perm.
    + eexists. repeat split. symmetry. apply sort_perm.
  - rewrite (handleSort_absent s E). repeat split.
Qed.

(** X2. The sort of [handleSort] is stable: in a record list with numeric
    scores, the records whose parsed score equals [k] come out in the order
    they had, in either direction. *)
Theorem handleSort_is_stable (s : AppState) (txs : list Transaction) (k : float) :
  recordsOf (data s) = Some txs -> Forall numeric txs ->
  exists sorted,
    recordsOf (data (handleSort s)) = Some sorted /\
    filter (sameScore k) sorted = filter (sameScore k) txs.
Proof.
  intros E N. unfold recordsOf in E. destruct (data s) as [d|] eqn:Hd; [|discriminate].
  rewrite (handleSort_present s d txs Hd E). cbn. eexists. split; [reflexivity|].
  unfold sameScore. now apply sort_stable.
Qed.

Lemma handleSort_is_stable_witness :
  exists sorted,
    recordsOf (data (handleSort (tableOf ["10"; "90"; "50"; "9e1"]))) = Some sorted /\
    filter (sameScore 90) sorted =
    filter (sameScore 90) (map (fun p => sampleRecord p false) ["10"; "90"; "50"; "9e1"]).
Proof.
  exact (handleSort_is_stable (tableOf ["10"; "90"; "50"; "9e1"]) _ 90%float
           eq_refl numeric_ties).
Defined.

(** X3. On a record list with numeric scores, clicking the sort header
    alternates between two states of the component: the third click gives the
    state that the first click gave. *)
Theorem handleSort_has_period_two (s : AppState) (txs : list Transaction) :
  recordsOf (data s) = Some txs -> Forall numeric txs ->
  handleSort (handleSort (handleSort s)) = handleSort s.
Proof.
  intros E N. unfold recordsOf in E. destruct (data s) as [d|] eqn:Hd; [|discriminate].
  rewrite (handleSort_present s d txs Hd E).
  pose proof (sort_back_and_forth (sortOrder s) txs N) as B.
  destruct (sortOrder s); unfold handleSort; cbn in *; now rewrite B.
Qed.

Lemma handleSort_has_period_two_witness :
  handleSort (handleSort (handleSort (tableOf ["10"; "90"; "50"; "9e1"]))) =
  handleSort (tableOf ["10"; "90"; "50"; "9e1"]).
Proof.
  exact (handleSort_has_period_two (tableOf ["10"; "90"; "50"; "9e1"]) _
           eq_refl numeric_ties).
Defined.

(** X4. Sorting a table that already is in the order asked for (numeric
    scores) leaves the list as it is. *)
Theorem handleSort_on_sorted_table (s : AppState) (txs : list Transaction) :
  recordsOf (data s) = Some txs -> Forall numeric txs ->
  match sortOrder s with desc => descending txs | asc => ascending txs end ->
  recordsOf (data (handleSort s)) = Some txs.
Proof.
  intros E N S. unfold recordsOf in E. destruct (data s) as [d|] eqn:Hd; [|discriminate].
  rewrite (handleSort_present s d txs Hd E). cbn. f_equal.
  now apply sort_sorted_id.
Qed.

Lemma handleSort_on_sorted_table_witness :
  recordsOf (data (handleSort (tableOf ["90"; "50"; "10"]))) =
  Some (map (fun p => sampleRecord p false) ["90"; "50"; "10"]).
Proof.
  exact (handleSort_on_sorted_table (tableOf ["90"; "50"; "10"]) _
           eq_refl numeric_sorted_sample descending_sample).
Defined.

(** ** The state of the component over its life *)

(** X5. The statistics panel, the visualization and the table agree: there
    is one circle per row, and the Anomalies counter is the number of points
    flagged [isAnomaly], the number of circles filled with the anomaly colour
    of the theme, and the number of rows whose badge reads [Anomaly]. *)
Theorem anomalies_counter_agrees
    (Math_cos Math_sin : float -> float) (Math_PI : float) (Math_random : nat -> float)
    (response : option Response) (darkMode : bool) :
  let points := HyperSphereVisualization Math_cos Math_sin Math_PI Math_random response darkMode [] in
  let rows := tableRows response darkMode in
  List.length points = List.length rows /\
  anomaliesShown response = List.length (filter Point.isAnomaly points) /\
  anomaliesShown response =
    List.length (filter (fun c => Circle.fill c =? (if darkMode then "#EF4444" else "#DC2626"))
                   (circles (draw darkMode points))) /\
  anomaliesShown response =
    List.length (filter (fun row => status row =? "Anomaly") rows).
Proof.
  cbv zeta.
  destruct response as [d|]; [|repeat split]. cbn.
  destruct (transactions d) as [txs|]; [|repeat split].
  unfold points.
  assert (P : forall q : bool -> bool,
            List.length (filter (fun p => q (Point.isAnomaly p))
                           (mapPoints Math_cos Math_sin Math_PI Math_random 0 txs)) =
            List.length (filter (fun tx => q (is_anomaly tx)) txs)).
  { intros q.
    rewrite (filter_length_map Point.isAnomaly q), mapPoints_isAnomaly.
    apply filter_map_length. }
  split; [now rewrite mapPoints_length, mapRows_length|].
  split; [symmetry; exact (P (fun b => b))|].
  split.
  - rewrite filter_map_length.
    rewrite (filter_ext_length _ (fun p => Point.isAnomaly p)).
    + symmetry. exact (P (fun b => b)).
    + intros p. cbn. now destruct (Point.isAnomaly p), darkMode.
  - rewrite (filter_length_map status (fun t => t =? "Anomaly")), mapRows_status.
    rewrite filter_map_length. apply filter_ext_length.
    intros tx. now destruct (is_anomaly tx).
Qed.

(** X6. What [App] renders follows the last timer tick or settled request:
    the spinner after a tick (whatever data the state holds), the error
    message after a rejected request, the dashboard after a fulfilled one.
    Clicks on the sort header and on the theme button after it change none of
    this. *)
Theorem view_follows_the_last_request
    (Math_cos Math_sin : float -> float) (Math_PI : float) (Math_random : nat -> float)
    (s0 : AppState) (before after : list Event) (e : Event) :
  isClick e = false -> forallb isClick after = true ->
  let s := fst (run (before ++ e :: after) s0) in
  App Math_cos Math_sin Math_PI Math_random s =
    match e with
    | IntervalElapsed => Spinner
    | RequestSettled Rejected => ErrorMessage "Error fetching data, please refresh the page"
    | _ => dashboard Math_cos Math_sin Math_PI Math_random s
    end.
Proof.
  intros He Ha. cbv zeta. rewrite run_app. cbn [fst]. rewrite run_cons. cbn [fst].
  set (s1 := fst (run before s0)).
  destruct (clicks_keep_view after (fst (step e s1)) Ha) as [L E].
  unfold App. rewrite L, E.
  destruct e as [|[body|]| |]; try discriminate; reflexivity.
Qed.

Lemma view_follows_the_last_request_witness :
  App (fun a => a) (fun a => a) 0%float (fun _ => 0%float)
    (fst (run ([RequestSettled (Fulfilled (Some nonNumericScore))] ++
               RequestSettled Rejected :: [SortClicked; ThemeClicked]) initialState)) =
  ErrorMessage "Error fetching data, please refresh the page".
Proof.
  exact (view_follows_the_last_request (fun a => a) (fun a => a) 0%float (fun _ => 0%float)
           initialState [RequestSettled (Fulfilled (Some nonNumericScore))]
           [SortClicked; ThemeClicked] (RequestSettled Rejected) eq_refl eq_refl).
Defined.

(** X7. Over the life of the component, [App] issues one request on mount
    and one per timer tick, all to the same URL, and no other: a rejection is
    logged once and triggers no retry. One timer of 300000 ms is set, on
    mount; it is cleared on unmount. *)
Theorem requests_follow_the_timer (prefersDark : bool) (events : list Event) :
  exists during,
    lifetime prefersDark events =
      HttpGet url :: SetInterval 300000 :: (during ++ [ClearInterval])%list /\
    filter isTimer during = [] /\
    filter anyUrl during = repeat (HttpGet url) (List.length (filter isTick events)) /\
    List.length (filter isConsoleError during) = List.length (filter isRejected events).
Proof.
  unfold lifetime. cbn [mount fetchData_start initialState app unmount].
  eexists. split; [reflexivity|].
  rewrite run_effects. generalize events. clear events.
  induction events as [|e rest (IH1 & IH2 & IH3)]; [repeat split|].
  cbn [flat_map]. rewrite !filter_app, !length_app, IH1, IH2, IH3.
  destruct e as [|[body|]| |]; repeat split.
Qed.

(** X8. The state holds the records of the last fulfilled response: the same
    total and the same records, in some order. Ticks, rejected requests and
    clicks after it add no record and drop none. *)
Theorem table_shows_the_last_response
    (s0 : AppState) (before after : list Event) (body : option Response) :
  forallb (fun e => negb (isFulfilled e)) after = true ->
  sameRecords body
    (data (fst (run (before ++ RequestSettled (Fulfilled body) :: after) s0))).
Proof.
  intros H. rewrite run_app. cbn [fst]. rewrite run_cons. cbn [fst step fetchData_settle].
  match goal with |- sameRecords _ (data (fst (run after ?s))) =>
    exact (run_sameRecords after s H)
  end.
Qed.

Lemma table_shows_the_last_response_witness :
  sameRecords (data (tableOf ["10"; "90"; "50"]))
    (data (fst (run ([IntervalElapsed] ++
                     RequestSettled (Fulfilled (data (tableOf ["10"; "90"; "50"]))) ::
                     [SortClicked; IntervalElapsed; RequestSettled Rejected; SortClicked])
                  initialState))).
Proof.
  exact (table_shows_the_last_response initialState [IntervalElapsed]
           [SortClicked; IntervalElapsed; RequestSettled Rejected; SortClicked]
           (data (tableOf ["10"; "90"; "50"])) eq_refl).
Defined.

(** X9. A fulfilled response puts its record list in the state as the service
    ordered it, and leaves the sort order where the clicks before it left it:
    until the next click on the sort header, the arrow does not tell the order
    of the table. *)
Theorem refresh_resets_the_order_not_the_arrow
    (s0 : AppState) (before after : list Event) (body : option Response) :
  forallb (fun e => negb (isFulfilled e) && negb (isSort e)) after = true ->
  let s := fst (run (before ++ RequestSettled (Fulfilled body) :: after) s0) in
  data s = body /\ sortOrder s = sortOrder (fst (run before s0)).
Proof.
  intros H. cbv zeta. rewrite run_app. cbn [fst]. rewrite run_cons. cbn [fst].
  destruct (run_keeps_order after (fst (step (RequestSettled (Fulfilled body))
                                           (fst (run before s0)))) H) as [-> ->].
  now split.
Qed.

Lemma refresh_resets_the_order_not_the_arrow_witness :
  data (fst (run ([RequestSettled (Fulfilled (data (tableOf ["10"; "90"; "50"]))); SortClicked] ++
                  RequestSettled (Fulfilled (data (tableOf ["10"; "90"; "50"]))) ::
                  [ThemeClicked]) initialState)) = data (tableOf ["10"; "90"; "50"]) /\
  sortOrder (fst (run ([RequestSettled (Fulfilled (data (tableOf ["10"; "90"; "50"]))); SortClicked] ++
                       RequestSettled (Fulfilled (data (tableOf ["10"; "90"; "50"]))) ::
                       [ThemeClicked]) initialState)) = asc.
Proof.
  exact (refresh_resets_the_order_not_the_arrow initialState
           [RequestSettled (Fulfilled (data (tableOf ["10"; "90"; "50"]))); SortClicked]
           [ThemeClicked] (data (tableOf ["10"; "90"; "50"])) eq_refl).
Defined.

(** ** The cells of the table *)

(** X10. The link text of an identifier that is long enough keeps both ends
    and hides the middle: the first 8 and the last 6 characters of a hash of
    14 characters or more, the first 6 and the last 4 of an address of 10 or
    more, with three dots between them. *)
Theorem long_identifiers_keep_both_ends
    (Number_toString : float -> string) (darkMode : bool) (tx : Transaction) :
  let cells := rowCells Number_toString darkMode tx in
  ((14 <= String.length (transaction_hash tx))%nat ->
   exists a middle b,
     transaction_hash tx = a ++ middle ++ b /\
     String.length a = 8%nat /\ String.length b = 6%nat /\
     Link.text (hashCell cells) = a ++ "..." ++ b) /\
  ((10 <= String.length (from_address tx))%nat ->
   exists a middle b,
     from_address tx = a ++ middle ++ b /\
     String.length a = 6%nat /\ String.length b = 4%nat /\
     Link.text (fromCell cells) = a ++ "..." ++ b) /\
  ((10 <= String.length (to_address tx))%nat ->
   exists a middle b,
     to_address tx = a ++ middle ++ b /\
     String.length a = 6%nat /\ String.length b = 4%nat /\
     Link.text (toCell cells) = a ++ "..." ++ b).
Proof.
  cbv zeta. cbn [rowCells hashCell fromCell toCell Link.text].
  split; [|split]; intros H.
  - destruct (shorten_long 8 6 (transaction_hash tx)) as (a & m & b & E & La & Lb & S); try lia.
    exists a, m, b. repeat split; try assumption; lia.
  - destruct (shorten_long 6 4 (from_address tx)) as (a & m & b & E & La & Lb & S); try lia.
    exists a, m, b. repeat split; try assumption; lia.
  - destruct (shorten_long 6 4 (to_address tx)) as (a & m & b & E & La & Lb & S); try lia.
    exists a, m, b. repeat split; try assumption; lia.
Qed.

Lemma long_identifiers_keep_both_ends_witness :
  exists a middle b,
    transaction_hash (sampleRecord "10" false) = a ++ middle ++ b /\
    String.length a = 8%nat /\ String.length b = 6%nat /\
    Link.text (hashCell (rowCells (fun _ => "") false (sampleRecord "10" false))) =
      a ++ "..." ++ b.
Proof.
  apply (proj1 (long_identifiers_keep_both_ends (fun _ => "") false (sampleRecord "10" false))).
  cbn. lia.
Defined.

(** X11. [substring] clamps a negative start to 0: a hash of at most 6
    characters, or an address of at most 4, is shown twice, before and after
    the dots. The link text of a hash never has more than 17 characters, that
    of an address never more than 13. *)
Theorem short_identifiers_are_shown_twice
    (Number_toString : float -> string) (darkMode : bool) (tx : Transaction) :
  let cells := rowCells Number_toString darkMode tx in
  ((String.length (transaction_hash tx) <= 6)%nat ->
   Link.text (hashCell cells) = transaction_hash tx ++ "..." ++ transaction_hash tx) /\
  ((String.length (from_address tx) <= 4)%nat ->
   Link.text (fromCell cells) = from_address tx ++ "..." ++ from_address tx) /\
  ((String.length (to_address tx) <= 4)%nat ->
   Link.text (toCell cells) = to_address tx ++ "..." ++ to_address tx) /\
  (String.length (Link.text (hashCell cells)) <= 17)%nat /\
  (String.length (Link.text (fromCell cells)) <= 13)%nat /\
  (String.length (Link.text (toCell cells)) <= 13)%nat.
Proof.
  cbv zeta. cbn [rowCells hashCell fromCell toCell Link.text].
  repeat split; try (intros H; apply shorten_short; lia).
  - pose proof (shorten_length 8 6 (transaction_hash tx)). lia.
  - pose proof (shorten_length 6 4 (from_address tx)). lia.
  - pose proof (shorten_length 6 4 (to_address tx)). lia.
Qed.

Lemma short_identifiers_are_shown_twice_witness :
  Link.text (hashCell (rowCells (fun _ => "") false shortRecord)) = "0xabc...0xabc" /\
  Link.text (fromCell (rowCells (fun _ => "") false shortRecord)) = "0x1...0x1" /\
  Link.text (toCell (rowCells (fun _ => "") false shortRecord)) = "...".
Proof.
  destruct (short_identifiers_are_shown_twice (fun _ => "") false shortRecord)
    as (H1 & H2 & H3 & _).
  split; [apply H1; cbn; lia|]. split; [apply H2; cbn; lia|apply H3; cbn; lia].
Defined.

(** X12. The value cell, [Number(tx.value_eth).toFixed(6)]: a blank
    [value_eth] is shown as [0.000000]; one that [Number] cannot read is shown
    as [NaN]; and one written with six decimals (of fewer than 2^52 units of
    the last place) is shown as it was sent. *)
Theorem value_cell_cases
    (Number_toString : float -> string) (darkMode : bool) (tx : Transaction) :
  let cell := valueCell (rowCells Number_toString darkMode tx) in
  (trimStart (value_eth tx) = "" -> cell = "0.000000") /\
  (is_nan (Number (value_eth tx)) = true -> cell = "NaN") /\
  (forall N, 0 <= N < 2 ^ 52 -> value_eth tx = fixedNotation N 6 -> cell = value_eth tx).
Proof.
  cbv zeta. cbn [rowCells valueCell]. split; [|split].
  - intros H. unfold Number. rewrite H. reflexivity.
  - apply toFixed_nan.
  - intros N HN ->. rewrite Number_fixedNotation by lia.
    destruct (roundDecimal_rounds false N (- 6) ltac:(lia)) as [R Nx].
    apply toFixed_of_rounded; try assumption; try lia.
    unfold sgn in R. now rewrite Rmult_1_l in R.
Qed.

Lemma value_cell_cases_witness :
  valueCell (rowCells (fun _ => "") false shortRecord) = "1.500000" /\
  valueCell (rowCells (fun _ => "") false blankValue) = "0.000000".
Proof.
  destruct (value_cell_cases (fun _ => "") false shortRecord) as (_ & _ & H).
  destruct (value_cell_cases (fun _ => "") false blankValue) as (B & _).
  split; [exact (H 1500000 ltac:(lia) eq_refl)|exact (B eq_refl)].
Defined.

(** ** The circles and their tooltips *)

(** X13. A record whose score is within [0, 100] is drawn on the canvas: when
    the cosine and the sine of the angle drawn are within [-1, 1], both
    coordinates of the point are within [-distance, distance], so that its
    centre, in the group translated to (200, 200), stays at least 8 (the
    radius of a hovered circle) inside the 400 by 400 canvas. *)
Theorem points_stay_on_the_canvas
    (Math_cos Math_sin : float -> float) (Math_PI : float) (Math_random : nat -> float)
    (draw : nat) (tx : Transaction) :
  let angle := (Math_random draw * 2 * Math_PI)%float in
  let p := toPoint Math_cos Math_sin Math_PI Math_random draw tx in
  (0 <=? parseFloat (anomaly_percentage tx))%float = true ->
  (parseFloat (anomaly_percentage tx) <=? 100)%float = true ->
  (-1 <=? Math_cos angle)%float = true -> (Math_cos angle <=? 1)%float = true ->
  (-1 <=? Math_sin angle)%float = true -> (Math_sin angle <=? 1)%float = true ->
  (- distance tx <=? Point.x p)%float = true /\ (Point.x p <=? distance tx)%float = true /\
  (- distance tx <=? Point.y p)%float = true /\ (Point.y p <=? distance tx)%float = true /\
  (8 <= F2R (width / 2)%float + F2R (Point.x p) <= F2R width - 8)%R /\
  (8 <= F2R (height / 2)%float + F2R (Point.y p) <= F2R height - 8)%R.
Proof.
  cbv zeta. intros L U C1 C2 S1 S2. cbn [toPoint Point.x Point.y].
  destruct (distance_range tx L U) as [Fd [D0 D1]].
  destruct (mul_contracts _ _ C1 C2 Fd D0) as [Nx [X1 X2]].
  destruct (mul_contracts _ _ S1 S2 Fd D0) as [Ny [Y1 Y2]].
  assert (Nd : num (distance tx)) by (unfold fin in Fd; unfold num; now destruct (Prim2SF (distance tx))).
  assert (No : num (- distance tx)%float /\ F2R (- distance tx)%float = (- F2R (distance tx))%R).
  { unfold num, F2R. rewrite opp_spec. unfold fin in Fd.
    destruct (Prim2SF (distance tx)) as [s|s| |s m e]; try discriminate; cbn [SFopp SF2X is_num].
    - split; [reflexivity|ring].
    - split; [reflexivity|]. rewrite sgn_negb. ring. }
  destruct No as [No Eo]. destruct F2R_centre as [Cx Cy].
  rewrite !leb_iff, Eo, Cx, Cy, F2R_width, F2R_height.
  repeat split; try assumption; lra.
Qed.

Lemma points_stay_on_the_canvas_witness :
  let p := toPoint (fun _ => 1%float) (fun _ => 0%float) 0%float (fun _ => 0%float)
             0 anomaly90 in
  (- distance anomaly90 <=? Point.x p)%float = true /\
  (Point.x p <=? distance anomaly90)%float = true /\
  (- distance anomaly90 <=? Point.y p)%float = true /\
  (Point.y p <=? distance anomaly90)%float = true /\
  (8 <= F2R (width / 2)%float + F2R (Point.x p) <= F2R width - 8)%R /\
  (8 <= F2R (height / 2)%float + F2R (Point.y p) <= F2R height - 8)%R.
Proof.
  apply (points_stay_on_the_canvas (fun _ => 1%float) (fun _ => 0%float) 0%float
           (fun _ => 0%float) 0 anomaly90); vm_compute; reflexivity.
Defined.

(** X14. On a drawing that was just made, [mouseout] undoes [mouseover]:
    hovering over a circle and leaving it gives back the drawing as it
    was. *)
Theorem mouseout_undoes_mouseover
    (Number_toString : float -> string) (darkMode : bool) (points : list Point.t) (i : nat) :
  mouseout i (mouseover Number_toString i (draw darkMode points)) = draw darkMode points.
Proof.
  unfold mouseover.
  destruct (nth_error (circles (draw darkMode points)) i) as [this|] eqn:E.
  - unfold mouseout. cbn [circles].
    rewrite (selectThis_nth _ _ _ _ E), selectThis_twice.
    cbn [dark svgWidth svgHeight translate boundary circles draw].
    rewrite selectThis_id; [reflexivity|].
    intros c Hc.
    apply in_map_iff in Hc. destruct Hc as (p & <- & _). reflexivity.
  - unfold mouseout. now rewrite E.
Qed.

(** X15. Pointer events move no circle: after any sequence of [mouseover]
    and [mouseout] on the circles of a drawing, every circle has the
    position, the fill and the point it was drawn with, and is either at rest
    (radius 5, opacity 0.7) or enlarged (radius 8, opacity 1). [mouseout]
    removes every tooltip and [mouseover] removes none: the tooltips present
    are those of the points entered since the last [mouseout]. *)
Theorem hover_moves_no_circle
    (Number_toString : float -> string) (darkMode : bool) (points : list Point.t)
    (events : list Hover) :
  forallb (inRange (List.length points)) events = true ->
  let g := hover Number_toString events (draw darkMode points) in
  map placed (circles g) = map placed (circles (draw darkMode points)) /\
  Forall (fun c => atRest c \/ enlarged c) (circles g) /\
  tooltips g = tooltipsOf Number_toString darkMode points (entered [] events).
Proof.
  intros R. apply (hover_facts Number_toString points darkMode events _ [] R);
    try reflexivity.
  cbn [circles draw]. apply Forall_forall. intros c Hc.
  apply in_map_iff in Hc. destruct Hc as (p & <- & _). left. now split.
Qed.

Lemma hover_moves_no_circle_witness :
  let pts := points (fun _ => 1%float) (fun _ => 0%float) 0%float (fun _ => 0%float)
               [anomaly90; normal10] in
  let g := hover (fun _ => "") [Over 0; Over 1; Out 0; Over 1] (draw false pts) in
  map placed (circles g) = map placed (circles (draw false pts)) /\
  Forall (fun c => atRest c \/ enlarged c) (circles g) /\
  tooltips g =
    tooltipsOf (fun _ => "") false pts (entered [] [Over 0; Over 1; Out 0; Over 1]).
Proof.
  exact (hover_moves_no_circle (fun _ => "") false
           (points (fun _ => 1%float) (fun _ => 0%float) 0%float (fun _ => 0%float)
              [anomaly90; normal10])
           [Over 0; Over 1; Out 0; Over 1] eq_refl).
Defined.

(** X16. [mouseover] on the circle of the [i]-th record of a fresh drawing
    appends one tooltip, at the point shifted by (10, -10), that reads
    [Score: ] followed by the parsed score with two decimals: [Score: NaN]
    for a score that is not numeric, and the score as it was sent when it was
    sent with two decimals (of fewer than 2^52 hundredths). *)
Theorem tooltip_shows_the_score
    (Number_toString : float -> string)
    (Math_cos Math_sin : float -> float) (Math_PI : float) (Math_random : nat -> float)
    (darkMode : bool) (txs : list Transaction) (i : nat) (tx : Transaction) :
  nth_error txs i = Some tx ->
  let p := toPoint Math_cos Math_sin Math_PI Math_random i tx in
  exists t,
    tooltips (mouseover Number_toString i
                (draw darkMode (points Math_cos Math_sin Math_PI Math_random txs))) = [t] /\
    Tooltip.x t = (Point.x p + 10)%float /\ Tooltip.y t = (Point.y p - 10)%float /\
    Tooltip.text t =
      "Score: " ++ toFixed Number_toString (parseFloat (anomaly_percentage tx)) 2 /\
    (is_nan (parseFloat (anomaly_percentage tx)) = true -> Tooltip.text t = "Score: NaN") /\
    (forall N, 0 <= N < 2 ^ 52 -> anomaly_percentage tx = fixedNotation N 2 ->
       Tooltip.text t = "Score: " ++ anomaly_percentage tx).
Proof.
  intros H. cbv zeta. unfold mouseover, draw, points. cbn [circles dark tooltips].
  rewrite nth_error_map, (mapPoints_nth _ _ _ _ 0 txs i tx H). cbn [option_map tooltips app].
  eexists. split; [reflexivity|]. cbn [Tooltip.x Tooltip.y Tooltip.text Circle.datum appendCircle
                                       Point.x Point.y Point.score toPoint Nat.add].
  repeat split.
  - intros Hn. now rewrite (toFixed_nan _ _ _ Hn).
  - intros N HN E. f_equal. rewrite E.
    pose proof (parseFloat_fixedNotation false N 2 ltac:(lia) ltac:(lia)) as P.
    cbn [append] in P. rewrite P.
    destruct (roundDecimal_rounds false N (- 2) ltac:(lia)) as [R Nx].
    apply toFixed_of_rounded; try assumption; try lia.
    unfold sgn in R. now rewrite Rmult_1_l in R.
Qed.

Lemma tooltip_shows_the_score_witness :
  exists t,
    tooltips (mouseover (fun _ => "") 0
                (draw false (points (fun _ => 1%float) (fun _ => 0%float) 0%float
                               (fun _ => 0%float) [shortRecord]))) = [t] /\
    Tooltip.text t = "Score: 12.34".
Proof.
  destruct (tooltip_shows_the_score (fun _ => "") (fun _ => 1%float) (fun _ => 0%float)
              0%float (fun _ => 0%float) false [shortRecord] 0 shortRecord eq_refl)
    as (t & E & _ & _ & _ & _ & H).
  exists t. split; [exact E|]. exact (H 1234 ltac:(lia) eq_refl).
Defined.

(** ** Numbers written and read *)

(** X17. [toFixed] prints the nearest decimal: for a number [x] below 10^21
    in absolute value and 1 to 100 fraction digits, the text is a minus sign
    when [x < 0], one digit or more, a point, and exactly [fractionDigits]
    digits; the digits spell the integer [n] nearest to [|x| * 10^fractionDigits],
    the larger of the two when two are as near. *)
Theorem toFixed_prints_the_nearest_decimal
    (Number_toString : float -> string) (x : float) (fractionDigits : Z) :
  (abs x <? 1e21)%float = true -> 0 < fractionDigits <= 100 ->
  exists (n : Z) (a b : string),
    toFixed Number_toString x fractionDigits =
      (if (x <? 0)%float then "-" else "") ++ a ++ "." ++ b /\
    allDigits a = true /\ (1 <= String.length a)%nat /\
    allDigits b = true /\ Z.of_nat (String.length b) = fractionDigits /\
    digitsValue 0 (a ++ b) = n /\
    (IZR n - / 2 <= Rabs (F2R x) * powerRZ 10 fractionDigits < IZR n + / 2)%R.
Proof.
  intros H Hf.
  destruct (toFixed_finite Number_toString x fractionDigits H)
    as [(s & _ & Z0 & -> & ->)|(s & m & e & _ & A & -> & ->)].
  - destruct (fixedNotation_parts 0 fractionDigits) as (a & b & E & Da & Db & La & Lb & V);
      try lia.
    exists 0, a, b. rewrite E, Z0, Rabs_R0, Rmult_0_l. repeat split; try assumption; lra.
  - destruct (nearestFixed_spec m e fractionDigits) as [Nn B]; [lia|].
    destruct (fixedNotation_parts (nearestFixed m e fractionDigits) fractionDigits)
      as (a & b & E & Da & Db & La & Lb & V); try lia.
    exists (nearestFixed m e fractionDigits), a, b. rewrite E, A.
    repeat split; try assumption; lra.
Qed.

Lemma toFixed_prints_the_nearest_decimal_witness :
  exists (n : Z) (a b : string),
    toFixed (fun _ => "") (parseFloat "1.005") 2 =
      (if (parseFloat "1.005" <? 0)%float then "-" else "") ++ a ++ "." ++ b /\
    allDigits a = true /\ (1 <= String.length a)%nat /\
    allDigits b = true /\ Z.of_nat (String.length b) = 2 /\
    digitsValue 0 (a ++ b) = n /\
    (IZR n - / 2 <= Rabs (F2R (parseFloat "1.005")) * powerRZ 10 2 < IZR n + / 2)%R.
Proof.
  apply (toFixed_prints_the_nearest_decimal (fun _ => "") (parseFloat "1.005") 2).
  - vm_compute. reflexivity.
  - lia.
Defined.

(** X18. [parseFloat] reads back what [toFixed] printed: for a number [x]
    below 10^21 in absolute value, the text is read as a number, which is
    within one unit of the last printed digit of [x]. *)
Theorem parseFloat_reads_toFixed_back
    (Number_toString : float -> string) (x : float) (fractionDigits : Z) :
  (abs x <? 1e21)%float = true -> 0 <= fractionDigits <= 100 ->
  is_nan (parseFloat (toFixed Number_toString x fractionDigits)) = false /\
  (Rabs (F2R (parseFloat (toFixed Number_toString x fractionDigits)) - F2R x)
   <= powerRZ 10 (- fractionDigits))%R.
Proof.
  intros H Hf. pose proof (abs_below_fin x H) as Fx.
  destruct (toFixed_value Number_toString x fractionDigits H) as (n & Hn & -> & B); [lia|].
  rewrite (parseFloat_fixedNotation _ n fractionDigits Hn) by lia.
  destruct (roundDecimal_rounds (x <? 0)%float n (- fractionDigits) Hn) as [R N].
  split; [now apply is_nan_iff|].
  pose proof (rounds_nearest _ _ x R Fx) as Near.
  set (y := F2R (roundDecimal (x <? 0)%float n (- fractionDigits))) in *.
  set (T := powerRZ 10 fractionDigits) in *.
  assert (PT : (0 < T)%R) by (apply powerRZ_lt; lra).
  assert (IT : powerRZ 10 (- fractionDigits) = (/ T)%R) by apply powerRZ_neg'.
  rewrite IT in *.
  set (D := (sgn (x <? 0)%float * (IZR n * / T))%R) in *.
  assert (E : (Rabs (F2R x - D) <= / 2 * / T)%R).
  { assert (Q : (Rabs (Rabs (F2R x) - IZR n * / T) <= / 2 * / T)%R).
    { replace (Rabs (F2R x) - IZR n * / T)%R
        with ((Rabs (F2R x) * T - IZR n) * / T)%R by (field; lra).
      rewrite Rabs_mult, (Rabs_right (/ T)) by (apply Rle_ge, Rlt_le, Rinv_0_lt_compat, PT).
      apply Rmult_le_compat_r; [apply Rlt_le, Rinv_0_lt_compat, PT|].
      unfold Rabs at 1. destruct Rcase_abs; lra. }
    unfold D. destruct (x <? 0)%float eqn:S; unfold sgn.
    - rewrite (sign_of_negative x S) in Q.
      replace (F2R x - -1 * (IZR n * / T))%R with (- (- F2R x - IZR n * / T))%R by ring.
      now rewrite Rabs_Ropp.
    - rewrite (sign_of_nonnegative x Fx S) in Q.
      now replace (F2R x - 1 * (IZR n * / T))%R with (F2R x - IZR n * / T)%R by ring. }
  replace (y - F2R x)%R with ((y - D) + (D - F2R x))%R by ring.
  eapply Rle_trans; [apply Rabs_triang|].
  rewrite (Rabs_minus_sym D (F2R x)). lra.
Qed.

Lemma parseFloat_reads_toFixed_back_witness :
  is_nan (parseFloat (toFixed (fun _ => "") (parseFloat "1.005") 2)) = false /\
  (Rabs (F2R (parseFloat (toFixed (fun _ => "") (parseFloat "1.005") 2)) -
         F2R (parseFloat "1.005")) <= powerRZ 10 (- 2))%R.
Proof.
  apply (parseFloat_reads_toFixed_back (fun _ => "") (parseFloat "1.005") 2).
  - vm_compute. reflexivity.
  - lia.
Defined.

(** X19. A decimal written in fixed notation with [fractionDigits] decimals,
    of fewer than 2^52 units of the last place, survives the round trip
    through binary64: [toFixed] prints the very digits that [parseFloat]
    read. *)
Theorem toFixed_keeps_short_decimals
    (Number_toString : float -> string) (N fractionDigits : Z) :
  0 <= N < 2 ^ 52 -> 0 <= fractionDigits <= 100 ->
  toFixed Number_toString (parseFloat (fixedNotation N fractionDigits)) fractionDigits =
  fixedNotation N fractionDigits.
Proof.
  intros HN Hf.
  pose proof (parseFloat_fixedNotation false N fractionDigits ltac:(lia) ltac:(lia)) as P.
  cbn [append] in P. rewrite P.
  destruct (roundDecimal_rounds false N (- fractionDigits) ltac:(lia)) as [R Nx].
  apply toFixed_of_rounded; try assumption.
  unfold sgn in R. now rewrite Rmult_1_l in R.
Qed.

Lemma toFixed_keeps_short_decimals_witness :
  toFixed (fun _ => "") (parseFloat (fixedNotation 1234 2)) 2 = fixedNotation 1234 2 /\
  fixedNotation 1234 2 = "12.34".
Proof.
  split; [|reflexivity].
  apply (toFixed_keeps_short_decimals (fun _ => "") 1234 2); lia.
Defined.

(** X20. [parseFloat] reads what [Number] reads: when [Number] reads a number
    from a string that is not blank and not a binary, octal or hexadecimal
    literal, [parseFloat] reads the same number from it, also when the string
    is followed by any text that does not begin with a digit, a point or an
    exponent mark. *)
Theorem parseFloat_reads_what_Number_reads (s w : string) :
  is_nan (Number s) = false ->
  trimStart s <> "" ->
  nonDecimalIntegerLiteral (trimEnd (trimStart s)) = None ->
  noLiteralAhead w = true ->
  parseFloat (s ++ w) = Number s.
Proof.
  intros Hn Hb Hd Hw.
  destruct (trimStart_cases s) as [E|(c0 & r0 & E & W0)]; [contradiction|].
  pose proof (trimEnd_nonempty c0 r0 W0) as Ne. rewrite <- E in Ne.
  unfold parseFloat. rewrite (trimStart_app s w Hb).
  unfold Number in *.
  destruct (trimEnd_split (trimStart s)) as (w' & S & Ww).
  pose proof (noLiteralAhead_app w' w Ww Hw) as HW.
  set (t0 := trimEnd (trimStart s)) in *.
  rewrite S, append_assoc. clearbody t0.
  destruct t0 as [|c t]; [contradiction|]. rewrite Hd in *.
  cbn [append].
  assert (G : forall neg body,
            is_nan match strUnsignedDecimalLiteralRest body with
                   | Some "" => strUnsignedDecimalLiteral neg body
                   | _ => PrimFloat.nan
                   end = false ->
            strUnsignedDecimalLiteral neg (body ++ w' ++ w) =
            match strUnsignedDecimalLiteralRest body with
            | Some "" => strUnsignedDecimalLiteral neg body
            | _ => PrimFloat.nan
            end).
  { intros neg body Q.
    destruct (strUnsignedDecimalLiteralRest body) as [[|c1 r1]|] eqn:R; try discriminate.
    now apply unsigned_app. }
  destruct c as [[] [] [] [] [] [] [] []];
    match goal with
    | |- strUnsignedDecimalLiteral ?n (String ?a (t ++ _)) = _ => exact (G n (String a t) Hn)
    | |- strUnsignedDecimalLiteral ?n (t ++ _) = _ => exact (G n t Hn)
    end.
Qed.

Lemma parseFloat_reads_what_Number_reads_witness :
  parseFloat (" 12.5 " ++ "%") = Number " 12.5 ".
Proof.
  apply (parseFloat_reads_what_Number_reads " 12.5 " "%"); try reflexivity; discriminate.
Defined.
